(** * FDBTransaction: the transaction engine of fakeIndexedDB

    A shallow embedding of [src/src/FDBTransaction.ts].  The class is a
    mutable object whose methods call back into closures supplied by its
    collaborators (operations, rollback entries, event listeners), so the
    embedding is a state-and-exception monad over a [World] that holds the
    transaction's fields, the request objects it refers to, the database
    registry, and the task queue. *)

From Stdlib Require Import List String Arith Lia Bool.
From stdpp Require Import base option list strings gmap.
Import ListNotations.
Local Open Scope string_scope.
Local Open Scope list_scope.

(** ** Data model *)

(** [_state: "active" | "inactive" | "committing" | "finished"] *)
Inductive TxState := active | inactive | committing | finished.

(** [FDBRequest.readyState] *)
Inductive ReadyState := pending | done.

#[global] Instance TxState_eq_dec : EqDecision TxState.
Proof. solve_decision. Defined.
#[global] Instance ReadyState_eq_dec : EqDecision ReadyState.
Proof. solve_decision. Defined.

(** Closures are code pointers: operations, rollback entries and listeners
    are named by a number, and what a closure does when called is given by
    the environment (see [Section Engine]). *)
Definition Closure := nat.

(** Object references (requests, sources, store handles). *)
Definition Ref := nat.

(** A thrown failure.  The engine only ever reads [err.name]. *)
Record JsError := mkError { name : string }.

#[global] Instance JsError_eq_dec : EqDecision JsError.
Proof. solve_decision. Defined.

(** The error classes of lib/errors: [this.name = this.constructor.name]. *)
Definition InvalidStateError := mkError "InvalidStateError".
Definition NotFoundError := mkError "NotFoundError".
Definition TransactionInactiveError := mkError "TransactionInactiveError".
Definition AbortError := mkError "AbortError".

(** Values returned by operations. *)
Inductive Value := undefined | data (n : nat).

#[global] Instance Value_eq_dec : EqDecision Value.
Proof. solve_decision. Defined.

(** The fields of an [FDBRequest] that the transaction reads or writes. *)
Record FDBRequest := mkRequest {
  readyState : ReadyState;
  result : Value;
  req_error : option JsError;
  source : option Ref
}.

(** Modelled from the spec: the constructor of FDBRequest.js, which is not
    among the sources.  "A freshly constructed request starts pending, no
    result, no error"; it has no source until one is assigned. *)
Definition new_FDBRequest : FDBRequest :=
  {| readyState := pending; result := undefined; req_error := None; source := None |}.

#[global] Instance FDBRequest_inhabited : Inhabited FDBRequest := populate new_FDBRequest.

(** A raw object store of the database registry; its contents are opaque here. *)
Definition RawObjectStore := list nat.

(** Modelled from the spec: the store handle of FDBObjectStore.js, which is not
    among the sources.  [new FDBObjectStore(transaction, rawObjectStore)] makes
    a new object, so a handle carries the reference it was allocated at. *)
Record FDBObjectStore := mkObjectStore {
  os_ref : Ref;
  os_raw : RawObjectStore
}.

(** Event targets: a request, the transaction ([this]) or its database ([this.db]). *)
Inductive Target := TRequest (r : Ref) | TTransaction | TDatabase.

#[global] Instance Target_eq_dec : EqDecision Target.
Proof. solve_decision. Defined.

(** Modelled from the spec: the event of lib/FakeEvent.js, which is not among
    the sources.  "An event carries a name, bubbles and cancelable flags, a
    mutable path"; the flags are false and the path empty unless given. *)
Record FakeEvent := mkEvent {
  ev_type : string;
  bubbles : bool;
  cancelable : bool;
  eventPath : list Target
}.

#[global] Instance FakeEvent_eq_dec : EqDecision FakeEvent.
Proof. solve_decision. Defined.

(** The two closures the transaction hands to [queueTask]. *)
Inductive Task :=
| TaskStart            (* this._start.bind(this) *)
| TaskAbortEvent.      (* () => { ... this.dispatchEvent(abort event) } *)

#[global] Instance Task_eq_dec : EqDecision Task.
Proof. solve_decision. Defined.

(** An entry of [_requests]: [{operation, request}]. *)
Definition QueueEntry := (Closure * Ref)%type.

(** Observations, recorded in program order (a ghost field: no method reads it). *)
Inductive Obs :=
| OEnqueue (e : QueueEntry)                (* _requests.push *)
| OExec (e : QueueEntry)                   (* _start calls operation() *)
| OSkip (e : QueueEntry)                   (* _start shifts an entry that is already done *)
| ORollback (f : Closure)                  (* _abort calls a rollback entry *)
| ODispatch (t : Target) (e : FakeEvent).  (* target.dispatchEvent(event) *)

#[global] Instance Obs_eq_dec : EqDecision Obs.
Proof. solve_decision. Defined.

(** Argument of [_execRequestAsync]. *)
Record RequestObj := mkRequestObj {
  obj_source : option Ref;
  obj_operation : Closure;
  obj_request : option Ref     (* obj.hasOwnProperty("request") ? obj.request : null *)
}.

(** The world: the transaction object, the objects it points to, and the
    scheduler's queue. *)
Record World := mkWorld {
  (* fields of FDBTransaction *)
  _state : TxState;
  _started : bool;
  _rollbackLog : list Closure;
  _objectStoresCache : gmap string FDBObjectStore;
  error : option JsError;
  _scope : gset string;
  _requests : list QueueEntry;
  (* this.db._rawDatabase.rawObjectStores *)
  rawObjectStores : gmap string RawObjectStore;
  (* the request objects, by reference *)
  heap : gmap Ref FDBRequest;
  next_ref : Ref;
  (* the task queue behind queueTask *)
  tasks : list Task;
  (* listeners registered on the event targets: (target, event type, callback) *)
  listeners : list (Target * string * Closure);
  (* event.canceled of the event being dispatched *)
  canceled : bool;
  (* ghost *)
  trace : list Obs
}.

Definition set_state (s : TxState) (w : World) : World :=
  mkWorld s (_started w) (_rollbackLog w) (_objectStoresCache w) (error w) (_scope w)
    (_requests w) (rawObjectStores w) (heap w) (next_ref w) (tasks w) (listeners w)
    (canceled w) (trace w).
Definition set_started (b : bool) (w : World) : World :=
  mkWorld (_state w) b (_rollbackLog w) (_objectStoresCache w) (error w) (_scope w)
    (_requests w) (rawObjectStores w) (heap w) (next_ref w) (tasks w) (listeners w)
    (canceled w) (trace w).
Definition set_rollbackLog (l : list Closure) (w : World) : World :=
  mkWorld (_state w) (_started w) l (_objectStoresCache w) (error w) (_scope w)
    (_requests w) (rawObjectStores w) (heap w) (next_ref w) (tasks w) (listeners w)
    (canceled w) (trace w).
Definition set_objectStoresCache (c : gmap string FDBObjectStore) (w : World) : World :=
  mkWorld (_state w) (_started w) (_rollbackLog w) c (error w) (_scope w)
    (_requests w) (rawObjectStores w) (heap w) (next_ref w) (tasks w) (listeners w)
    (canceled w) (trace w).
Definition set_error (e : option JsError) (w : World) : World :=
  mkWorld (_state w) (_started w) (_rollbackLog w) (_objectStoresCache w) e (_scope w)
    (_requests w) (rawObjectStores w) (heap w) (next_ref w) (tasks w) (listeners w)
    (canceled w) (trace w).
Definition set_requests (q : list QueueEntry) (w : World) : World :=
  mkWorld (_state w) (_started w) (_rollbackLog w) (_objectStoresCache w) (error w) (_scope w)
    q (rawObjectStores w) (heap w) (next_ref w) (tasks w) (listeners w)
    (canceled w) (trace w).
Definition set_rawObjectStores (m : gmap string RawObjectStore) (w : World) : World :=
  mkWorld (_state w) (_started w) (_rollbackLog w) (_objectStoresCache w) (error w) (_scope w)
    (_requests w) m (heap w) (next_ref w) (tasks w) (listeners w)
    (canceled w) (trace w).
Definition set_heap (h : gmap Ref FDBRequest) (w : World) : World :=
  mkWorld (_state w) (_started w) (_rollbackLog w) (_objectStoresCache w) (error w) (_scope w)
    (_requests w) (rawObjectStores w) h (next_ref w) (tasks w) (listeners w)
    (canceled w) (trace w).
Definition set_next_ref (n : Ref) (w : World) : World :=
  mkWorld (_state w) (_started w) (_rollbackLog w) (_objectStoresCache w) (error w) (_scope w)
    (_requests w) (rawObjectStores w) (heap w) n (tasks w) (listeners w)
    (canceled w) (trace w).
Definition set_tasks (t : list Task) (w : World) : World :=
  mkWorld (_state w) (_started w) (_rollbackLog w) (_objectStoresCache w) (error w) (_scope w)
    (_requests w) (rawObjectStores w) (heap w) (next_ref w) t (listeners w)
    (canceled w) (trace w).
Definition set_listeners (l : list (Target * string * Closure)) (w : World) : World :=
  mkWorld (_state w) (_started w) (_rollbackLog w) (_objectStoresCache w) (error w) (_scope w)
    (_requests w) (rawObjectStores w) (heap w) (next_ref w) (tasks w) l
    (canceled w) (trace w).
Definition set_canceled (b : bool) (w : World) : World :=
  mkWorld (_state w) (_started w) (_rollbackLog w) (_objectStoresCache w) (error w) (_scope w)
    (_requests w) (rawObjectStores w) (heap w) (next_ref w) (tasks w) (listeners w)
    b (trace w).
Definition set_trace (t : list Obs) (w : World) : World :=
  mkWorld (_state w) (_started w) (_rollbackLog w) (_objectStoresCache w) (error w) (_scope w)
    (_requests w) (rawObjectStores w) (heap w) (next_ref w) (tasks w) (listeners w)
    (canceled w) t.

(** [new FDBTransaction(storeNames, mode, db)]: the field initialisers and the
    constructor body.  ([mode] and [objectStoreNames] are never read by the
    methods below and are left out.) *)
Definition new_FDBTransaction (storeNames : list string)
    (db : gmap string RawObjectStore) : World :=
  {| _state := active; _started := false; _rollbackLog := [];
     _objectStoresCache := ∅; error := None;
     _scope := list_to_set storeNames; _requests := [];
     rawObjectStores := db; heap := ∅; next_ref := 0; tasks := [];
     listeners := []; canceled := false; trace := [] |}.

(** ** The monad: state, exceptions, and fuel for the live loops *)

Inductive Result (A : Type) :=
| Val (a : A) (w : World)        (* normal return *)
| Exc (e : JsError) (w : World)  (* throw e *)
| OutOfFuel.
Arguments Val {A} a w.
Arguments Exc {A} e w.
Arguments OutOfFuel {A}.

Definition M (A : Type) := World -> Result A.

Definition ret {A} (a : A) : M A := fun w => Val a w.
Definition throw {A} (e : JsError) : M A := fun w => Exc e w.
Definition bind {A B} (m : M A) (k : A -> M B) : M B :=
  fun w => match m w with
           | Val a w' => k a w'
           | Exc e w' => Exc e w'
           | OutOfFuel => OutOfFuel
           end.
(** [try { m } catch (err) { h err }] *)
Definition try_catch {A} (m : M A) (h : JsError -> M A) : M A :=
  fun w => match m w with
           | Exc e w' => h e w'
           | r => r
           end.
Definition get : M World := fun w => Val w w.
Definition gets {A} (f : World -> A) : M A := fun w => Val (f w) w.
Definition modify (f : World -> World) : M unit := fun w => Val tt (f w).

Declare Scope js_scope.
Delimit Scope js_scope with js.
Notation "x <- m ;; k" := (bind m (fun x => k))
  (at level 100, m at next level, k at level 200, right associativity) : js_scope.
Notation "m ;; k" := (bind m (fun _ => k))
  (at level 100, k at level 200, right associativity) : js_scope.
Local Open Scope js_scope.

(** The world a computation ends in, when it ends. *)
Definition world_of {A} (r : Result A) : option World :=
  match r with Val _ w => Some w | Exc _ w => Some w | OutOfFuel => None end.

(** [for (const x of arr(this)) body(x)] over a live array: the iterator keeps
    an index and re-reads the array at every step, so entries pushed by the
    body are visited too. *)
Fixpoint for_of {A} (arr : World -> list A) (body : A -> M unit)
    (fuel i : nat) : M unit :=
  match fuel with
  | 0 => fun _ => OutOfFuel
  | S fuel' => fun w =>
      match arr w !! i with
      | None => Val tt w
      | Some x => (body x ;; for_of arr body fuel' (S i)) w
      end
  end.

(** Ghost: append an observation. *)
Definition observe (o : Obs) : M unit :=
  modify (fun w => set_trace (trace w ++ [o]) w).

(** Reading and writing a request object through its reference. *)
Definition request_at (w : World) (r : Ref) : FDBRequest := heap w !!! r.
Definition update_request (r : Ref) (f : FDBRequest -> FDBRequest) : M unit :=
  modify (fun w => set_heap (<[r := f (request_at w r)]> (heap w)) w).

(** Modelled from the spec: queueTask of lib/scheduling.js, which is not
    among the sources.  "schedule(callback) appends callback to a single
    global FIFO queue". *)
Definition queueTask (t : Task) : M unit :=
  modify (fun w => set_tasks (tasks w ++ [t]) w).

(** [this._requests.push(entry)] (and, ghost, its observation) *)
Definition push_request (entry : QueueEntry) (w : World) : World :=
  set_trace (trace w ++ [OEnqueue entry]) (set_requests (_requests w ++ [entry]) w).

(** ** Methods that call no closure *)

(** [commit()] *)
Definition commit : M unit :=
  w <- get ;;
  if decide (_state w <> active) then throw InvalidStateError
  else modify (set_state committing).

(** [objectStore(name)] *)
Definition objectStore (name_ : string) : M FDBObjectStore :=
  w <- get ;;
  if decide (_state w <> active) then throw InvalidStateError
  else
    match _objectStoresCache w !! name_ with
    | Some objectStore => ret objectStore
    | None =>
        match rawObjectStores w !! name_ with
        | Some rawObjectStore =>
            if decide (name_ ∈ _scope w) then
              let objectStore2 := mkObjectStore (next_ref w) rawObjectStore in
              modify (fun w => set_next_ref (S (next_ref w)) w) ;;
              modify (fun w => set_objectStoresCache
                                 (<[name_ := objectStore2]> (_objectStoresCache w)) w) ;;
              ret objectStore2
            else throw NotFoundError
        | None => throw NotFoundError
        end
    end.

(** [_execRequestAsync(obj)] *)
Definition _execRequestAsync (obj : RequestObj) : M Ref :=
  w <- get ;;
  if decide (_state w <> active) then throw TransactionInactiveError
  else
    request <- match obj_request obj with
               | Some request => ret request
               | None =>
                   (* new FDBRequest(); request.source = source when there is one *)
                   let r := next_ref w in
                   modify (fun w => set_next_ref (S r)
                             (set_heap (<[r := mkRequest pending undefined None (obj_source obj)]>
                                          (heap w)) w)) ;;
                   ret r
               end ;;
    modify (push_request (obj_operation obj, request)) ;;
    ret request.

(** ** Methods that call closures *)

Section Engine.

(** What calling a closure does: [call f] is [f()] for an operation or a
    rollback entry.  An operation returns its result or throws. *)
Variable call : Closure -> M Value.

(** The listeners' side of [FakeEventTarget.dispatchEvent] (not among the
    sources): runs whatever listeners the event reaches and returns
    [event.canceled]; a listener's exception propagates. *)
Variable invoke_listeners : Target -> FakeEvent -> M bool.

(** Bound on the number of iterations of a [for ... of] loop. *)
Variable loop_fuel : nat.

(** [target.dispatchEvent(event)] *)
Definition dispatchEvent (t : Target) (e : FakeEvent) : M bool :=
  observe (ODispatch t e) ;;
  invoke_listeners t e.

Definition error_event : FakeEvent :=
  mkEvent "error" true true [TDatabase; TTransaction].
Definition success_event : FakeEvent :=
  mkEvent "success" false false [TDatabase; TTransaction].
Definition abort_event : FakeEvent :=
  mkEvent "abort" true false [TDatabase].
(** [new FakeEvent("complete")]: no options, no path. *)
Definition complete_event : FakeEvent :=
  mkEvent "complete" false false [].

(** [for (const f of this._rollbackLog.reverse()) { f(); }]
    [reverse()] reverses the array in place and returns it. *)
Definition run_rollbackLog : M unit :=
  modify (fun w => set_rollbackLog (reverse (_rollbackLog w)) w) ;;
  for_of _rollbackLog (fun f => observe (ORollback f) ;; call f ;; ret tt) loop_fuel 0.

(** The body of [for (const { request } of this._requests)] in [_abort]. *)
Definition abort_request (entry : QueueEntry) : M unit :=
  let request := entry.2 in
  w <- get ;;
  if decide (readyState (request_at w request) <> done) then
    update_request request (fun r => mkRequest done (result r) (req_error r) (source r)) ;;
    match source (request_at w request) with
    | Some _ =>
        update_request request
          (fun r => mkRequest (readyState r) undefined (Some AbortError) (source r)) ;;
        dispatchEvent (TRequest request) error_event ;;
        ret tt
    | None => ret tt
    end
  else ret tt.

Definition abort_requests : M unit :=
  for_of _requests abort_request loop_fuel 0.

(** [_abort(errName)] *)
Definition _abort (errName : option string) : M unit :=
  run_rollbackLog ;;
  match errName with
  | Some n => modify (set_error (Some (mkError n)))
  | None => ret tt
  end ;;
  abort_requests ;;
  queueTask TaskAbortEvent ;;
  modify (set_state finished).

(** [abort()] *)
Definition abort : M unit :=
  w <- get ;;
  if decide (_state w = committing \/ _state w = finished) then throw InvalidStateError
  else
    modify (set_state active) ;;
    _abort None.

(** The [while (this._requests.length > 0)] loop of [_start]: shift entries
    until one is found whose request is not done.  Returns the skipped
    entries, the entry found (if any) and what is left of the queue. *)
Fixpoint shift_requests (h : World) (q : list QueueEntry)
    : list QueueEntry * option QueueEntry * list QueueEntry :=
  match q with
  | [] => ([], None, [])
  | r :: q' =>
      if decide (readyState (request_at h r.2) <> done) then ([], Some r, q')
      else let '(skipped, found, rest) := shift_requests h q' in
           (r :: skipped, found, rest)
  end.

(** The queue after the loop (and, ghost, what the loop did: the entries it
    dropped, then the entry whose operation is about to be called). *)
Definition shifted (skipped : list QueueEntry) (found : option QueueEntry)
    (rest : list QueueEntry) (w : World) : World :=
  set_trace (trace w ++ map OSkip skipped ++ match found with
                                             | Some e => [OExec e]
                                             | None => []
                                             end)
    (set_requests rest w).

(** [if (this._state === "inactive") { this._state = "active"; }] *)
Definition reactivate (w : World) : World :=
  if decide (_state w = inactive) then set_state active w else w.

Definition restore_active : M unit := modify reactivate.

(** The body of [if (request && operation) { ... }] in [_start]: run the
    request that the loop found. *)
Definition run_request (entry : QueueEntry) : M unit :=
  let '(operation, request) := entry in
  w <- get ;;
  match source (request_at w request) with
  | None =>
      (* no source: just run the code *)
      call operation ;;
      ret tt
  | Some _ =>
      built <-
        try_catch
          (result <- call operation ;;
           update_request request
             (fun r => mkRequest done result None (source r)) ;;
           restore_active ;;
           ret (success_event, None))
          (fun err =>
           update_request request
             (fun r => mkRequest done undefined (Some err) (source r)) ;;
           restore_active ;;
           ret (error_event, Some (name err))) ;;
      let '(event, defaultAction) := built in
      canceled <-
        try_catch
          (dispatchEvent (TRequest request) event)
          (fun err =>
           w <- get ;;
           (if decide (_state w <> committing) then _abort (Some "AbortError")
            else ret tt) ;;
           throw err) ;;
      if negb canceled then
        match defaultAction with
        | Some errName => _abort (Some errName)
        | None => ret tt
        end
      else ret tt
  end ;;
  queueTask TaskStart.

(** The end of [_start], reached when the loop found nothing to run:
    [if (this._state !== "finished") { ... }]. *)
Definition finalize : M unit :=
  w <- get ;;
  if decide (_state w <> finished) then
    modify (set_state finished) ;;
    match error w with
    | None => dispatchEvent TTransaction complete_event ;; ret tt
    | Some _ => ret tt
    end
  else ret tt.

(** [_start()] *)
Definition _start : M unit :=
  modify (set_started true) ;;
  w <- get ;;
  let '(skipped, found, rest) := shift_requests w (_requests w) in
  modify (shifted skipped found rest) ;;
  match found with
  | Some entry => run_request entry
  | None => finalize
  end.

(** Running a queued task. *)
Definition run_task (t : Task) : M unit :=
  match t with
  | TaskStart => _start
  | TaskAbortEvent => dispatchEvent TTransaction abort_event ;; ret tt
  end.

(** Modelled from the spec: the Task Scheduler of lib/scheduling.js.  "The
    runtime drains this queue one entry per scheduling tick ... in strict
    insertion order".  One tick; [false] when there is nothing to run. *)
Definition tick : M bool :=
  w <- get ;;
  match tasks w with
  | [] => ret false
  | t :: rest =>
      modify (set_tasks rest) ;;
      run_task t ;;
      ret true
  end.

(** At most [n] ticks, stopping when the queue is empty. *)
Fixpoint run_ticks (n : nat) : M unit :=
  match n with
  | 0 => ret tt
  | S n' => more <- tick ;; if more then run_ticks n' else ret tt
  end.

(** Step 2 of the abort procedure: [if (errName !== null) this.error = e]. *)
Definition record_error (errName : option string) (w : World) : World :=
  match errName with
  | Some n => set_error (Some (mkError n)) w
  | None => w
  end.

(** Steps 4 and 5: queue the "abort" event, then [_state = "finished"]. *)
Definition finish_abort (w : World) : World :=
  set_state finished (set_tasks (tasks w ++ [TaskAbortEvent]) w).

End Engine.

(** ** The environment: closures as scripts

    The closures the transaction calls (operations, rollback entries,
    listeners) belong to its collaborators and to user code.  To run the
    engine on concrete scenarios, and to reason about whole runs, a closure
    is given a body: a straight-line script of calls on the transaction. *)

Inductive Action :=
| Enqueue (obj : RequestObj) (handlers : list (string * Closure))
    (* const r = transaction._execRequestAsync(obj); r.on<type> = cb ... *)
| CallAbort                                  (* transaction.abort() *)
| CallAbortWith (errName : option string)    (* transaction._abort(errName) *)
| CallCommit                                 (* transaction.commit() *)
| CallObjectStore (name_ : string)           (* transaction.objectStore(name) *)
| PushRollback (f : Closure)                 (* transaction._rollbackLog.push(f) *)
| AddListener (t : Target) (type_ : string) (cb : Closure)
| PreventDefault                             (* event.preventDefault() *)
| PutRecord (store : string) (v : nat)       (* add a record to a raw object store *)
| DeleteRecord (store : string) (v : nat)    (* remove it again *)
| Attempt (f : Closure)                      (* try { f() } catch (_) { } *)
| Throw (e : JsError)
| Return (v : Value).

Definition Script := list Action.

Section Scripts.

(** [call f] runs the body of closure [f] (with less fuel). *)
Variable call : Closure -> M Value.
Variable fuel : nat.

(** The callbacks registered on [t] for events of type [ty]. *)
Definition listeners_for (w : World) (ty : string) (t : Target) : list Closure :=
  map snd (filter (fun l => bool_decide (l.1 = (t, ty))) (listeners w)).

Fixpoint call_each (cbs : list Closure) : M unit :=
  match cbs with
  | [] => ret tt
  | cb :: cbs' => call cb ;; call_each cbs'
  end.

(** Modelled from the spec: dispatch of lib/FakeEventTarget.js, which is not
    among the sources.  "dispatch(target, event) invokes listeners registered
    on target, then (if bubbles) on each entry of path in order; if any
    listener marks the event canceled and it is cancelable, the caller's
    default action must be skipped.  Listener exceptions propagate to the
    caller of dispatch, aborting the remaining dispatch chain." *)
Definition dispatch_to_listeners (t : Target) (e : FakeEvent) : M bool :=
  w <- get ;;
  let outer := canceled w in
  let targets := t :: (if bubbles e then eventPath e else []) in
  modify (set_canceled false) ;;
  try_catch
    (call_each (flat_map (listeners_for w (ev_type e)) targets))
    (fun err => modify (set_canceled outer) ;; throw err) ;;
  c <- gets canceled ;;
  modify (set_canceled outer) ;;
  ret (cancelable e && c).

Definition add_listeners (t : Target) (handlers : list (string * Closure)) : M unit :=
  modify (fun w => set_listeners
                     (listeners w ++ map (fun h => (t, h.1, h.2)) handlers) w).

(** One statement of a closure body; [Some v] when it returns [v]. *)
Definition run_action (a : Action) : M (option Value) :=
  match a with
  | Enqueue obj handlers =>
      r <- _execRequestAsync obj ;;
      add_listeners (TRequest r) handlers ;;
      ret None
  | CallAbort => abort call dispatch_to_listeners fuel ;; ret None
  | CallAbortWith errName => _abort call dispatch_to_listeners fuel errName ;; ret None
  | CallCommit => commit ;; ret None
  | CallObjectStore n => objectStore n ;; ret None
  | PushRollback f =>
      modify (fun w => set_rollbackLog (_rollbackLog w ++ [f]) w) ;; ret None
  | AddListener t ty cb => add_listeners t [(ty, cb)] ;; ret None
  | PreventDefault => modify (set_canceled true) ;; ret None
  | PutRecord store v =>
      modify (fun w => set_rawObjectStores
                         (<[store := (default [] (rawObjectStores w !! store) ++ [v])%list]>
                            (rawObjectStores w)) w) ;;
      ret None
  | DeleteRecord store v =>
      modify (fun w => set_rawObjectStores
                         (<[store := filter (fun x => x <> v)
                                       (default [] (rawObjectStores w !! store))]>
                            (rawObjectStores w)) w) ;;
      ret None
  | Attempt f => try_catch (call f ;; ret None) (fun _ => ret None)
  | Throw e => throw e
  | Return v => ret (Some v)
  end.

Fixpoint run_script (s : Script) : M Value :=
  match s with
  | [] => ret undefined
  | a :: s' =>
      r <- run_action a ;;
      match r with
      | Some v => ret v
      | None => run_script s'
      end
  end.

End Scripts.

(** Calling closure [f] of the program [prog]; [n] bounds the nesting of calls. *)
Fixpoint run_closure (prog : Closure -> Script) (n : nat) (f : Closure) : M Value :=
  match n with
  | 0 => fun _ => OutOfFuel
  | S n' => run_script (run_closure prog n') n' (prog f)
  end.

(** The engine closed over a program. *)
Section Closed.

Variable prog : Closure -> Script.
Variable n : nat.

Definition listeners_of : Target -> FakeEvent -> M bool :=
  dispatch_to_listeners (run_closure prog n).
Definition start_of : M unit := _start (run_closure prog n) listeners_of n.
Definition abort_of : M unit := abort (run_closure prog n) listeners_of n.
Definition abort_with_of (errName : option string) : M unit :=
  _abort (run_closure prog n) listeners_of n errName.
Definition tick_of : M bool := tick (run_closure prog n) listeners_of n.
(** [k] ticks of the scheduler. *)
Definition run_of (k : nat) : M unit := run_ticks (run_closure prog n) listeners_of n k.
(** A top-level piece of user code. *)
Definition script_of (s : Script) : M Value := run_script (run_closure prog n) n s.

End Closed.

(** The store-handle cache only holds names of the scope. *)
Definition cache_within_scope (w : World) : Prop :=
  forall n, is_Some (_objectStoresCache w !! n) -> n ∈ _scope w.

(** ** Reading the trace *)

(** The entries [_start] has shifted off the queue, in order. *)
Definition dequeued (t : list Obs) : list QueueEntry :=
  omap (fun o => match o with OExec e | OSkip e => Some e | _ => None end) t.

(** The entries whose operation [_start] has called, in order. *)
Definition executed (t : list Obs) : list QueueEntry :=
  omap (fun o => match o with OExec e => Some e | _ => None end) t.

(** The entries pushed on the queue, in order. *)
Definition enqueued (t : list Obs) : list QueueEntry :=
  omap (fun o => match o with OEnqueue e => Some e | _ => None end) t.

(** The rollback entries called, in order. *)
Definition rollbacks (t : list Obs) : list Closure :=
  omap (fun o => match o with ORollback f => Some f | _ => None end) t.

(** The dispatch of "complete" on the transaction. *)
Definition complete_fired : Obs := ODispatch TTransaction complete_event.

(** The dispatch of "abort" on the transaction. *)
Definition abort_fired : Obs := ODispatch TTransaction abort_event.

(** ** Relations between the world before and after a computation *)

(** [sat R m w]: if [m], run in [w], ends (returns or throws), it ends in a
    world related to [w]. *)
Definition sat (R : World -> World -> Prop) {A} (m : M A) (w : World) : Prop :=
  match m w with
  | Val _ w' | Exc _ w' => R w w'
  | OutOfFuel => True
  end.

(** What a run of the engine does to the world, whatever the closures are
    (as long as they only act on the transaction through its methods):
    - the trace grows, and the queue is first-in first-out: what was shifted
      off, followed by what is still queued, is what was queued at the start
      followed by what has been pushed since;
    - when "complete" fires the queue has been emptied, and it fires no more;
    - [finished] is final, and "complete" does not fire after it;
    - the scope is fixed, and the handle cache stays within it. *)
Record evolves_by (t : list Obs) (w0 w : World) : Prop := mkEvolves {
  ev_trace : trace w = trace w0 ++ t;
  ev_fifo : dequeued t ++ _requests w = _requests w0 ++ enqueued t;
  ev_complete : forall t1 t2, t = t1 ++ complete_fired :: t2 ->
                  dequeued t1 = _requests w0 ++ enqueued t1 /\ complete_fired ∉ t2;
  ev_finished : _state w0 = finished -> _state w = finished /\ complete_fired ∉ t;
  ev_completed : complete_fired ∈ t -> _state w = finished;
  ev_scope : _scope w = _scope w0;
  ev_cache : cache_within_scope w0 -> cache_within_scope w
}.

Definition evolves (w0 w : World) : Prop := exists t, evolves_by t w0 w.

(** No "abort" event is dispatched on the transaction between [w0] and [w]. *)
Definition quiet (w0 w : World) : Prop :=
  exists t, trace w = trace w0 ++ t /\ abort_fired ∉ t.

(** The steps of the engine and of the scripts, each in the context it is
    taken in, except the two that only the scheduler's tasks take: firing
    "complete" and firing "abort".  A relation that every step respects
    relates the worlds before and after any call of a method or closure. *)
Record Respected (R : World -> World -> Prop) : Prop := mkRespected {
  r_refl : forall w, R w w;
  r_trans : forall w1 w2 w3, R w1 w2 -> R w2 w3 -> R w1 w3;
  r_started : forall w b, R w (set_started b w);
  r_shifted : forall w skipped found rest,
      shift_requests w (_requests w) = (skipped, found, rest) ->
      R w (shifted skipped found rest w);
  r_heap : forall w h, R w (set_heap h w);
  r_next_ref : forall w k, R w (set_next_ref k w);
  r_reactivate : forall w, _state w <> committing -> _state w <> finished ->
      R w (set_state active w);
  r_commit : forall w, _state w = active -> R w (set_state committing w);
  r_finish : forall w, R w (set_state finished w);
  r_rollback : forall w f, R w (set_trace (trace w ++ [ORollback f]) w);
  r_dispatch : forall w r e, R w (set_trace (trace w ++ [ODispatch (TRequest r) e]) w);
  r_tasks : forall w t, R w (set_tasks t w);
  r_error : forall w e, R w (set_error e w);
  r_rollbackLog : forall w l, R w (set_rollbackLog l w);
  r_push : forall w e, _state w = active -> R w (push_request e w);
  r_cache : forall w n o, n ∈ _scope w ->
      R w (set_objectStoresCache (<[n := o]> (_objectStoresCache w)) w);
  r_listeners : forall w l, R w (set_listeners l w);
  r_canceled : forall w b, R w (set_canceled b w);
  r_rawObjectStores : forall w m, R w (set_rawObjectStores m w)
}.

(** ** Worlds named in the statements *)

(** The world after an observation. *)
Definition observed (o : Obs) (w : World) : World := set_trace (trace w ++ [o]) w.

(** The [catch] branch of [_start]: the request is done with the thrown
    failure, and an inactive transaction is made active again. *)
Definition settle_failure (request : Ref) (err : JsError) (w : World) : World :=
  reactivate
    (set_heap (<[request := mkRequest done undefined (Some err)
                              (source (request_at w request))]> (heap w)) w).

(** The [try] branch of [_start] after the operation has returned. *)
Definition settle_success (request : Ref) (v : Value) (w : World) : World :=
  reactivate
    (set_heap (<[request := mkRequest done v None
                              (source (request_at w request))]> (heap w)) w).

(** No "complete" event is dispatched between [w0] and [w]. *)
Definition calm (w0 w : World) : Prop :=
  exists t, trace w = trace w0 ++ t /\ complete_fired ∉ t.

(** ** Scenarios *)

(** The world a computation ends in (the starting world when it runs out of fuel). *)
Definition end_of {A} (m : M A) (w : World) : World :=
  default w (world_of (m w)).

(** A source object (an object store handle) for the requests below. *)
Definition store_A : Ref := 100.

(** A transaction over store "A", with its first [_start] scheduled. *)
Definition tx_A : World :=
  set_tasks [TaskStart] (new_FDBTransaction ["A"] {["A" := []]}).

(** Closures of the scenarios:
    - 1, 3, 4: operations that return a value;
    - 2: an operation that enqueues the request of operation 4, then returns;
    - 5: a put that logs its undo (closure 10) and adds record 7;
    - 6: a put that throws ConstraintError;
    - 10: the rollback entry of 5; 11, 13: rollback entries; 12: a rollback
      entry that throws;
    - 20: a listener that calls preventDefault. *)
Definition scenario (f : Closure) : Script :=
  match f with
  | 1 => [Return (data 1)]
  | 2 => [Enqueue (mkRequestObj (Some store_A) 4 None) []; Return (data 2)]
  | 3 => [Return (data 3)]
  | 4 => [Return (data 4)]
  | 5 => [PushRollback 10; PutRecord "A" 7; Return (data 7)]
  | 6 => [Throw (mkError "ConstraintError")]
  | 10 => [DeleteRecord "A" 7]
  | 11 => [PutRecord "undone" 11]
  | 12 => [Throw (mkError "UndoFailed")]
  | 13 => [PutRecord "undone" 13]
  | 20 => [PreventDefault]
  | _ => []
  end.

(** Fuel for the scenarios. *)
Definition enough : nat := 8.

(** Requests r1, r2, r3 enqueued in that order; r2's operation enqueues r2a. *)
Definition three_requests : World :=
  end_of (script_of scenario enough
            [Enqueue (mkRequestObj (Some store_A) 1 None) [];
             Enqueue (mkRequestObj (Some store_A) 2 None) [];
             Enqueue (mkRequestObj (Some store_A) 3 None) []]) tx_A.
Definition r1 : QueueEntry := (1, 0).
Definition r2 : QueueEntry := (2, 1).
Definition r3 : QueueEntry := (3, 2).
Definition r2a : QueueEntry := (4, 3).

(** The order the claim gives: [r2a] right after [r2], and [r3] after that. *)
Definition right_after_then (a b c : QueueEntry) (order : list QueueEntry) : Prop :=
  exists pre post, order = pre ++ a :: b :: post /\ c ∈ post.

(** A rollback log [11; 12; 13] whose middle entry throws. *)
Definition three_rollbacks : World := set_rollbackLog [11; 12; 13] tx_A.

(** A rollback log [11; 13] of entries that return. *)
Definition two_rollbacks : World := set_rollbackLog [11; 13] tx_A.

(** One request is queued and the user calls abort(). *)
Definition aborted_by_user : World :=
  end_of (script_of scenario enough
            [Enqueue (mkRequestObj (Some store_A) 1 None) []; CallAbort])
    tx_A.

(** A put that succeeds and a put that fails are queued (the second with the
    given listeners), and the transaction is committed; then the first put runs. *)
Definition failing_put (handlers : list (string * Closure)) : World :=
  end_of (tick_of scenario enough)
    (end_of (script_of scenario enough
               [Enqueue (mkRequestObj (Some store_A) 5 None) [];
                Enqueue (mkRequestObj (Some store_A) 6 None) handlers;
                CallCommit])
       tx_A).

(** commit() is called while one request is queued. *)
Definition committed_with_one_queued : World :=
  end_of (script_of scenario enough
            [Enqueue (mkRequestObj (Some store_A) 1 None) []; CallCommit])
    tx_A.

(** A rollback entry that only undoes store changes: calling it leaves the
    rollback log and the trace as they are. *)
Definition leaves_log_alone (call : Closure -> M Value) (f : Closure) : Prop :=
  forall w, match call f w with
            | Val _ w' | Exc _ w' => _rollbackLog w' = _rollbackLog w /\ trace w' = trace w
            | OutOfFuel => True
            end.

(** The failing put of [failing_put] is at the head of the queue; the worlds
    the driver goes through when it runs: after the loop, after the operation
    has thrown, when the listeners are invoked, and when they have returned. *)
Definition failing_put_shifted (handlers : list (string * Closure)) : World :=
  shifted [] (Some (6, 1)) [] (set_started true (failing_put handlers)).
Definition failing_put_thrown (handlers : list (string * Closure)) : World :=
  end_of (run_closure scenario enough 6) (failing_put_shifted handlers).
Definition failing_put_dispatched (handlers : list (string * Closure)) : World :=
  observed (ODispatch (TRequest 1) error_event)
    (settle_failure 1 (mkError "ConstraintError") (failing_put_thrown handlers)).
Definition failing_put_heard (handlers : list (string * Closure)) : World :=
  end_of (listeners_of scenario enough (TRequest 1) error_event)
    (failing_put_dispatched handlers).

(** From [¬ (a ≠ b)], as the guards of the methods give it, to [a = b]. *)
Ltac stable_eq :=
  match goal with
  | H : ~ (?a <> ?b) |- ?a = ?b =>
      destruct (decide (a = b)); [assumption | contradiction]
  end.

(** ** Fuel

    [refines m1 m2]: whenever [m1] ends (returns or throws), [m2] ends the
    same way. *)
Definition refines {A} (m1 m2 : M A) : Prop :=
  forall w, m1 w = OutOfFuel \/ m2 w = m1 w.

(** ** Closures that keep to themselves *)

(** Listeners that only watch: they return, having changed nothing but (by
    preventDefault) the canceled flag of the event. *)
Definition listeners_only_watch (invoke_listeners : Target -> FakeEvent -> M bool) : Prop :=
  forall t e w, exists c b, invoke_listeners t e w = Val c (set_canceled b w).

(** A rollback entry that only undoes store changes: it returns, having
    changed nothing but the raw object stores. *)
Definition only_undoes (call : Closure -> M Value) (f : Closure) : Prop :=
  forall w, exists v m, call f w = Val v (set_rawObjectStores m w).

(** The fields of the transaction that neither of these touches. *)
Definition same_transaction (w w' : World) : Prop :=
  _state w' = _state w /\ error w' = error w /\ tasks w' = tasks w /\
  _rollbackLog w' = _rollbackLog w /\ _requests w' = _requests w /\
  rawObjectStores w' = rawObjectStores w.

(** What the abort procedure makes of a request of the queue: a request that
    is done stays as it is; a pending one becomes done, with an AbortError and
    no result when it has a source. *)
Definition aborted (rq : FDBRequest) : FDBRequest :=
  if decide (readyState rq = done) then rq
  else match source rq with
       | Some s => mkRequest done undefined (Some AbortError) (Some s)
       | None => mkRequest done (result rq) (req_error rq) None
       end.

(** The pending requests with a source: those the abort procedure fails. *)
Definition to_fail (w : World) (r : Ref) : Prop :=
  readyState (request_at w r) <> done /\ source (request_at w r) <> None.
#[global] Instance to_fail_dec w r : Decision (to_fail w r).
Proof. unfold to_fail. apply _. Defined.

(** ** The steps, with all of their context

    [Careful R]: as [Respected R], with every step stated in the context the
    methods take it in (a request is only ever set to done or allocated
    pending at a fresh reference; the error is only ever set, to an error
    with a name; a handle is only cached for a name that has none; "complete"
    only fires when the error is null), and with the two steps of the
    scheduler's tasks. *)
Record Careful (R : World -> World -> Prop) : Prop := mkCareful {
  k_refl : forall w, R w w;
  k_trans : forall w1 w2 w3, R w1 w2 -> R w2 w3 -> R w1 w3;
  k_started : forall w b, R w (set_started b w);
  k_shifted : forall w skipped found rest,
      shift_requests w (_requests w) = (skipped, found, rest) ->
      R w (shifted skipped found rest w);
  k_settle : forall w r rq, readyState rq = done ->
      R w (set_heap (<[r := rq]> (heap w)) w);
  k_alloc : forall w rq, _state w = active -> readyState rq = pending ->
      R w (set_next_ref (S (next_ref w)) (set_heap (<[next_ref w := rq]> (heap w)) w));
  k_handle : forall w, _state w = active -> R w (set_next_ref (S (next_ref w)) w);
  k_reactivate : forall w, _state w <> committing -> _state w <> finished ->
      R w (set_state active w);
  k_commit : forall w, _state w = active -> R w (set_state committing w);
  k_finish : forall w, R w (set_state finished w);
  k_rollback : forall w f, R w (set_trace (trace w ++ [ORollback f]) w);
  k_dispatch : forall w r e, R w (set_trace (trace w ++ [ODispatch (TRequest r) e]) w);
  k_tasks : forall w t, R w (set_tasks t w);
  k_error : forall w n, R w (set_error (Some (mkError n)) w);
  k_rollbackLog : forall w l, R w (set_rollbackLog l w);
  k_push : forall w e, _state w = active -> R w (push_request e w);
  k_cache : forall w n o, _state w = active -> n ∈ _scope w ->
      _objectStoresCache w !! n = None ->
      R w (set_objectStoresCache (<[n := o]> (_objectStoresCache w)) w);
  k_listeners : forall w l, R w (set_listeners l w);
  k_canceled : forall w b, R w (set_canceled b w);
  k_rawObjectStores : forall w m, R w (set_rawObjectStores m w);
  k_complete : forall w, _state w <> finished -> _requests w = [] -> error w = None ->
      R w (set_trace (trace w ++ [complete_fired]) (set_state finished w));
  k_abort_fired : forall w, R w (set_trace (trace w ++ [abort_fired]) w)
}.

(** Every request of the queue is done. *)
Definition all_done (w : World) : Prop :=
  Forall (fun entry : QueueEntry => readyState (request_at w entry.2) = done) (_requests w).

(** Once the transaction has an error, it keeps having one, and no
    "complete" event is dispatched. *)
Definition error_stays (w0 w : World) : Prop :=
  is_Some (error w0) ->
  is_Some (error w) /\ exists t, trace w = trace w0 ++ t /\ complete_fired ∉ t.

(** The handles of the cache are never replaced or removed. *)
Definition cache_grows (w0 w : World) : Prop :=
  forall n h, _objectStoresCache w0 !! n = Some h -> _objectStoresCache w !! n = Some h.

(** Once the transaction is committing or finished it stays so, nothing is
    enqueued or allocated, no handle is cached, and the queue only loses
    entries, from its head. *)
Definition sealed (w0 w : World) : Prop :=
  _state w0 = committing \/ _state w0 = finished ->
  (_state w = committing \/ _state w = finished) /\
  _objectStoresCache w = _objectStoresCache w0 /\
  next_ref w = next_ref w0 /\
  exists t, trace w = trace w0 ++ t /\ enqueued t = [] /\
            dequeued t ++ _requests w = _requests w0.

(** Once the transaction is finished with every queued request done, it
    stays so, and no operation is executed. *)
Definition spent (w0 w : World) : Prop :=
  _state w0 = finished -> all_done w0 ->
  _state w = finished /\ all_done w /\
  exists t, trace w = trace w0 ++ t /\ executed t = [].

(** The requests allocated so far that are done stay done. *)
Definition done_for_good (w0 w : World) : Prop :=
  next_ref w0 <= next_ref w /\
  forall r, r < next_ref w0 -> readyState (request_at w0 r) = done ->
            readyState (request_at w r) = done.

(** ** More scenarios *)

(** Nobody listens: every dispatch returns at once, the event not canceled. *)
Definition nobody_listens : Target -> FakeEvent -> M bool := fun _ _ => ret false.

(** The first request of [three_requests] is run: the worlds after the
    driver's loop, after the operation has returned, when the listeners are
    invoked, and when they have returned. *)
Definition first_shifted : World :=
  shifted [] (Some r1) [r2; r3] (set_started true three_requests).
Definition first_returned : World :=
  end_of (run_closure scenario enough 1) first_shifted.
Definition first_dispatched : World :=
  observed (ODispatch (TRequest 0) success_event) (settle_success 0 (data 1) first_returned).
Definition first_heard : World :=
  end_of (listeners_of scenario enough (TRequest 0) success_event) first_dispatched.

(** One request is queued whose "success" listener (closure 12) throws; the
    transaction is left active, or committed. *)
Definition listener_will_throw (committed : bool) : World :=
  end_of (script_of scenario enough
            (Enqueue (mkRequestObj (Some store_A) 1 None) [("success", 12)]
             :: if committed then [CallCommit] else []))
    tx_A.
Definition listener_dispatched (committed : bool) : World :=
  observed (ODispatch (TRequest 0) success_event)
    (settle_success 0 (data 1)
       (end_of (run_closure scenario enough 1)
          (shifted [] (Some r1) [] (set_started true (listener_will_throw committed))))).
Definition listener_threw (committed : bool) : World :=
  end_of (listeners_of scenario enough (TRequest 0) success_event)
    (listener_dispatched committed).

(** One request without a source is queued, with the given operation. *)
Definition no_source_queued (operation : Closure) : World :=
  end_of (script_of scenario enough [Enqueue (mkRequestObj None operation None) []]) tx_A.

(** One request has been queued and run: it is done, and the queue is empty. *)
Definition one_request_run : World :=
  end_of (tick_of scenario enough)
    (end_of (script_of scenario enough [Enqueue (mkRequestObj (Some store_A) 1 None) []])
       tx_A).

(** _abort("X") has been run on the transaction with three requests queued. *)
Definition aborted_with_X : World :=
  end_of (abort_with_of scenario enough (Some "X")) three_requests.

(** ** What the abort procedure leaves behind *)

(** A rollback entry that undoes a store change: it returns, having applied
    [undo f] to the raw object stores and changed nothing else. *)
Definition undoes (call : Closure -> M Value)
    (undo : Closure -> gmap string RawObjectStore -> gmap string RawObjectStore)
    (f : Closure) : Prop :=
  forall w, exists v,
    call f w = Val v (set_rawObjectStores (undo f (rawObjectStores w)) w).

(** The world [w'] that the abort procedure, run in [w] with [errName], ends
    in when the rollback entries undo and the listeners only watch: the
    entries have been applied to the stores, newest first; the error is the
    one named, when a name is given; every queued request is done, the
    pending ones with a source failed with AbortError and sent one "error"
    event each; the "abort" event is queued, and the state is finished. *)
Record abort_outcome
    (undo : Closure -> gmap string RawObjectStore -> gmap string RawObjectStore)
    (errName : option string) (w w' : World) : Prop := mkAbortOutcome {
  ao_state : _state w' = finished;
  ao_error : error w' = match errName with
                        | Some n => Some (mkError n)
                        | None => error w
                        end;
  ao_tasks : tasks w' = tasks w ++ [TaskAbortEvent];
  ao_log : _rollbackLog w' = reverse (_rollbackLog w);
  ao_stores : rawObjectStores w' =
              foldl (fun m f => undo f m) (rawObjectStores w) (reverse (_rollbackLog w));
  ao_queue : _requests w' = _requests w;
  ao_requests : forall r, request_at w' r =
                          if decide (r ∈ (_requests w).*2) then aborted (request_at w r)
                          else request_at w r;
  ao_events : exists rs,
      trace w' = trace w ++ map ORollback (reverse (_rollbackLog w)) ++
                   map (fun r => ODispatch (TRequest r)
                                   (mkEvent "error" true true [TDatabase; TTransaction])) rs /\
      NoDup rs /\
      (forall r, r ∈ rs <-> r ∈ (_requests w).*2 /\ to_fail w r)
}.

(** ** Scenarios of the abort procedure *)

(** What the rollback entries 10, 11 and 13 of [scenario] do to the stores. *)
Definition scenario_undo (f : Closure) (m : gmap string RawObjectStore)
    : gmap string RawObjectStore :=
  match f with
  | 10 => <["A" := filter (fun x => x <> 7) (default [] (m !! "A"))]> m
  | 11 => <["undone" := (default [] (m !! "undone") ++ [11])%list]> m
  | 13 => <["undone" := (default [] (m !! "undone") ++ [13])%list]> m
  | _ => m
  end.

(** A put that succeeds and a put that fails are queued and the first put has
    run, logging its undo; the transaction is still active. *)
Definition failing_put_active : World :=
  end_of (tick_of scenario enough)
    (end_of (script_of scenario enough
               [Enqueue (mkRequestObj (Some store_A) 5 None) [];
                Enqueue (mkRequestObj (Some store_A) 6 None) []])
       tx_A).

(** The failing put is at the head of the queue, and nobody listens: the
    world in which the driver dispatches the "error" event (the operation,
    which only throws, has left the world as the loop left it). *)
Definition failing_put_unheard (w : World) : World :=
  observed (ODispatch (TRequest 1) error_event)
    (settle_failure 1 (mkError "ConstraintError")
       (shifted [] (Some (6, 1)) [] (set_started true w))).

(** Three requests are queued and two rollback entries are logged. *)
Definition three_requests_two_rollbacks : World :=
  set_rollbackLog [11; 13] three_requests.

(** The rollback log holds an entry that throws (12) and a put that fails is
    queued; the transaction is left active, or committed. *)
Definition bad_undo_queued (committed : bool) : World :=
  end_of (script_of scenario enough
            ([PushRollback 12; Enqueue (mkRequestObj (Some store_A) 6 None) []]
             ++ if committed then [CallCommit] else []))
    tx_A.

(** The same request object is queued twice, with operations 1 and 3, and
    the transaction is committed. *)
Definition same_request_twice : World :=
  end_of (script_of scenario enough
            [Enqueue (mkRequestObj (Some store_A) 1 None) [];
             Enqueue (mkRequestObj (Some store_A) 3 (Some 0)) [];
             CallCommit])
    tx_A.

(** The request of [committed_with_one_queued] is run: the worlds after the
    operation has returned, when the listeners are invoked, and when they
    have returned. *)
Definition committed_returned : World :=
  end_of (run_closure scenario enough 1)
    (shifted [] (Some r1) [] (set_started true committed_with_one_queued)).
Definition committed_dispatched : World :=
  observed (ODispatch (TRequest 0) success_event) (settle_success 0 (data 1) committed_returned).
Definition committed_heard : World :=
  end_of (listeners_of scenario enough (TRequest 0) success_event) committed_dispatched.

(* ====================================================================== *)
(** * Properties of the methods *)

Section EngineFacts.

Variable call : Closure -> M Value.
Variable invoke_listeners : Target -> FakeEvent -> M bool.
Variable loop_fuel : nat.

Local Abbreviation dispatchEvent := (dispatchEvent invoke_listeners).
Local Abbreviation run_rollbackLog := (run_rollbackLog call loop_fuel).
Local Abbreviation abort_requests := (abort_requests invoke_listeners loop_fuel).
Local Abbreviation _abort := (_abort call invoke_listeners loop_fuel).
Local Abbreviation abort := (abort call invoke_listeners loop_fuel).
Local Abbreviation _start := (_start call invoke_listeners loop_fuel).
Local Abbreviation run_request := (run_request call invoke_listeners loop_fuel).
Local Abbreviation finalize := (finalize invoke_listeners).
Local Abbreviation run_task := (run_task call invoke_listeners loop_fuel).
Local Abbreviation tick := (tick call invoke_listeners loop_fuel).

(** ** The abort procedure, phase by phase *)

Lemma _abort_unfold errName w :
  _abort errName w =
  match run_rollbackLog w with
  | Val _ w1 =>
      match abort_requests (record_error errName w1) with
      | Val _ w2 => Val tt (finish_abort w2)
      | Exc e w2 => Exc e w2
      | OutOfFuel => OutOfFuel
      end
  | Exc e w1 => Exc e w1
  | OutOfFuel => OutOfFuel
  end.
Proof.
  unfold _abort, bind.
  destruct (run_rollbackLog w) as [[] w1|e w1|]; try reflexivity.
  destruct errName as [n|]; simpl; unfold modify, ret;
    destruct (abort_requests _) as [[] w2|e w2|]; reflexivity.
Qed.

Lemma _abort_returns_finished errName w w' :
  _abort errName w = Val tt w' -> _state w' = finished.
Proof.
  rewrite _abort_unfold.
  destruct (run_rollbackLog w) as [[] w1|e w1|]; try discriminate.
  destruct (abort_requests _) as [[] w2|e w2|]; try discriminate.
  intros [= <-]. reflexivity.
Qed.

Lemma abort_unfold w :
  abort w =
  if decide (_state w = committing \/ _state w = finished)
  then Exc InvalidStateError w
  else _abort None (set_state active w).
Proof.
  unfold abort, bind, get, throw, modify. destruct (decide _); reflexivity.
Qed.

(** ** The driver, case by case *)

Lemma shift_requests_started b w q :
  shift_requests (set_started b w) q = shift_requests w q.
Proof. induction q as [|r q IH]; simpl; [reflexivity|]. rewrite IH. reflexivity. Qed.

Lemma shift_requests_drained w q skipped rest :
  shift_requests w q = (skipped, None, rest) -> rest = [].
Proof.
  revert skipped rest. induction q as [|r q IH]; simpl; intros skipped rest.
  - intros [= <- <-]. reflexivity.
  - destruct (decide _); [discriminate|].
    destruct (shift_requests w q) as [[sk fo] re] eqn:E.
    intros [= <- -> <-]. eapply IH; reflexivity.
Qed.

(** What [_start] does, by the outcome of its loop. *)
Lemma _start_unfold w :
  _start w =
  let '(skipped, found, rest) := shift_requests w (_requests w) in
  let w1 := shifted skipped found rest (set_started true w) in
  match found with
  | Some entry => run_request entry w1
  | None => finalize w1
  end.
Proof.
  unfold _start, bind, modify, get.
  change (_requests (set_started true w)) with (_requests w).
  rewrite shift_requests_started.
  destruct (shift_requests w (_requests w)) as [[skipped found] rest].
  destruct found; reflexivity.
Qed.


Lemma _start_eq w skipped found rest :
  shift_requests w (_requests w) = (skipped, found, rest) ->
  _start w =
  match found with
  | Some entry => run_request entry (shifted skipped found rest (set_started true w))
  | None => finalize (shifted skipped None [] (set_started true w))
  end.
Proof.
  intros H. rewrite _start_unfold, H. destruct found; [reflexivity|].
  apply shift_requests_drained in H. subst rest. reflexivity.
Qed.

(** The end of the driver, by state and error. *)
Lemma finalize_eq w :
  finalize w =
  if decide (_state w = finished) then Val tt w
  else match error w with
       | None => (dispatchEvent TTransaction complete_event ;; ret tt) (set_state finished w)
       | Some _ => Val tt (set_state finished w)
       end.
Proof.
  unfold finalize, bind, get, modify, ret.
  destruct (decide (_state w <> finished)) as [Hn|Hn], (decide (_state w = finished)) as [He|He];
    try contradiction; try reflexivity.
  destruct (error w); reflexivity.
Qed.

(** The operation of a request with a source throws [e], and the listeners of
    its "error" event return with [event.canceled = c]. *)
Lemma run_request_failure operation request w s e w2 c w4 :
  source (request_at w request) = Some s ->
  call operation w = Exc e w2 ->
  invoke_listeners (TRequest request) error_event
    (observed (ODispatch (TRequest request) error_event)
       (settle_failure request e w2)) = Val c w4 ->
  run_request (operation, request) w =
  ((if c then ret tt else _abort (Some (name e))) ;; queueTask TaskStart) w4.
Proof.
  intros Hs Hop Hl.
  cbv beta iota zeta delta [run_request bind get try_catch].
  rewrite Hs, Hop.
  cbv beta iota zeta delta [update_request restore_active modify get bind ret
                            dispatchEvent observe try_catch].
  match goal with
  | |- context [invoke_listeners ?t ?ev ?W] =>
      replace (invoke_listeners t ev W) with (Val (A:=bool) c w4)
        by (symmetry; exact Hl)
  end.
  destruct c; reflexivity.
Qed.

(** The operation of a request with a source returns [v]. *)
Lemma run_request_success operation request w s v w2 c w4 :
  source (request_at w request) = Some s ->
  call operation w = Val v w2 ->
  invoke_listeners (TRequest request) success_event
    (observed (ODispatch (TRequest request) success_event)
       (settle_success request v w2)) = Val c w4 ->
  run_request (operation, request) w = Val tt (set_tasks (tasks w4 ++ [TaskStart]) w4).
Proof.
  intros Hs Hop Hl.
  cbv beta iota zeta delta [run_request bind get try_catch].
  rewrite Hs, Hop.
  cbv beta iota zeta delta [update_request restore_active modify get bind ret
                            dispatchEvent observe try_catch].
  match goal with
  | |- context [invoke_listeners ?t ?ev ?W] =>
      replace (invoke_listeners t ev W) with (Val (A:=bool) c w4)
        by (symmetry; exact Hl)
  end.
  destruct c; reflexivity.
Qed.

End EngineFacts.

(* ====================================================================== *)
(** * Whole runs: what every method call preserves *)

Section Preservation.

Variable R : World -> World -> Prop.
Hypothesis HR : Respected R.

Lemma sat_ret {A} (a : A) w : sat R (ret a) w.
Proof. apply (r_refl R HR). Qed.

Lemma sat_throw {A} e w : sat R (@throw A e) w.
Proof. apply (r_refl R HR). Qed.

Lemma sat_get w : sat R get w.
Proof. apply (r_refl R HR). Qed.

Lemma sat_gets {A} (f : World -> A) w : sat R (gets f) w.
Proof. apply (r_refl R HR). Qed.

Lemma sat_modify f w : R w (f w) -> sat R (modify f) w.
Proof. intros H. exact H. Qed.

Lemma sat_bind {A B} (m : M A) (k : A -> M B) w :
  sat R m w ->
  (forall a w', m w = Val a w' -> sat R (k a) w') ->
  sat R (bind m k) w.
Proof.
  unfold sat, bind. intros Hm Hk.
  destruct (m w) as [a w'|e w'|]; [|exact Hm|exact I].
  specialize (Hk a w' eq_refl).
  destruct (k a w') as [b w''|e w''|]; [| |exact I];
    eapply (r_trans R HR); eauto.
Qed.

Lemma sat_try_catch {A} (m : M A) (h : JsError -> M A) w :
  sat R m w ->
  (forall e w', m w = Exc e w' -> sat R (h e) w') ->
  sat R (try_catch m h) w.
Proof.
  unfold sat, try_catch. intros Hm Hh.
  destruct (m w) as [a w'|e w'|]; [exact Hm| |exact I].
  specialize (Hh e w' eq_refl).
  destruct (h e w') as [b w''|e' w''|]; [| |exact I];
    eapply (r_trans R HR); eauto.
Qed.

Lemma sat_for_of {A} (arr : World -> list A) (body : A -> M unit) :
  (forall x w, sat R (body x) w) ->
  forall fuel i w, sat R (for_of arr body fuel i) w.
Proof.
  intros Hbody. induction fuel as [|fuel IH]; intros i w; [exact I|].
  unfold sat. simpl. destruct (arr w !! i) as [x|] eqn:E.
  - apply sat_bind; [apply Hbody|]. intros _ w' _. apply IH.
  - apply (r_refl R HR).
Qed.

Lemma sat_update_request r f w : sat R (update_request r f) w.
Proof. apply sat_modify, (r_heap R HR). Qed.

Lemma sat_queueTask t w : sat R (queueTask t) w.
Proof. apply sat_modify, (r_tasks R HR). Qed.

Lemma sat_commit w : sat R commit w.
Proof.
  unfold commit. apply sat_bind; [apply sat_get|]. intros a w' [= <- <-].
  destruct (decide _) as [|Hn]; [apply sat_throw|].
  apply sat_modify, (r_commit R HR). stable_eq.
Qed.

Lemma sat_objectStore n w : sat R (objectStore n) w.
Proof.
  unfold objectStore. apply sat_bind; [apply sat_get|]. intros a w' [= <- <-].
  destruct (decide _); [apply sat_throw|].
  destruct (_ !! n); [apply sat_ret|].
  destruct (_ !! n); [|apply sat_throw].
  destruct (decide _) as [Hin|]; [|apply sat_throw].
  apply sat_bind; [apply sat_modify, (r_next_ref R HR)|]. intros [] w' [= <-].
  apply sat_bind; [|intros; apply sat_ret].
  apply sat_modify, (r_cache R HR). exact Hin.
Qed.

Lemma sat__execRequestAsync obj w : sat R (_execRequestAsync obj) w.
Proof.
  unfold _execRequestAsync. apply sat_bind; [apply sat_get|]. intros a w' [= <- <-].
  destruct (decide _) as [|Ha]; [apply sat_throw|].
  assert (Hact : _state w = active) by stable_eq.
  apply sat_bind.
  - destruct (obj_request obj); [apply sat_ret|].
    apply sat_bind; [|intros; apply sat_ret].
    apply sat_modify. eapply (r_trans R HR); [apply (r_heap R HR)|apply (r_next_ref R HR)].
  - intros r w' Hw'. apply sat_bind; [|intros; apply sat_ret].
    apply sat_modify, (r_push R HR).
    destruct (obj_request obj); [injection Hw' as <- <-; exact Hact|].
    unfold bind, modify, ret in Hw'. injection Hw' as <- <-. exact Hact.
Qed.

(** The methods that call closures, for closures that respect [R]. *)
Section WithClosures.

Variable call : Closure -> M Value.
Variable invoke_listeners : Target -> FakeEvent -> M bool.
Variable loop_fuel : nat.
Hypothesis call_sat : forall f w, sat R (call f) w.
Hypothesis listeners_sat : forall t e w, sat R (invoke_listeners t e) w.

Lemma sat_dispatch_request r e w :
  sat R (dispatchEvent invoke_listeners (TRequest r) e) w.
Proof.
  unfold dispatchEvent, observe. apply sat_bind; [|intros; apply listeners_sat].
  apply sat_modify, (r_dispatch R HR).
Qed.

Lemma sat_run_rollbackLog w : sat R (run_rollbackLog call loop_fuel) w.
Proof.
  unfold run_rollbackLog. apply sat_bind; [apply sat_modify, (r_rollbackLog R HR)|].
  intros _ w' _. apply sat_for_of. intros f w1.
  apply sat_bind; [apply sat_modify, (r_rollback R HR)|].
  intros _ w2 _. apply sat_bind; [apply call_sat|]. intros; apply sat_ret.
Qed.

Lemma sat_abort_request entry w : sat R (abort_request invoke_listeners entry) w.
Proof.
  unfold abort_request. apply sat_bind; [apply sat_get|]. intros a w' [= <- <-].
  destruct (decide _); [|apply sat_ret].
  apply sat_bind; [apply sat_update_request|]. intros _ w1 _.
  destruct (source _); [|apply sat_ret].
  apply sat_bind; [apply sat_update_request|]. intros _ w2 _.
  apply sat_bind; [apply sat_dispatch_request|]. intros; apply sat_ret.
Qed.

Lemma sat_abort_requests w : sat R (abort_requests invoke_listeners loop_fuel) w.
Proof. apply sat_for_of, sat_abort_request. Qed.

Lemma sat__abort errName w : sat R (_abort call invoke_listeners loop_fuel errName) w.
Proof.
  unfold _abort. apply sat_bind; [apply sat_run_rollbackLog|]. intros _ w1 _.
  apply sat_bind.
  { destruct errName; [apply sat_modify, (r_error R HR)|apply sat_ret]. }
  intros _ w2 _. apply sat_bind; [apply sat_abort_requests|]. intros _ w3 _.
  apply sat_bind; [apply sat_queueTask|]. intros _ w4 _.
  apply sat_modify, (r_finish R HR).
Qed.

Lemma sat_abort w : sat R (abort call invoke_listeners loop_fuel) w.
Proof.
  unfold abort. apply sat_bind; [apply sat_get|]. intros a w' [= <- <-].
  destruct (decide _) as [|Hn]; [apply sat_throw|].
  apply sat_bind; [|intros; apply sat__abort].
  apply sat_modify, (r_reactivate R HR); tauto.
Qed.

Lemma sat_restore_active w : sat R restore_active w.
Proof.
  apply sat_modify. unfold reactivate.
  destruct (decide _) as [Hi|]; [|apply (r_refl R HR)].
  apply (r_reactivate R HR); congruence.
Qed.

Lemma sat_run_request entry w :
  sat R (run_request call invoke_listeners loop_fuel entry) w.
Proof.
  destruct entry as [operation request]. unfold run_request.
  apply sat_bind; [apply sat_get|]. intros a w' [= <- <-].
  apply sat_bind; [|intros; apply sat_queueTask].
  destruct (source _).
  - apply sat_bind.
    { apply sat_try_catch.
      - apply sat_bind; [apply call_sat|]. intros v w2 _.
        apply sat_bind; [apply sat_update_request|]. intros _ w3 _.
        apply sat_bind; [apply sat_restore_active|]. intros; apply sat_ret.
      - intros e w2 _.
        apply sat_bind; [apply sat_update_request|]. intros _ w3 _.
        apply sat_bind; [apply sat_restore_active|]. intros; apply sat_ret. }
    intros [event defaultAction] w2 _.
    apply sat_bind.
    { apply sat_try_catch; [apply sat_dispatch_request|].
      intros e w3 _. apply sat_bind; [apply sat_get|]. intros a w' [= <- <-].
      apply sat_bind; [|intros; apply sat_throw].
      destruct (decide _); [apply sat__abort|apply sat_ret]. }
    intros canceled w3 _.
    destruct (negb canceled); [|apply sat_ret].
    destruct defaultAction; [apply sat__abort|apply sat_ret].
  - apply sat_bind; [apply call_sat|]. intros; apply sat_ret.
Qed.

Lemma R_shifted w skipped found rest :
  shift_requests w (_requests w) = (skipped, found, rest) ->
  R w (shifted skipped found rest (set_started true w)).
Proof.
  intros H. eapply (r_trans R HR); [apply (r_started R HR)|].
  apply (r_shifted R HR). change (_requests (set_started true w)) with (_requests w).
  rewrite shift_requests_started. exact H.
Qed.

(** A call of [_start] that finds a request to run. *)
Lemma sat__start_found w skipped entry rest :
  shift_requests w (_requests w) = (skipped, Some entry, rest) ->
  sat R (_start call invoke_listeners loop_fuel) w.
Proof.
  intros H. unfold sat. rewrite _start_unfold, H.
  pose proof (sat_run_request entry (shifted skipped (Some entry) rest (set_started true w))) as Hr.
  unfold sat in Hr. cbv zeta.
  destruct (run_request _ _ _ _ _) as [a w'|e w'|]; [| |exact I];
    (eapply (r_trans R HR); [apply R_shifted, H|exact Hr]).
Qed.

Section WithComplete.

Hypothesis r_complete : forall w, _state w <> finished -> _requests w = [] ->
  R w (set_trace (trace w ++ [complete_fired]) (set_state finished w)).

Lemma sat_finalize w : _requests w = [] -> sat R (finalize invoke_listeners) w.
Proof.
  intros Hq. unfold finalize. apply sat_bind; [apply sat_get|]. intros a w' [= <- <-].
  destruct (decide _) as [Hnf|]; [|apply sat_ret].
  destruct (error _) eqn:Herr.
  - apply sat_bind; [|intros; apply sat_ret]. apply sat_modify, (r_finish R HR).
  - (* the queue has drained: finish and fire "complete" *)
    pose proof (r_complete w Hnf Hq) as Hc.
    pose proof (listeners_sat TTransaction complete_event
                  (set_trace (trace w ++ [complete_fired]) (set_state finished w))) as Hl.
    unfold sat in *.
    cbv beta iota zeta delta [bind modify dispatchEvent observe ret].
    change (set_trace (trace (set_state finished w) ++ [ODispatch TTransaction complete_event])
              (set_state finished w))
      with (set_trace (trace w ++ [complete_fired]) (set_state finished w)).
    destruct (invoke_listeners _ _ _) as [c w2|e w2|]; [| |exact I];
      eapply (r_trans R HR); eauto.
Qed.

Lemma sat__start w : sat R (_start call invoke_listeners loop_fuel) w.
Proof.
  destruct (shift_requests w (_requests w)) as [[skipped [entry|]] rest] eqn:H.
  - eapply sat__start_found, H.
  - unfold sat. rewrite _start_unfold, H. cbv zeta.
    assert (Hrest : rest = []) by (eapply shift_requests_drained; eauto). subst rest.
    pose proof (sat_finalize (shifted skipped None [] (set_started true w)) eq_refl) as Hf.
    unfold sat in Hf.
    destruct (finalize _ _) as [a w'|e w'|]; [| |exact I];
      (eapply (r_trans R HR); [apply R_shifted, H|exact Hf]).
Qed.

End WithComplete.

End WithClosures.

(** The scripts: listeners and closure bodies. *)
Section WithScripts.

Variable call : Closure -> M Value.
Variable fuel : nat.
Hypothesis call_sat : forall f w, sat R (call f) w.

Lemma sat_call_each cbs w : sat R (call_each call cbs) w.
Proof.
  revert w. induction cbs as [|cb cbs IH]; intros w; simpl; [apply sat_ret|].
  apply sat_bind; [apply call_sat|]. intros; apply IH.
Qed.

Lemma sat_dispatch_to_listeners t e w : sat R (dispatch_to_listeners call t e) w.
Proof.
  unfold dispatch_to_listeners. apply sat_bind; [apply sat_get|]. intros a w' [= <- <-].
  apply sat_bind; [apply sat_modify, (r_canceled R HR)|]. intros _ w1 _.
  apply sat_bind.
  { apply sat_try_catch; [apply sat_call_each|]. intros err w2 _.
    apply sat_bind; [apply sat_modify, (r_canceled R HR)|]. intros; apply sat_throw. }
  intros _ w2 _. apply sat_bind; [apply sat_gets|]. intros c w3 _.
  apply sat_bind; [apply sat_modify, (r_canceled R HR)|]. intros; apply sat_ret.
Qed.

Lemma sat_add_listeners t handlers w : sat R (add_listeners t handlers) w.
Proof. apply sat_modify, (r_listeners R HR). Qed.

Lemma sat_run_action a w : sat R (run_action call fuel a) w.
Proof.
  destruct a; simpl.
  - apply sat_bind; [apply sat__execRequestAsync|]. intros r w1 _.
    apply sat_bind; [apply sat_add_listeners|]. intros; apply sat_ret.
  - apply sat_bind; [|intros; apply sat_ret].
    apply sat_abort; [exact call_sat|exact sat_dispatch_to_listeners].
  - apply sat_bind; [|intros; apply sat_ret].
    apply sat__abort; [exact call_sat|exact sat_dispatch_to_listeners].
  - apply sat_bind; [apply sat_commit|]. intros; apply sat_ret.
  - apply sat_bind; [apply sat_objectStore|]. intros; apply sat_ret.
  - apply sat_bind; [apply sat_modify, (r_rollbackLog R HR)|]. intros; apply sat_ret.
  - apply sat_bind; [apply sat_add_listeners|]. intros; apply sat_ret.
  - apply sat_bind; [apply sat_modify, (r_canceled R HR)|]. intros; apply sat_ret.
  - apply sat_bind; [apply sat_modify, (r_rawObjectStores R HR)|]. intros; apply sat_ret.
  - apply sat_bind; [apply sat_modify, (r_rawObjectStores R HR)|]. intros; apply sat_ret.
  - apply sat_try_catch; [|intros; apply sat_ret].
    apply sat_bind; [apply call_sat|]. intros; apply sat_ret.
  - apply sat_throw.
  - apply sat_ret.
Qed.

Lemma sat_run_script s w : sat R (run_script call fuel s) w.
Proof.
  revert w. induction s as [|a s IH]; intros w; simpl; [apply sat_ret|].
  apply sat_bind; [apply sat_run_action|]. intros [v|] w' _; [apply sat_ret|apply IH].
Qed.

End WithScripts.

(** Calling a closure of any program respects [R]. *)
Lemma sat_run_closure prog n f w : sat R (run_closure prog n f) w.
Proof.
  revert f w. induction n as [|n IH]; intros f w; [exact I|].
  simpl. apply sat_run_script. exact IH.
Qed.

Lemma sat_listeners_of prog n t e w : sat R (listeners_of prog n t e) w.
Proof. apply sat_dispatch_to_listeners, sat_run_closure. Qed.

Lemma sat_start_of_found prog n w skipped entry rest :
  shift_requests w (_requests w) = (skipped, Some entry, rest) ->
  sat R (start_of prog n) w.
Proof.
  apply sat__start_found; [apply sat_run_closure|apply sat_listeners_of].
Qed.

Lemma sat_abort_of prog n w : sat R (abort_of prog n) w.
Proof. apply sat_abort; [apply sat_run_closure|apply sat_listeners_of]. Qed.

Lemma sat_abort_with_of prog n errName w : sat R (abort_with_of prog n errName) w.
Proof. apply sat__abort; [apply sat_run_closure|apply sat_listeners_of]. Qed.

Lemma sat_script_of prog n s w : sat R (script_of prog n s) w.
Proof. apply sat_run_script, sat_run_closure. Qed.

(** The scheduler, for a relation that also admits the two events of the
    tasks. *)
Section WithTasks.

Hypothesis r_complete : forall w, _state w <> finished -> _requests w = [] ->
  R w (set_trace (trace w ++ [complete_fired]) (set_state finished w)).
Hypothesis r_abort_fired : forall w, R w (set_trace (trace w ++ [abort_fired]) w).

Lemma sat_start_of prog n w : sat R (start_of prog n) w.
Proof.
  apply sat__start; [apply sat_run_closure|apply sat_listeners_of|exact r_complete].
Qed.

Lemma sat_tick_of prog n w : sat R (tick_of prog n) w.
Proof.
  unfold tick_of, tick. apply sat_bind; [apply sat_get|]. intros a w' [= <- <-].
  destruct (tasks w) as [|t rest]; [apply sat_ret|].
  apply sat_bind; [apply sat_modify, (r_tasks R HR)|]. intros _ w1 _.
  apply sat_bind; [|intros; apply sat_ret].
  destruct t; simpl.
  - apply sat_start_of.
  - apply sat_bind; [|intros; apply sat_ret].
    unfold dispatchEvent, observe. apply sat_bind; [|intros; apply sat_listeners_of].
    apply sat_modify, r_abort_fired.
Qed.

Lemma sat_run_of prog n k w : sat R (run_of prog n k) w.
Proof.
  revert w. induction k as [|k IH]; intros w; [apply sat_ret|].
  unfold run_of. simpl. apply sat_bind; [apply sat_tick_of|].
  intros [] w' _; [apply IH|apply sat_ret].
Qed.

End WithTasks.

End Preservation.

(** ** [evolves] and [quiet] are respected *)

Lemma dequeued_app t1 t2 : dequeued (t1 ++ t2) = dequeued t1 ++ dequeued t2.
Proof. apply omap_app. Qed.

Lemma enqueued_app t1 t2 : enqueued (t1 ++ t2) = enqueued t1 ++ enqueued t2.
Proof. apply omap_app. Qed.

Lemma dequeued_skips l : dequeued (map OSkip l) = l.
Proof. induction l as [|e l IH]; simpl; [reflexivity|]. unfold dequeued in *. simpl. rewrite IH. reflexivity. Qed.

Lemma enqueued_skips l : enqueued (map OSkip l) = [].
Proof. induction l as [|e l IH]; simpl; [reflexivity|]. exact IH. Qed.

Lemma complete_not_skip l : complete_fired ∉ map OSkip l.
Proof. intros H. apply list_elem_of_fmap in H as (e & He & _). discriminate. Qed.

(** A step that fires no "complete". *)
Lemma evolves_plain t w0 w :
  trace w = trace w0 ++ t ->
  complete_fired ∉ t ->
  dequeued t ++ _requests w = _requests w0 ++ enqueued t ->
  (_state w0 = finished -> _state w = finished) ->
  _scope w = _scope w0 ->
  (cache_within_scope w0 -> cache_within_scope w) ->
  evolves w0 w.
Proof.
  intros Ht Hc Hq Hs Hsc Hca. exists t. constructor; auto.
  - intros t1 t2 ->. exfalso. apply Hc. apply elem_of_app. right. left.
  - intros. contradiction.
Qed.

(** A step that touches neither the trace nor the queue. *)
Lemma evolves_silent w0 w :
  trace w = trace w0 ->
  _requests w = _requests w0 ->
  (_state w0 = finished -> _state w = finished) ->
  _scope w = _scope w0 ->
  (cache_within_scope w0 -> cache_within_scope w) ->
  evolves w0 w.
Proof.
  intros Ht Hq Hs Hsc Hca. apply (evolves_plain []); auto.
  - rewrite app_nil_r. exact Ht.
  - apply not_elem_of_nil.
  - simpl. rewrite app_nil_r. exact Hq.
Qed.

Lemma evolves_refl w : evolves w w.
Proof. apply evolves_silent; auto. Qed.

Lemma evolves_trans w1 w2 w3 : evolves w1 w2 -> evolves w2 w3 -> evolves w1 w3.
Proof.
  intros [ta Ha] [tb Hb]. exists (ta ++ tb).
  destruct Ha as [Ha1 Ha2 Ha3 Ha4 Ha5 Ha6 Ha7], Hb as [Hb1 Hb2 Hb3 Hb4 Hb5 Hb6 Hb7].
  assert (Hfifo : forall u qu, dequeued u ++ qu = _requests w2 ++ enqueued u ->
            dequeued (ta ++ u) ++ qu = _requests w1 ++ enqueued (ta ++ u)).
  { intros u qu Hu. rewrite dequeued_app, enqueued_app, <- app_assoc, Hu.
    rewrite !app_assoc. f_equal. exact Ha2. }
  constructor.
  - rewrite Hb1, Ha1, app_assoc. reflexivity.
  - apply Hfifo, Hb2.
  - intros t1 t2 E. apply app_eq_inv in E as [(k & E1 & E2)|(k & E1 & E2)].
    + destruct k as [|o k]; simpl in E2.
      * (* "complete" is the first event of the second part *)
        rewrite app_nil_r in E1. subst ta.
        destruct (Hb3 [] t2 (eq_sym E2)) as [Hd Hn]. split; [|exact Hn].
        cbn in Hd. destruct (_requests w2) eqn:Hq2; [|discriminate].
        rewrite app_nil_r in Ha2. exact Ha2.
      * (* "complete" fired in the first part *)
        injection E2 as <- ->.
        destruct (Ha3 _ _ E1) as [Hd Hn]. split; [exact Hd|].
        intros Hin. apply elem_of_app in Hin as [Hin|Hin]; [contradiction|].
        assert (Hf : _state w2 = finished).
        { apply Ha5. rewrite E1. apply elem_of_app. right. left. }
        destruct (Hb4 Hf) as [_ Hnb]. contradiction.
    + (* "complete" fired in the second part *)
      destruct (Hb3 _ _ E2) as [Hd Hn]. split; [|exact Hn].
      subst t1. rewrite dequeued_app, enqueued_app, Hd.
      rewrite !app_assoc. f_equal. exact Ha2.
  - intros Hf. destruct (Ha4 Hf) as [Hf2 Hna]. destruct (Hb4 Hf2) as [Hf3 Hnb].
    split; [exact Hf3|]. intros Hin. apply elem_of_app in Hin as [|]; contradiction.
  - intros Hin. apply elem_of_app in Hin as [Hin|Hin].
    + destruct (Hb4 (Ha5 Hin)) as [Hf _]. exact Hf.
    + apply Hb5, Hin.
  - rewrite Hb6. exact Ha6.
  - auto.
Qed.

(** The loop of [_start] splits the queue: the entries dropped, the entry
    found, the entries left. *)
Lemma shift_requests_split w q skipped found rest :
  shift_requests w q = (skipped, found, rest) ->
  q = skipped ++ match found with Some e => [e] | None => [] end ++ rest.
Proof.
  revert skipped found rest. induction q as [|r q IH]; simpl; intros skipped found rest.
  - intros [= <- <- <-]. reflexivity.
  - destruct (decide _).
    + intros [= <- <- <-]. reflexivity.
    + destruct (shift_requests w q) as [[sk fo] re] eqn:E.
      intros [= <- <- <-]. simpl. f_equal. apply IH. reflexivity.
Qed.

(** Every entry the loop drops is done, and the entry it finds is not. *)
Lemma shift_requests_skipped w q skipped found rest :
  shift_requests w q = (skipped, found, rest) ->
  Forall (fun e => readyState (request_at w e.2) = done) skipped /\
  (forall e, found = Some e -> readyState (request_at w e.2) <> done).
Proof.
  revert skipped found rest. induction q as [|r q IH]; simpl; intros skipped found rest.
  - intros [= <- <- <-]. split; [constructor|discriminate].
  - destruct (decide _) as [Hp|Hd].
    + intros [= <- <- <-]. split; [constructor|]. intros e [= <-]. exact Hp.
    + destruct (shift_requests w q) as [[sk fo] re] eqn:E.
      intros [= <- <- <-]. destruct (IH _ _ _ eq_refl) as [H1 H2].
      split; [|exact H2]. constructor; [|exact H1].
      destruct (decide (readyState (request_at w r.2) = done)); [assumption|contradiction].
Qed.

Lemma evolves_respected : Respected evolves.
Proof.
  constructor.
  - exact evolves_refl.
  - exact evolves_trans.
  - intros. apply evolves_silent; auto.
  - intros w skipped found rest H. apply shift_requests_split in H.
    apply (evolves_plain (map OSkip skipped ++ match found with
                                               | Some e => [OExec e]
                                               | None => []
                                               end)); auto.
    + intros Hin. apply elem_of_app in Hin as [Hin|Hin].
      * eapply complete_not_skip, Hin.
      * destruct found; [|inversion Hin].
        apply list_elem_of_singleton in Hin. discriminate.
    + rewrite dequeued_app, enqueued_app, dequeued_skips, enqueued_skips.
      change (_requests (shifted skipped found rest w)) with rest.
      rewrite H. destruct found; cbn; rewrite ?app_nil_r, <- ?app_assoc; reflexivity.
  - intros. apply evolves_silent; auto.
  - intros. apply evolves_silent; auto.
  - intros w Hc Hf. apply evolves_silent; auto. simpl. contradiction.
  - intros w Ha. apply evolves_silent; auto. simpl. congruence.
  - intros. apply evolves_silent; auto.
  - intros w f. apply (evolves_plain [ORollback f]); auto.
    + intros Hin. apply list_elem_of_singleton in Hin. discriminate.
    + simpl. rewrite app_nil_r. reflexivity.
  - intros w r e. apply (evolves_plain [ODispatch (TRequest r) e]); auto.
    + intros Hin. apply list_elem_of_singleton in Hin. discriminate.
    + simpl. rewrite app_nil_r. reflexivity.
  - intros. apply evolves_silent; auto.
  - intros. apply evolves_silent; auto.
  - intros. apply evolves_silent; auto.
  - intros w e Ha. apply (evolves_plain [OEnqueue e]); auto.
    intros Hin. apply list_elem_of_singleton in Hin. discriminate.
  - intros w n o Hn. apply evolves_silent; auto.
    intros Hc m Hm. simpl in *.
    destruct (decide (m = n)) as [->|Hne]; [exact Hn|].
    rewrite lookup_insert_ne in Hm by congruence. apply Hc, Hm.
  - intros. apply evolves_silent; auto.
  - intros. apply evolves_silent; auto.
  - intros. apply evolves_silent; auto.
Qed.

Lemma evolves_complete_fired w :
  _state w <> finished -> _requests w = [] ->
  evolves w (set_trace (trace w ++ [complete_fired]) (set_state finished w)).
Proof.
  intros Hnf Hq. exists [complete_fired]. constructor.
  - reflexivity.
  - simpl. rewrite Hq. reflexivity.
  - intros t1 t2 E. destruct t1 as [|o t1].
    + injection E as <-. split; [|apply not_elem_of_nil].
      rewrite Hq. reflexivity.
    + injection E as _ E. destruct t1; discriminate.
  - intros. contradiction.
  - reflexivity.
  - reflexivity.
  - auto.
Qed.

Lemma evolves_abort_fired w : evolves w (set_trace (trace w ++ [abort_fired]) w).
Proof.
  apply (evolves_plain [abort_fired]); auto.
  - intros Hin. apply list_elem_of_singleton in Hin. discriminate.
  - simpl. rewrite app_nil_r. reflexivity.
Qed.

Lemma quiet_silent w0 w : trace w = trace w0 -> quiet w0 w.
Proof. intros H. exists []. rewrite app_nil_r. split; [exact H|apply not_elem_of_nil]. Qed.

Lemma quiet_observe w w' o :
  trace w' = trace w ++ [o] -> o <> abort_fired -> quiet w w'.
Proof.
  intros Ht H. exists [o]. split; [exact Ht|].
  intros Hin. apply list_elem_of_singleton in Hin. congruence.
Qed.

Lemma calm_respected : Respected calm.
Proof.
  constructor;
    try (intros; exists []; rewrite app_nil_r; split; [reflexivity|apply not_elem_of_nil]);
    try (intros; eexists [_]; split; [reflexivity|];
         intros Hin; apply list_elem_of_singleton in Hin; discriminate).
  - intros w1 w2 w3 (ta & Ha & Hna) (tb & Hb & Hnb). exists (ta ++ tb). split.
    + rewrite Hb, Ha, app_assoc. reflexivity.
    + intros Hin. apply elem_of_app in Hin as [|]; contradiction.
  - intros w skipped found rest _. eexists. split; [reflexivity|].
    intros Hin. apply elem_of_app in Hin as [Hin|Hin].
    + apply list_elem_of_fmap in Hin as (e & He & _). discriminate.
    + destruct found; [|inversion Hin].
      apply list_elem_of_singleton in Hin. discriminate.
Qed.

Lemma quiet_respected : Respected quiet.
Proof.
  constructor; try (intros; apply quiet_silent; reflexivity);
    try (intros; eapply quiet_observe; [reflexivity|discriminate]).
  - intros w1 w2 w3 (ta & Ha & Hna) (tb & Hb & Hnb). exists (ta ++ tb). split.
    + rewrite Hb, Ha, app_assoc. reflexivity.
    + intros Hin. apply elem_of_app in Hin as [|]; contradiction.
  - intros w skipped found rest _. eexists. split; [reflexivity|].
    intros Hin. apply elem_of_app in Hin as [Hin|Hin].
    + apply list_elem_of_fmap in Hin as (e & He & _). discriminate.
    + destruct found; [|inversion Hin].
      apply list_elem_of_singleton in Hin. discriminate.
Qed.

(* ====================================================================== *)
(** * More fuel never changes how a computation ends *)

Lemma refines_refl {A} (m : M A) : refines m m.
Proof. intros w. right. reflexivity. Qed.

Lemma refines_bind {A B} (m1 m2 : M A) (k1 k2 : A -> M B) :
  refines m1 m2 -> (forall a, refines (k1 a) (k2 a)) ->
  refines (bind m1 k1) (bind m2 k2).
Proof.
  intros Hm Hk w. unfold bind. destruct (Hm w) as [E|E].
  - left. rewrite E. reflexivity.
  - rewrite E. destruct (m1 w) as [a w'|e w'|]; [apply Hk|right; reflexivity|left; reflexivity].
Qed.

Lemma refines_try_catch {A} (m1 m2 : M A) (h1 h2 : JsError -> M A) :
  refines m1 m2 -> (forall e, refines (h1 e) (h2 e)) ->
  refines (try_catch m1 h1) (try_catch m2 h2).
Proof.
  intros Hm Hh w. unfold try_catch. destruct (Hm w) as [E|E].
  - left. rewrite E. reflexivity.
  - rewrite E. destruct (m1 w) as [a w'|e w'|]; [right; reflexivity|apply Hh|left; reflexivity].
Qed.

Lemma refines_for_of {A} (arr : World -> list A) (b1 b2 : A -> M unit) :
  (forall x, refines (b1 x) (b2 x)) ->
  forall f1 f2 i, f1 <= f2 -> refines (for_of arr b1 f1 i) (for_of arr b2 f2 i).
Proof.
  intros Hb. induction f1 as [|f1 IH]; intros f2 i Hle w; [left; reflexivity|].
  destruct f2 as [|f2]; [lia|]. simpl.
  destruct (arr w !! i); [|right; reflexivity].
  apply refines_bind; [apply Hb|]. intros _. apply IH. lia.
Qed.

(** Structural steps of a refinement proof. *)
Ltac refines_step :=
  first
    [ assumption
    | apply refines_refl
    | apply refines_bind; [|intros ?]
    | apply refines_try_catch; [|intros ?]
    | apply refines_for_of; [intros ?|assumption]
    | match goal with
      | |- refines (match ?x with _ => _ end) (match ?x with _ => _ end) => destruct x
      | |- refines (let '(_, _) := ?p in _) (let '(_, _) := ?p in _) => destruct p
      end ].

Section MoreFuel.

Variables (call1 call2 : Closure -> M Value).
Variables (listeners1 listeners2 : Target -> FakeEvent -> M bool).
Variables (fuel1 fuel2 : nat).
Hypothesis call_refines : forall f, refines (call1 f) (call2 f).
Hypothesis listeners_refines : forall t e, refines (listeners1 t e) (listeners2 t e).
Hypothesis fuel_le : fuel1 <= fuel2.

Lemma dispatchEvent_refines t e :
  refines (dispatchEvent listeners1 t e) (dispatchEvent listeners2 t e).
Proof. unfold dispatchEvent. refines_step; [refines_step|apply listeners_refines]. Qed.

Lemma run_rollbackLog_refines :
  refines (run_rollbackLog call1 fuel1) (run_rollbackLog call2 fuel2).
Proof.
  unfold run_rollbackLog. refines_step; [refines_step|].
  apply refines_for_of; [|exact fuel_le]. intros f.
  refines_step; [refines_step|]. refines_step; [apply call_refines|refines_step].
Qed.

Lemma abort_request_refines entry :
  refines (abort_request listeners1 entry) (abort_request listeners2 entry).
Proof.
  unfold abort_request. refines_step; [refines_step|].
  destruct (decide _); [|refines_step].
  refines_step; [refines_step|]. destruct (source _); [|refines_step].
  refines_step; [refines_step|]. refines_step; [apply dispatchEvent_refines|refines_step].
Qed.

Lemma _abort_refines errName :
  refines (_abort call1 listeners1 fuel1 errName) (_abort call2 listeners2 fuel2 errName).
Proof.
  unfold _abort. refines_step; [apply run_rollbackLog_refines|].
  refines_step; [refines_step|].
  refines_step; [|refines_step].
  unfold abort_requests. apply refines_for_of; [|exact fuel_le].
  apply abort_request_refines.
Qed.

Lemma abort_refines :
  refines (abort call1 listeners1 fuel1) (abort call2 listeners2 fuel2).
Proof.
  unfold abort. refines_step; [refines_step|].
  destruct (decide _); [refines_step|].
  refines_step; [refines_step|apply _abort_refines].
Qed.

Lemma run_request_refines entry :
  refines (run_request call1 listeners1 fuel1 entry) (run_request call2 listeners2 fuel2 entry).
Proof.
  destruct entry as [operation request]. unfold run_request.
  refines_step; [refines_step|]. refines_step; [|refines_step].
  destruct (source _).
  - refines_step.
    + refines_step; [|refines_step].
      refines_step; [apply call_refines|refines_step].
    + destruct a0 as [event defaultAction]. refines_step.
      * refines_step; [apply dispatchEvent_refines|].
        refines_step; [refines_step|]. refines_step; [|refines_step].
        destruct (decide _); [apply _abort_refines|refines_step].
      * destruct (negb _); [|refines_step].
        destruct defaultAction; [apply _abort_refines|refines_step].
  - refines_step; [apply call_refines|refines_step].
Qed.

Lemma finalize_refines : refines (finalize listeners1) (finalize listeners2).
Proof.
  unfold finalize. refines_step; [refines_step|].
  destruct (decide _); [|refines_step].
  refines_step; [refines_step|]. destruct (error _); [refines_step|].
  refines_step; [apply dispatchEvent_refines|refines_step].
Qed.

Lemma _start_refines :
  refines (_start call1 listeners1 fuel1) (_start call2 listeners2 fuel2).
Proof.
  unfold _start. refines_step; [refines_step|]. refines_step; [refines_step|].
  destruct (shift_requests _ _) as [[skipped found] rest].
  refines_step; [refines_step|].
  destruct found; [apply run_request_refines|apply finalize_refines].
Qed.

Lemma run_ticks_refines k :
  refines (run_ticks call1 listeners1 fuel1 k) (run_ticks call2 listeners2 fuel2 k).
Proof.
  induction k as [|k IH]; [apply refines_refl|]. simpl.
  refines_step.
  - unfold tick. refines_step; [refines_step|]. destruct (tasks _) as [|t rest]; [refines_step|].
    refines_step; [refines_step|]. refines_step; [|refines_step].
    destruct t; simpl; [apply _start_refines|].
    refines_step; [apply dispatchEvent_refines|refines_step].
  - destruct a; [exact IH|refines_step].
Qed.

Lemma dispatch_to_listeners_refines t e :
  refines (dispatch_to_listeners call1 t e) (dispatch_to_listeners call2 t e).
Proof.
  unfold dispatch_to_listeners. refines_step; [refines_step|].
  refines_step; [refines_step|]. refines_step; [|refines_step].
  refines_step; [|refines_step].
  induction (flat_map _ _) as [|cb cbs IH]; simpl; [refines_step|].
  refines_step; [apply call_refines|exact IH].
Qed.

End MoreFuel.

Lemma run_script_refines call1 call2 fuel1 fuel2 s :
  (forall f, refines (call1 f) (call2 f)) -> fuel1 <= fuel2 ->
  refines (run_script call1 fuel1 s) (run_script call2 fuel2 s).
Proof.
  intros Hc Hf. induction s as [|a s IH]; simpl; [apply refines_refl|].
  refines_step; [|destruct a0; [refines_step|exact IH]].
  assert (Hl : forall t e, refines (dispatch_to_listeners call1 t e)
                             (dispatch_to_listeners call2 t e)).
  { intros. apply dispatch_to_listeners_refines. exact Hc. }
  destruct a; simpl; try apply refines_refl.
  - refines_step; [|refines_step]. apply abort_refines; assumption.
  - refines_step; [|refines_step]. apply _abort_refines; assumption.
  - refines_step; [|refines_step]. refines_step; [apply Hc|refines_step].
Qed.

Lemma run_closure_refines prog n m f :
  n <= m -> refines (run_closure prog n f) (run_closure prog m f).
Proof.
  revert m f. induction n as [|n IH]; intros m f Hle; [intros w; left; reflexivity|].
  destruct m as [|m]; [lia|]. simpl.
  apply run_script_refines; [|lia]. intros g. apply IH. lia.
Qed.

(** A run that ends with fuel [n] ends the same way with any more fuel. *)
Lemma run_of_refines prog n m k :
  n <= m -> refines (run_of prog n k) (run_of prog m k).
Proof.
  intros Hle. unfold run_of. apply run_ticks_refines; [| |exact Hle].
  - intros f. apply run_closure_refines, Hle.
  - intros t e. apply dispatch_to_listeners_refines. intros f.
    apply run_closure_refines, Hle.
Qed.

(* ====================================================================== *)
(** * Closures that keep to themselves *)

Lemma aborted_done rq : readyState (aborted rq) = done.
Proof.
  unfold aborted. destruct (decide _) as [H|H]; [exact H|].
  destruct (source rq); reflexivity.
Qed.

Lemma aborted_idem rq : aborted (aborted rq) = aborted rq.
Proof.
  unfold aborted at 1. destruct (decide _) as [_|H]; [reflexivity|].
  destruct H. apply aborted_done.
Qed.

Lemma same_transaction_trans w1 w2 w3 :
  same_transaction w1 w2 -> same_transaction w2 w3 -> same_transaction w1 w3.
Proof. unfold same_transaction. intuition congruence. Qed.

Section Benign.

Variable call : Closure -> M Value.
Variable invoke_listeners : Target -> FakeEvent -> M bool.
Variable loop_fuel : nat.

Local Abbreviation dispatchEvent := (dispatchEvent invoke_listeners).
Local Abbreviation run_rollbackLog := (run_rollbackLog call loop_fuel).
Local Abbreviation abort_request := (abort_request invoke_listeners).
Local Abbreviation abort_requests := (abort_requests invoke_listeners loop_fuel).
Local Abbreviation _abort := (_abort call invoke_listeners loop_fuel).

(** One iteration of the loop, for listeners that only watch. *)
Lemma abort_request_step (entry : QueueEntry) (w : World) :
  listeners_only_watch invoke_listeners ->
  exists w1 rs1,
    abort_request entry w = Val tt w1 /\
    same_transaction w w1 /\
    (forall r, request_at w1 r =
               if decide (r = entry.2) then aborted (request_at w r) else request_at w r) /\
    trace w1 = trace w ++ map (fun r => ODispatch (TRequest r) error_event) rs1 /\
    (to_fail w entry.2 -> rs1 = [entry.2]) /\
    (~ to_fail w entry.2 -> rs1 = []).
Proof using Type.
  clear call loop_fuel.
  intros Hil. destruct entry as [op r]. simpl.
  cbv beta iota zeta delta [abort_request bind get update_request modify snd].
  destruct (decide (readyState (request_at w r) <> done)) as [Hp|Hd].
  - destruct (source (request_at w r)) as [s|] eqn:Hs.
    + cbv beta iota zeta delta [dispatchEvent bind observe modify].
      match goal with
      | |- context [invoke_listeners ?t ?ev ?W] =>
          destruct (Hil t ev W) as (c & b & ->)
      end.
      eexists. exists [r].
      split; [reflexivity|]. split; [repeat split|].
      split; [|split; [reflexivity|split; [reflexivity|]]].
      * intros r'. unfold request_at. simpl.
        destruct (decide (r' = r)) as [->|Hne].
        -- rewrite lookup_total_insert_eq. simpl. rewrite lookup_total_insert_eq. simpl.
           unfold aborted. destruct (decide _) as [Hd|_]; [contradiction|].
           fold (request_at w r). rewrite Hs. reflexivity.
        -- rewrite !lookup_total_insert_ne by congruence. reflexivity.
      * intros Hn. destruct Hn. split; [exact Hp|]. rewrite Hs. discriminate.
    + eexists. exists [].
      split; [reflexivity|]. split; [repeat split|].
      split; [|split; [simpl; rewrite app_nil_r; reflexivity|split; [|reflexivity]]].
      * intros r'. unfold request_at at 1. simpl.
        destruct (decide (r' = r)) as [->|Hne].
        -- rewrite lookup_total_insert_eq. unfold aborted.
           destruct (decide _) as [Hd|_]; [contradiction|]. rewrite Hs. reflexivity.
        -- rewrite lookup_total_insert_ne by congruence. reflexivity.
      * intros [_ Hn]. contradiction.
  - exists w, []. split; [reflexivity|]. split; [repeat split|].
    split; [|split; [simpl; rewrite app_nil_r; reflexivity|split; [|reflexivity]]].
    + intros r'. destruct (decide (r' = r)) as [->|Hne]; [|reflexivity].
      unfold aborted. destruct (decide _) as [_|Hn]; [reflexivity|].
      exfalso. apply Hd. exact Hn.
    + intros [Hn _]. contradiction.
Qed.

(** The loop over the queue, from index [i] on, for listeners that only watch.
    [w] is the world the loop started in, [rs] the requests failed so far. *)
Lemma abort_loop (w : World) :
  listeners_only_watch invoke_listeners ->
  forall fuel i wi rs,
    length (_requests w) - i < fuel ->
    same_transaction w wi ->
    (forall r, request_at wi r =
               if decide (r ∈ (take i (_requests w)).*2) then aborted (request_at w r)
               else request_at w r) ->
    trace wi = trace w ++ map (fun r => ODispatch (TRequest r) error_event) rs ->
    NoDup rs ->
    (forall r, r ∈ rs <-> r ∈ (take i (_requests w)).*2 /\ to_fail w r) ->
    exists w' rs',
      for_of _requests abort_request fuel i wi = Val tt w' /\
      same_transaction w w' /\
      (forall r, request_at w' r =
                 if decide (r ∈ (_requests w).*2) then aborted (request_at w r)
                 else request_at w r) /\
      trace w' = trace w ++ map (fun r => ODispatch (TRequest r) error_event) rs' /\
      NoDup rs' /\
      (forall r, r ∈ rs' <-> r ∈ (_requests w).*2 /\ to_fail w r).
Proof using Type.
  clear call loop_fuel.
  intros Hil. induction fuel as [|fuel IH]; intros i wi rs Hfuel Hq Hheap Htr Hnd Hrs; [lia|].
  simpl. replace (_requests wi) with (_requests w) by (symmetry; apply Hq).
  destruct (_requests w !! i) as [[op r]|] eqn:Hi.
  - assert (Hlt : length (_requests w) - S i < fuel).
    { apply lookup_lt_Some in Hi. lia. }
    assert (Htake : forall r', r' ∈ (take (S i) (_requests w)).*2 <->
                               r' ∈ (take i (_requests w)).*2 \/ r' = r).
    { intros r'. rewrite (take_S_r _ _ _ Hi), fmap_app, elem_of_app. simpl.
      rewrite list_elem_of_singleton. reflexivity. }
    assert (Hfail : to_fail wi r <-> (r ∉ (take i (_requests w)).*2) /\ to_fail w r).
    { unfold to_fail. rewrite (Hheap r). destruct (decide _) as [Hin|Hin].
      - rewrite aborted_done. tauto.
      - tauto. }
    destruct (abort_request_step (op, r) wi Hil)
      as (w1 & rs1 & E & Hq1 & Hh1 & Ht1 & Hyes & Hno).
    simpl in Hh1, Hyes, Hno.
    unfold bind. rewrite E.
    apply (IH (S i) w1 (rs ++ rs1) Hlt).
    + eapply same_transaction_trans; eauto.
    + intros r'. rewrite Hh1. destruct (decide (r' = r)) as [->|Hne].
      * rewrite (Hheap r).
        destruct (decide (r ∈ (take (S i) (_requests w)).*2)) as [_|Hn].
        -- destruct (decide _); [apply aborted_idem|reflexivity].
        -- destruct Hn. apply Htake. right. reflexivity.
      * rewrite (Hheap r').
        destruct (decide (r' ∈ (take i (_requests w)).*2)) as [Hin|Hin];
          destruct (decide (r' ∈ (take (S i) (_requests w)).*2)) as [Hin'|Hin'];
          try reflexivity.
        -- destruct Hin'. apply Htake. left. exact Hin.
        -- apply Htake in Hin'. destruct Hin' as [?|?]; [contradiction|congruence].
    + rewrite Ht1, Htr, map_app, app_assoc. reflexivity.
    + destruct (decide (r ∈ (take i (_requests w)).*2)) as [Hin|Hin].
      * rewrite Hno, app_nil_r; [exact Hnd|]. rewrite Hfail. tauto.
      * destruct (decide (to_fail w r)) as [Hf|Hf].
        -- rewrite Hyes by (apply Hfail; tauto).
           apply NoDup_app. split; [exact Hnd|]. split; [|apply NoDup_singleton].
           intros r' Hr' Heq. apply list_elem_of_singleton in Heq. subst r'.
           apply Hrs in Hr'. tauto.
        -- rewrite Hno, app_nil_r; [exact Hnd|]. rewrite Hfail. tauto.
    + intros r'. rewrite elem_of_app, Htake, Hrs.
      destruct (decide (to_fail wi r)) as [Hf|Hf].
      * rewrite (Hyes Hf), list_elem_of_singleton. apply Hfail in Hf.
        split.
        -- intros [[? ?]| ->]; tauto.
        -- intros [[?| ->] ?]; tauto.
      * rewrite (Hno Hf). rewrite elem_of_nil.
        split.
        -- intros [[? ?]|Hnil]; [tauto|destruct Hnil].
        -- intros [[?| ->] Hw]; [tauto|]. left. split; [|exact Hw].
           destruct (decide (r ∈ (take i (_requests w)).*2)) as [Hin|Hin]; [exact Hin|].
           destruct Hf. apply Hfail. tauto.
  - apply lookup_ge_None in Hi. rewrite take_ge in Hheap, Hrs by lia.
    exists wi, rs. auto 10.
Qed.

(** The whole loop. *)
Lemma abort_requests_benign (w : World) :
  listeners_only_watch invoke_listeners ->
  length (_requests w) < loop_fuel ->
  exists w' rs,
    abort_requests w = Val tt w' /\
    same_transaction w w' /\
    (forall r, request_at w' r =
               if decide (r ∈ (_requests w).*2) then aborted (request_at w r)
               else request_at w r) /\
    trace w' = trace w ++ map (fun r => ODispatch (TRequest r) error_event) rs /\
    NoDup rs /\
    (forall r, r ∈ rs <-> r ∈ (_requests w).*2 /\ to_fail w r).
Proof using Type.
  clear call.
  intros Hil Hfuel.
  apply (abort_loop w Hil loop_fuel 0 w []).
  - lia.
  - repeat split.
  - intros r. rewrite decide_False; [reflexivity|]. rewrite take_0. apply not_elem_of_nil.
  - simpl. rewrite app_nil_r. reflexivity.
  - constructor.
  - intros r. simpl. rewrite !elem_of_nil. tauto.
Qed.

(** The rollback loop, from index [i] on, for entries that only undo. *)
Lemma rollback_loop_benign (L : list Closure) :
  (forall f, f ∈ L -> only_undoes call f) ->
  forall fuel i w1, _rollbackLog w1 = L -> length L - i < fuel ->
  exists m,
    for_of _rollbackLog (fun f => observe (ORollback f) ;; call f ;; ret tt) fuel i w1 =
    Val tt (set_rawObjectStores m (set_trace (trace w1 ++ map ORollback (drop i L)) w1)).
Proof using Type.
  clear invoke_listeners loop_fuel.
  intros Hf. induction fuel as [|fuel IH]; intros i w1 HL Hfuel; [lia|].
  simpl. rewrite HL. destruct (L !! i) as [f|] eqn:Hi.
  - assert (Hin : f ∈ L) by (eapply list_elem_of_lookup_2; eauto).
    rewrite (drop_S _ _ _ Hi).
    cbv beta iota zeta delta [bind observe modify ret].
    destruct (Hf f Hin (set_trace (trace w1 ++ [ORollback f]) w1)) as (v & m & ->).
    destruct (IH (S i) (set_rawObjectStores m (set_trace (trace w1 ++ [ORollback f]) w1)))
      as (m' & E).
    + exact HL.
    + apply lookup_lt_Some in Hi. lia.
    + exists m'. etransitivity; [exact E|]. simpl. rewrite <- app_assoc. reflexivity.
  - apply lookup_ge_None in Hi. rewrite drop_ge by lia. simpl. rewrite app_nil_r.
    exists (rawObjectStores w1). destruct w1; reflexivity.
Qed.

(** The whole abort procedure, for closures that keep to themselves. *)
Lemma _abort_benign (errName : option string) (w : World) :
  (forall f, f ∈ _rollbackLog w -> only_undoes call f) ->
  listeners_only_watch invoke_listeners ->
  length (_rollbackLog w) < loop_fuel ->
  length (_requests w) < loop_fuel ->
  exists w' rs,
    _abort errName w = Val tt w' /\
    _state w' = finished /\
    error w' = error (record_error errName w) /\
    tasks w' = tasks w ++ [TaskAbortEvent] /\
    _rollbackLog w' = reverse (_rollbackLog w) /\
    _requests w' = _requests w /\
    (forall r, request_at w' r =
               if decide (r ∈ (_requests w).*2) then aborted (request_at w r)
               else request_at w r) /\
    trace w' = trace w ++ map ORollback (reverse (_rollbackLog w)) ++
                 map (fun r => ODispatch (TRequest r) error_event) rs /\
    NoDup rs /\
    (forall r, r ∈ rs <-> r ∈ (_requests w).*2 /\ to_fail w r).
Proof.
  intros Hf Hil Hlog Hq.
  rewrite (_abort_unfold call invoke_listeners loop_fuel).
  destruct (rollback_loop_benign (reverse (_rollbackLog w))) with
    (fuel := loop_fuel) (i := 0) (w1 := set_rollbackLog (reverse (_rollbackLog w)) w)
    as (m & E).
  { intros f Hin. apply Hf. apply elem_of_reverse. exact Hin. }
  { reflexivity. }
  { rewrite length_reverse. lia. }
  rewrite drop_0 in E.
  change (run_rollbackLog w) with
    (for_of _rollbackLog (fun f => observe (ORollback f) ;; call f ;; ret tt) loop_fuel 0
       (set_rollbackLog (reverse (_rollbackLog w)) w)).
  rewrite E.
  set (w1 := set_rawObjectStores m _).
  destruct (abort_requests_benign (record_error errName w1) Hil)
    as (w2 & rs & E2 & Hsame & Hh & Ht & Hnd & Hrs).
  { destruct errName; exact Hq. }
  rewrite E2. exists (finish_abort w2), rs.
  destruct Hsame as (Hs1 & Hs2 & Hs3 & Hs4 & Hs5 & Hs6).
  split; [reflexivity|]. split; [reflexivity|].
  split; [simpl; rewrite Hs2; destruct errName; reflexivity|].
  split; [simpl; rewrite Hs3; destruct errName; reflexivity|].
  split; [simpl; rewrite Hs4; destruct errName; reflexivity|].
  split; [simpl; rewrite Hs5; destruct errName; reflexivity|].
  split; [|split; [|split; [exact Hnd|]]].
  - intros r. unfold request_at at 1. simpl. fold (request_at w2 r). rewrite Hh.
    destruct errName; reflexivity.
  - simpl. rewrite Ht. destruct errName; simpl; rewrite <- app_assoc; reflexivity.
  - intros r. rewrite Hrs. destruct errName; reflexivity.
Qed.

(** The rollback loop, from index [i] on, for entries that undo. *)
Lemma rollback_loop_undoes undo (L : list Closure) :
  (forall f, f ∈ L -> undoes call undo f) ->
  forall fuel i w1, _rollbackLog w1 = L -> length L - i < fuel ->
  for_of _rollbackLog (fun f => observe (ORollback f) ;; call f ;; ret tt) fuel i w1 =
  Val tt (set_rawObjectStores (foldl (fun m f => undo f m) (rawObjectStores w1) (drop i L))
            (set_trace (trace w1 ++ map ORollback (drop i L)) w1)).
Proof using Type.
  clear invoke_listeners loop_fuel.
  intros Hf. induction fuel as [|fuel IH]; intros i w1 HL Hfuel; [lia|].
  simpl. rewrite HL. destruct (L !! i) as [f|] eqn:Hi.
  - assert (Hin : f ∈ L) by (eapply list_elem_of_lookup_2; eauto).
    rewrite (drop_S _ _ _ Hi).
    cbv beta iota zeta delta [bind observe modify ret].
    destruct (Hf f Hin (set_trace (trace w1 ++ [ORollback f]) w1)) as (v & ->).
    etransitivity.
    { apply (IH (S i)); [exact HL|]. apply lookup_lt_Some in Hi. lia. }
    simpl. rewrite <- app_assoc. reflexivity.
  - apply lookup_ge_None in Hi. rewrite drop_ge by lia. simpl. rewrite app_nil_r.
    destruct w1; reflexivity.
Qed.

(** The whole rollback phase, for entries that undo. *)
Lemma run_rollbackLog_undoes undo (w : World) :
  (forall f, f ∈ _rollbackLog w -> undoes call undo f) ->
  length (_rollbackLog w) < loop_fuel ->
  run_rollbackLog w =
  Val tt (set_rawObjectStores
            (foldl (fun m f => undo f m) (rawObjectStores w) (reverse (_rollbackLog w)))
            (set_trace (trace w ++ map ORollback (reverse (_rollbackLog w)))
               (set_rollbackLog (reverse (_rollbackLog w)) w))).
Proof using Type.
  clear invoke_listeners.
  intros Hf Hlog.
  change (run_rollbackLog w) with
    (for_of _rollbackLog (fun f => observe (ORollback f) ;; call f ;; ret tt) loop_fuel 0
       (set_rollbackLog (reverse (_rollbackLog w)) w)).
  rewrite (rollback_loop_undoes undo (reverse (_rollbackLog w))).
  - rewrite drop_0. reflexivity.
  - intros f Hin. apply Hf. apply elem_of_reverse. exact Hin.
  - reflexivity.
  - rewrite length_reverse. lia.
Qed.

(** The whole abort procedure, for entries that undo and listeners that only
    watch. *)
Lemma _abort_undoes undo (errName : option string) (w : World) :
  (forall f, f ∈ _rollbackLog w -> undoes call undo f) ->
  listeners_only_watch invoke_listeners ->
  length (_rollbackLog w) < loop_fuel ->
  length (_requests w) < loop_fuel ->
  exists w', _abort errName w = Val tt w' /\ abort_outcome undo errName w w'.
Proof.
  intros Hf Hil Hlog Hq.
  rewrite (_abort_unfold call invoke_listeners loop_fuel).
  rewrite (run_rollbackLog_undoes undo w Hf Hlog).
  set (w1 := set_rawObjectStores _ _).
  destruct (abort_requests_benign (record_error errName w1) Hil)
    as (w2 & rs & E2 & Hsame & Hh & Ht & Hnd & Hrs).
  { destruct errName; exact Hq. }
  rewrite E2. exists (finish_abort w2). split; [reflexivity|].
  destruct Hsame as (Hs1 & Hs2 & Hs3 & Hs4 & Hs5 & Hs6).
  constructor.
  - reflexivity.
  - simpl. rewrite Hs2. destruct errName; reflexivity.
  - simpl. rewrite Hs3. destruct errName; reflexivity.
  - simpl. rewrite Hs4. destruct errName; reflexivity.
  - simpl. rewrite Hs6. destruct errName; reflexivity.
  - simpl. rewrite Hs5. destruct errName; reflexivity.
  - intros r. unfold request_at at 1. simpl. fold (request_at w2 r). rewrite Hh.
    destruct errName; reflexivity.
  - exists rs. split; [|split; [exact Hnd|]].
    + simpl. rewrite Ht. destruct errName; simpl; rewrite <- app_assoc; reflexivity.
    + intros r. rewrite Hrs. destruct errName; reflexivity.
Qed.

End Benign.

(* ====================================================================== *)
(** * The specification, method by method *)

Section Specification.

Variable call : Closure -> M Value.
Variable invoke_listeners : Target -> FakeEvent -> M bool.
Variable loop_fuel : nat.

Local Abbreviation dispatchEvent := (dispatchEvent invoke_listeners).
Local Abbreviation run_rollbackLog := (run_rollbackLog call loop_fuel).
Local Abbreviation abort_requests := (abort_requests invoke_listeners loop_fuel).
Local Abbreviation _abort := (_abort call invoke_listeners loop_fuel).
Local Abbreviation abort := (abort call invoke_listeners loop_fuel).
Local Abbreviation _start := (_start call invoke_listeners loop_fuel).
Local Abbreviation run_request := (run_request call invoke_listeners loop_fuel).
Local Abbreviation finalize := (finalize invoke_listeners).
Local Abbreviation run_task := (run_task call invoke_listeners loop_fuel).
Local Abbreviation tick := (tick call invoke_listeners loop_fuel).

(** The rollback loop, from index [i] on, for entries that leave the log alone. *)
Lemma rollback_loop (L : list Closure) :
  (forall f, f ∈ L -> leaves_log_alone call f) ->
  forall fuel i w1, _rollbackLog w1 = L -> length L - i < fuel ->
  match for_of _rollbackLog (fun f => observe (ORollback f) ;; call f ;; ret tt) fuel i w1 with
  | Val _ w' => trace w' = trace w1 ++ map ORollback (drop i L) /\ _rollbackLog w' = L
  | Exc e w' => exists ran f rest w2,
      drop i L = ran ++ f :: rest /\ call f w2 = Exc e w' /\
      trace w' = trace w1 ++ map ORollback (ran ++ [f])
  | OutOfFuel => exists f w2, f ∈ L /\ call f w2 = OutOfFuel
  end.
Proof.
  intros Hframe. induction fuel as [|fuel IH]; intros i w1 HL Hfuel; [lia|].
  simpl. rewrite HL. destruct (L !! i) as [f|] eqn:Hi.
  - assert (Hin : f ∈ L) by (eapply list_elem_of_lookup_2; eauto).
    assert (Hdrop : drop i L = f :: drop (S i) L) by (apply drop_S; exact Hi).
    cbv beta iota zeta delta [bind observe modify ret].
    pose proof (Hframe f Hin (set_trace (trace w1 ++ [ORollback f]) w1)) as Hf.
    destruct (call f _) as [v w2|e w2|] eqn:Hcall.
    + destruct Hf as [Hlog Htr]. simpl in Hlog, Htr.
      assert (Hlt : length L - S i < fuel).
      { apply lookup_lt_Some in Hi. lia. }
      specialize (IH (S i) w2 (eq_trans Hlog HL) Hlt).
      destruct (for_of _ _ fuel (S i) w2) as [[] w'|e w'|].
      * destruct IH as [IH1 IH2]. split; [|exact IH2].
        rewrite IH1, Htr, Hdrop. simpl. rewrite <- app_assoc. reflexivity.
      * destruct IH as (ran & f' & rest & w3 & E1 & E2 & E3).
        exists (f :: ran), f', rest, w3. split; [|split; [exact E2|]].
        -- rewrite Hdrop, E1. reflexivity.
        -- rewrite E3, Htr. simpl. rewrite <- app_assoc. reflexivity.
      * exact IH.
    + destruct Hf as [Hlog Htr]. simpl in Htr.
      exists [], f, (drop (S i) L), (set_trace (trace w1 ++ [ORollback f]) w1).
      split; [exact Hdrop|]. split; [exact Hcall|]. rewrite Htr. reflexivity.
    + exists f, (set_trace (trace w1 ++ [ORollback f]) w1). split; [exact Hin|exact Hcall].
  - apply lookup_ge_None in Hi. rewrite drop_ge by lia. simpl.
    rewrite app_nil_r. split; [reflexivity|exact HL].
Qed.

(** C2 (amended): for rollback entries that leave the rollback log alone and
    do not call back into the transaction (they enqueue nothing, dispatch
    nothing, start no abort), the abort procedure calls the entries of the
    log in reverse order, newest first, as long as each returns.  An entry
    that throws is not caught: the entries after it are not called, and the
    exception leaves [_abort] before the error is recorded, the pending
    requests are failed, the "abort" event is queued or the state is set to
    finished.  When every entry returns the loop returns; and when each entry
    [f] returns having applied its change [undo f] to the stores and changed
    nothing else, the stores end with the changes applied newest first.
    (The log is within the bound of the loop.) *)
Theorem rollback_runs_in_reverse_until_a_throw
    (undo : Closure -> gmap string RawObjectStore -> gmap string RawObjectStore)
    (w : World) (errName : option string) :
  (forall f, f ∈ _rollbackLog w -> leaves_log_alone call f) ->
  length (_rollbackLog w) < loop_fuel ->
  match run_rollbackLog w with
  | Val _ w' =>
      trace w' = trace w ++ map ORollback (reverse (_rollbackLog w))
  | Exc e w' =>
      (exists ran f not_run w2,
         reverse (_rollbackLog w) = ran ++ f :: not_run /\
         call f w2 = Exc e w' /\
         trace w' = trace w ++ map ORollback (ran ++ [f])) /\
      _abort errName w = Exc e w'
  | OutOfFuel => exists f w2, f ∈ _rollbackLog w /\ call f w2 = OutOfFuel
  end /\
  ((forall f w1, f ∈ _rollbackLog w -> exists v w2, call f w1 = Val v w2) ->
   exists w', run_rollbackLog w = Val tt w') /\
  ((forall f, f ∈ _rollbackLog w -> undoes call undo f) ->
   run_rollbackLog w =
   Val tt (set_rawObjectStores
             (foldl (fun m f => undo f m) (rawObjectStores w) (reverse (_rollbackLog w)))
             (set_trace (trace w ++ map ORollback (reverse (_rollbackLog w)))
                (set_rollbackLog (reverse (_rollbackLog w)) w)))).
Proof.
  intros Hframe Hfuel.
  assert (Hframe' : forall f, f ∈ reverse (_rollbackLog w) -> leaves_log_alone call f).
  { intros f Hf. apply Hframe. apply elem_of_reverse. exact Hf. }
  assert (Hloop := rollback_loop (reverse (_rollbackLog w)) Hframe' loop_fuel 0
                     (set_rollbackLog (reverse (_rollbackLog w)) w) eq_refl).
  rewrite length_reverse in Hloop. specialize (Hloop ltac:(lia)).
  assert (Hrun : run_rollbackLog w =
                 for_of _rollbackLog (fun f => observe (ORollback f) ;; call f ;; ret tt)
                   loop_fuel 0 (set_rollbackLog (reverse (_rollbackLog w)) w)) by reflexivity.
  split; [|split].
  - rewrite _abort_unfold, Hrun.
    destruct (for_of _ _ _ _ _) as [[] w'|e w'|].
    + destruct Hloop as [Ht _]. exact Ht.
    + split; [|reflexivity].
      destruct Hloop as (ran & f & rest & w2 & E1 & E2 & E3).
      exists ran, f, rest, w2. auto.
    + destruct Hloop as (f & w2 & Hin & E). exists f, w2. split; [|exact E].
      apply elem_of_reverse. exact Hin.
  - intros Hret. rewrite Hrun.
    destruct (for_of _ _ _ _ _) as [[] w'|e w'|].
    + eexists; reflexivity.
    + destruct Hloop as (ran & f & rest & w2 & E1 & E2 & E3).
      assert (Hin : f ∈ _rollbackLog w).
      { apply elem_of_reverse. rewrite drop_0 in E1. rewrite E1.
        apply elem_of_app. right. left. }
      destruct (Hret f w2 Hin) as (v & w3 & E). congruence.
    + destruct Hloop as (f & w2 & Hin & E).
      rewrite elem_of_reverse in Hin.
      destruct (Hret f w2 Hin) as (v & w3 & E'). congruence.
  - intros Hundo. apply (run_rollbackLog_undoes call loop_fuel undo w Hundo Hfuel).
Qed.

(** What the driver does after the listeners of a failed request's "error"
    event have returned without canceling it, for rollback entries that undo
    and listeners that only watch: the whole abort procedure, then the
    reschedule. *)
Lemma uncanceled_failure_aborts undo operation request w s e w2 w4 :
  source (request_at w request) = Some s ->
  call operation w = Exc e w2 ->
  invoke_listeners (TRequest request) error_event
    (observed (ODispatch (TRequest request) error_event)
       (settle_failure request e w2)) = Val false w4 ->
  run_request (operation, request) w = (_abort (Some (name e)) ;; queueTask TaskStart) w4 /\
  ((forall f, f ∈ _rollbackLog w4 -> undoes call undo f) ->
   listeners_only_watch invoke_listeners ->
   length (_rollbackLog w4) < loop_fuel ->
   length (_requests w4) < loop_fuel ->
   exists w5,
     run_request (operation, request) w = Val tt (set_tasks (tasks w5 ++ [TaskStart]) w5) /\
     abort_outcome undo (Some (name e)) w4 w5) /\
  (forall e' w5, run_rollbackLog w4 = Exc e' w5 ->
     run_request (operation, request) w = Exc e' w5).
Proof.
  intros Hs Hop Hl.
  pose proof (run_request_failure call invoke_listeners loop_fuel
                _ _ _ _ _ _ _ _ Hs Hop Hl) as Hrun.
  cbv beta iota in Hrun.
  split; [exact Hrun|]. split.
  - intros Hf Hil Hlog Hq.
    destruct (_abort_undoes call invoke_listeners loop_fuel undo (Some (name e)) w4
                Hf Hil Hlog Hq) as (w5 & E & Hout).
    exists w5. split; [|exact Hout].
    rewrite Hrun. unfold bind. rewrite E. reflexivity.
  - intros e' w5 E. rewrite Hrun. unfold bind.
    rewrite (_abort_unfold call invoke_listeners loop_fuel), E. reflexivity.
Qed.

(** C4 (amended): when the operation of a request with a source throws [e],
    the driver sets the request's readyState to done, its result to undefined
    and its error to [e], and dispatches on the request a bubbling,
    cancelable "error" event with path [database, transaction].  If a
    listener canceled it, no abort is run: the driver only reschedules
    itself.  If the listeners return without having canceled it, the driver
    runs the abort procedure with the name of [e], and does not catch what
    that throws.  When the rollback entries undo store changes and the
    listeners only watch, the transaction is aborted: it ends finished, its
    error named after [e], the rollback entries applied newest first, every
    queued pending request failed, the "abort" event queued; then the driver
    reschedules itself.  When a rollback entry throws, the exception leaves
    the driver at once: no error is recorded, the state is not set, no
    "abort" event is queued and the driver is not rescheduled.  (The log and
    the queue are within the bound of the loops.) *)
Theorem failed_request_aborts_unless_canceled
    (undo : Closure -> gmap string RawObjectStore -> gmap string RawObjectStore)
    (w : World) skipped operation request rest s e w2 c w4 :
  shift_requests w (_requests w) = (skipped, Some (operation, request), rest) ->
  source (request_at w request) = Some s ->
  call operation (shifted skipped (Some (operation, request)) rest (set_started true w))
    = Exc e w2 ->
  let w3 := observed (ODispatch (TRequest request) error_event)
              (settle_failure request e w2) in
  invoke_listeners (TRequest request) error_event w3 = Val c w4 ->
  (readyState (request_at w3 request) = done /\
   result (request_at w3 request) = undefined /\
   req_error (request_at w3 request) = Some e) /\
  (exists t, trace w3 = t ++ [ODispatch (TRequest request)
                                (mkEvent "error" true true [TDatabase; TTransaction])]) /\
  (c = true ->
     _start w = Val tt (set_tasks (tasks w4 ++ [TaskStart]) w4)) /\
  (c = false ->
     _start w = (_abort (Some (name e)) ;; queueTask TaskStart) w4 /\
     ((forall f, f ∈ _rollbackLog w4 -> undoes call undo f) ->
      listeners_only_watch invoke_listeners ->
      length (_rollbackLog w4) < loop_fuel ->
      length (_requests w4) < loop_fuel ->
      exists w5,
        _start w = Val tt (set_tasks (tasks w5 ++ [TaskStart]) w5) /\
        abort_outcome undo (Some (name e)) w4 w5) /\
     (forall e' w5, run_rollbackLog w4 = Exc e' w5 -> _start w = Exc e' w5)).
Proof.
  intros Hshift Hs Hop w3 Hl.
  assert (Hs1 : source (request_at
                   (shifted skipped (Some (operation, request)) rest (set_started true w))
                   request) = Some s) by exact Hs.
  rewrite (_start_eq call invoke_listeners loop_fuel _ _ _ _ Hshift).
  split; [|split; [|split]].
  - unfold w3, observed, settle_failure, reactivate, request_at.
    destruct (decide _); simpl; rewrite lookup_total_insert_eq; repeat split.
  - eexists. reflexivity.
  - intros ->.
    exact (run_request_failure call invoke_listeners loop_fuel
             _ _ _ _ _ _ _ _ Hs1 Hop Hl).
  - intros ->. exact (uncanceled_failure_aborts undo _ _ _ _ _ _ _ Hs1 Hop Hl).
Qed.

(** C5 (amended): abort() called while the transaction is committing or
    finished fails with InvalidStateError and changes nothing.  Called while
    it is active or inactive it makes the state active and runs the abort
    procedure with no error name, and does not catch what that throws.  When
    the rollback entries undo store changes and the listeners only watch, it
    succeeds: the state is finished, the error is left as it was, the
    rollback entries have been applied newest first, every queued pending
    request is failed and the "abort" event is queued.  When a rollback entry
    throws, or a listener of a request's "error" event throws, abort() throws
    that exception at once, before the state is set to finished.  (The log
    and the queue are within the bound of the loops.) *)
Theorem abort_state_machine
    (undo : Closure -> gmap string RawObjectStore -> gmap string RawObjectStore)
    (w : World) :
  (_state w = committing \/ _state w = finished ->
     abort w = Exc InvalidStateError w) /\
  (_state w = active \/ _state w = inactive ->
     abort w = _abort None (set_state active w) /\
     ((forall f, f ∈ _rollbackLog w -> undoes call undo f) ->
      listeners_only_watch invoke_listeners ->
      length (_rollbackLog w) < loop_fuel ->
      length (_requests w) < loop_fuel ->
      exists w', abort w = Val tt w' /\ abort_outcome undo None (set_state active w) w') /\
     (forall e w1,
        run_rollbackLog (set_state active w) = Exc e w1 -> abort w = Exc e w1) /\
     (forall w1 e w2,
        run_rollbackLog (set_state active w) = Val tt w1 ->
        abort_requests w1 = Exc e w2 -> abort w = Exc e w2)).
Proof.
  split.
  - intros H. rewrite abort_unfold. destruct (decide _); [reflexivity | tauto].
  - intros H.
    assert (E : abort w = _abort None (set_state active w)).
    { rewrite abort_unfold. destruct (decide _) as [[Hc|Hc]|]; [| |reflexivity];
        destruct H as [H|H]; congruence. }
    rewrite E. split; [reflexivity|]. split; [|split].
    + intros Hf Hil Hlog Hq.
      exact (_abort_undoes call invoke_listeners loop_fuel undo None (set_state active w)
               Hf Hil Hlog Hq).
    + intros e w1 H1. rewrite _abort_unfold, H1. reflexivity.
    + intros w1 e w2 H1 H2. rewrite _abort_unfold, H1. simpl. rewrite H2. reflexivity.
Qed.


(** At most one occurrence, from the bound on what follows each occurrence. *)
Lemma once_from_none_after (t : list Obs) (o : Obs) :
  (forall t1 t2, t = t1 ++ o :: t2 -> o ∉ t2) ->
  forall t1 t2, t = t1 ++ o :: t2 -> (o ∉ t1) /\ (o ∉ t2).
Proof.
  intros H t1 t2 E. split; [|eapply H; eauto].
  intros Hin. apply list_elem_of_split in Hin as (u1 & u2 & ->).
  rewrite <- app_assoc in E. simpl in E.
  apply (H _ _ E). apply elem_of_app. right. left.
Qed.

(** The scheduler of any program makes the world evolve. *)
Lemma run_of_evolves prog n k w0 : sat evolves (run_of prog n k) w0.
Proof.
  apply sat_run_of.
  - exact evolves_respected.
  - exact evolves_complete_fired.
  - exact evolves_abort_fired.
Qed.

(** C3 (amended): when the driver finds the queue drained while the
    transaction is not yet finished and its error is null, it sets the state
    to finished and dispatches one "complete" event on the transaction; when
    the error is not null, or the transaction is already finished (as after
    abort(), which leaves the error null), it dispatches nothing.  Over a
    whole run "complete" fires at most once, leaves the transaction finished,
    and never fires once the transaction is finished. *)
Theorem complete_fires_once_unless_aborted :
  (forall (w : World) skipped rest,
     shift_requests w (_requests w) = (skipped, None, rest) ->
     let w1 := shifted skipped None [] (set_started true w) in
     (_state w <> finished -> error w = None ->
        _start w = (dispatchEvent TTransaction complete_event ;; ret tt)
                     (set_state finished w1)) /\
     (_state w = finished \/ error w <> None ->
        exists w', _start w = Val tt w' /\
                   trace w' = trace w ++ map OSkip skipped /\
                   _state w' = finished)) /\
  (forall prog n k w0,
     match run_of prog n k w0 with
     | Val _ w | Exc _ w =>
         exists t, trace w = trace w0 ++ t /\
           (forall t1 t2, t = t1 ++ complete_fired :: t2 ->
              (complete_fired ∉ t1) /\ (complete_fired ∉ t2)) /\
           (complete_fired ∈ t -> _state w = finished) /\
           (_state w0 = finished -> complete_fired ∉ t)
     | OutOfFuel => True
     end).
Proof.
  split.
  - intros w skipped rest Hshift w1.
    rewrite (_start_eq call invoke_listeners loop_fuel _ _ _ _ Hshift).
    fold w1. rewrite finalize_eq.
    change (_state w1) with (_state w). change (error w1) with (error w).
    split.
    + intros Hnf Herr. destruct (decide _); [contradiction|]. rewrite Herr. reflexivity.
    + intros H. destruct (decide _) as [Hf|Hnf].
      * exists w1. split; [reflexivity|]. split; [|exact Hf].
        unfold w1, shifted. simpl. rewrite app_nil_r. reflexivity.
      * destruct H as [H|H]; [contradiction|].
        destruct (error w); [|contradiction].
        exists (set_state finished w1). split; [reflexivity|]. split; [|reflexivity].
        unfold w1, shifted. simpl. rewrite app_nil_r. reflexivity.
  - intros prog n k w0. pose proof (run_of_evolves prog n k w0) as H. unfold sat in H.
    destruct (run_of prog n k w0) as [[] w|e w|]; [| |exact I];
      destruct H as [t [Ht _ Hc Hf Hd _ _]]; exists t;
      (split; [exact Ht|]); (split; [|split; [exact Hd|intros Hw; apply Hf, Hw]]);
      apply once_from_none_after; intros t1 t2 E; apply (Hc _ _ E).
Qed.

(** C10 (amended): in the committing state a direct abort() throws
    InvalidStateError, yet when the operation of a queued request (with a
    source) throws [e] and the listeners of its "error" event return without
    canceling it, the driver runs the abort procedure with the name of [e].
    When the rollback entries undo store changes and the listeners only
    watch, the whole procedure runs: the rollback entries are applied newest
    first, the error named after [e] is recorded, the pending requests are
    failed, the "abort" event is queued and the state becomes finished; then
    the driver reschedules itself.  The procedure does not catch exceptions:
    when a rollback entry throws, the exception leaves the driver at once,
    with no error recorded, the state not set and no "abort" event queued.
    (The log and the queue are within the bound of the loops.) *)
Theorem failure_while_committing_aborts
    (undo : Closure -> gmap string RawObjectStore -> gmap string RawObjectStore)
    (w : World) skipped operation request rest s e w2 w4 :
  _state w = committing ->
  shift_requests w (_requests w) = (skipped, Some (operation, request), rest) ->
  source (request_at w request) = Some s ->
  call operation (shifted skipped (Some (operation, request)) rest (set_started true w))
    = Exc e w2 ->
  invoke_listeners (TRequest request) error_event
    (observed (ODispatch (TRequest request) error_event)
       (settle_failure request e w2)) = Val false w4 ->
  abort w = Exc InvalidStateError w /\
  _start w = (_abort (Some (name e)) ;; queueTask TaskStart) w4 /\
  ((forall f, f ∈ _rollbackLog w4 -> undoes call undo f) ->
   listeners_only_watch invoke_listeners ->
   length (_rollbackLog w4) < loop_fuel ->
   length (_requests w4) < loop_fuel ->
   exists w5,
     _start w = Val tt (set_tasks (tasks w5 ++ [TaskStart]) w5) /\
     abort_outcome undo (Some (name e)) w4 w5) /\
  (forall e' w5, run_rollbackLog w4 = Exc e' w5 -> _start w = Exc e' w5).
Proof.
  intros Hc Hshift Hs Hop Hl.
  assert (Hs1 : source (request_at
                   (shifted skipped (Some (operation, request)) rest (set_started true w))
                   request) = Some s) by exact Hs.
  split.
  - rewrite abort_unfold. destruct (decide _) as [|Hn]; [reflexivity|].
    exfalso. apply Hn. left. exact Hc.
  - rewrite (_start_eq call invoke_listeners loop_fuel _ _ _ _ Hshift).
    exact (uncanceled_failure_aborts undo _ _ _ _ _ _ _ Hs1 Hop Hl).
Qed.

End Specification.

(** ** The specification over whole runs *)

Lemma elem_of_dequeued e t : e ∈ dequeued t -> OExec e ∈ t \/ OSkip e ∈ t.
Proof.
  unfold dequeued. intros H. apply list_elem_of_omap in H as (o & Ho & Hoe).
  destruct o; try discriminate; injection Hoe as ->; auto.
Qed.

Lemma executed_sublist_dequeued t : executed t `sublist_of` dequeued t.
Proof.
  induction t as [|o t IH]; [constructor|].
  destruct o; cbn; try exact IH.
  - constructor. exact IH.
  - apply sublist_cons. exact IH.
Qed.

(** C1 (amended): the queue is first-in first-out.  [_execRequestAsync]
    puts the new entry at the tail of the queue; a call of the driver takes
    entries off the head, dropping those whose request is already done, up to
    the first entry whose request is not, which is the one it executes; and
    over any run of the scheduler the entries taken off the queue, followed by
    those still queued, are the entries queued at the start followed by those
    pushed since, in that order, the operations executed being those of the
    entries taken off, in the same order.  So requests r1, r2, r3 execute in
    that order, and a request r2a that r2's operation enqueues is queued behind
    r3 and executes after r3. *)
Theorem requests_run_first_in_first_out :
  (forall obj w request w',
     _execRequestAsync obj w = Val request w' ->
     _requests w' = _requests w ++ [(obj_operation obj, request)]) /\
  (forall w skipped found rest,
     shift_requests w (_requests w) = (skipped, found, rest) ->
     _requests w = skipped ++ match found with Some e => [e] | None => [] end ++ rest /\
     Forall (fun e => readyState (request_at w e.2) = done) skipped /\
     (forall e, found = Some e -> readyState (request_at w e.2) <> done)) /\
  (forall prog n k w0,
     match run_of prog n k w0 with
     | Val _ w | Exc _ w =>
         exists t, trace w = trace w0 ++ t /\
           dequeued t ++ _requests w = _requests w0 ++ enqueued t /\
           executed t `sublist_of` dequeued t
     | OutOfFuel => True
     end).
Proof.
  split; [|split].
  - intros obj w request w'. unfold _execRequestAsync, bind, get, throw, modify, ret.
    destruct (decide _); [discriminate|].
    destruct (obj_request obj); intros [= <- <-]; reflexivity.
  - intros w skipped found rest H. split.
    + eapply shift_requests_split, H.
    + eapply shift_requests_skipped, H.
  - intros prog n k w0. pose proof (run_of_evolves prog n k w0) as H. unfold sat in H.
    destruct (run_of prog n k w0) as [[] w|e w|]; [| |exact I];
      destruct H as [t [Ht Hq _ _ _ _ _]]; exists t;
      (split; [exact Ht|split; [exact Hq|apply executed_sublist_dequeued]]).
Qed.

(** C6: when the abort procedure returns, the state is finished and the task
    that dispatches the "abort" event is the last of the task queue; the
    procedure itself has dispatched no "abort" event.  The task, once the
    scheduler runs it, dispatches on the transaction an "abort" event with
    path [database]; whatever runs before it, the state is still finished. *)
Theorem abort_event_is_deferred prog n errName w w' :
  abort_with_of prog n errName w = Val tt w' ->
  _state w' = finished /\
  (exists ts, tasks w' = ts ++ [TaskAbortEvent]) /\
  (exists t, trace w' = trace w ++ t /\ abort_fired ∉ t) /\
  (forall call invoke_listeners loop_fuel,
     run_task call invoke_listeners loop_fuel TaskAbortEvent =
     (dispatchEvent invoke_listeners TTransaction (mkEvent "abort" true false [TDatabase]) ;;
      ret tt)) /\
  (forall k, match run_of prog n k w' with
             | Val _ w'' | Exc _ w'' => _state w'' = finished
             | OutOfFuel => True
             end).
Proof.
  intros H. split; [|split; [|split; [|split]]].
  - eapply _abort_returns_finished, H.
  - unfold abort_with_of in H. rewrite _abort_unfold in H.
    destruct (run_rollbackLog _ _ _) as [[] w1|e w1|]; try discriminate.
    destruct (abort_requests _ _ _) as [[] w2|e w2|]; try discriminate.
    injection H as <-. exists (tasks w2). reflexivity.
  - pose proof (sat_abort_with_of quiet quiet_respected prog n errName w) as Hq.
    unfold sat in Hq. rewrite H in Hq. exact Hq.
  - reflexivity.
  - intros k. pose proof (run_of_evolves prog n k w') as He. unfold sat in He.
    assert (Hf : _state w' = finished) by (eapply _abort_returns_finished, H).
    destruct (run_of prog n k w') as [[] w''|e w''|]; [| |exact I];
      destruct He as [t [_ _ _ Hfin _ _ _]]; apply Hfin, Hf.
Qed.

(** C7 (amended): commit() throws InvalidStateError unless the state is
    active, and otherwise only sets the state to committing: nothing is
    finalized.  The driver goes on running the queue, in the committing state
    as in any other: each call takes entries off the head, drops those whose
    request is already done, and runs the operation of the first whose
    request is not; for a request with a source whose operation returns, the
    value is recorded as the request's result, and once the listeners of its
    "success" event have returned the driver reschedules itself; no
    "complete" fires in such a call.
    Over any run, by the time "complete" fires every entry that was queued at
    the start of the run (at the time of commit()) has been taken off the
    queue by the driver: its operation executed or, its request being done
    already when the driver reached it, dropped without being run. *)
Theorem commit_defers_completion :
  (forall w, _state w <> active -> commit w = Exc InvalidStateError w) /\
  (forall w, _state w = active -> commit w = Val tt (set_state committing w)) /\
  (forall w skipped found rest,
     shift_requests w (_requests w) = (skipped, found, rest) ->
     Forall (fun e => readyState (request_at w e.2) = done) skipped /\
     (forall e, found = Some e -> readyState (request_at w e.2) <> done)) /\
  (forall call invoke_listeners loop_fuel w skipped operation request rest s v w2 c w4,
     shift_requests w (_requests w) = (skipped, Some (operation, request), rest) ->
     source (request_at w request) = Some s ->
     call operation (shifted skipped (Some (operation, request)) rest (set_started true w))
       = Val v w2 ->
     let w3 := observed (ODispatch (TRequest request) success_event)
                 (settle_success request v w2) in
     invoke_listeners (TRequest request) success_event w3 = Val c w4 ->
     request_at w3 request = mkRequest done v None (source (request_at w2 request)) /\
     _start call invoke_listeners loop_fuel w
     = Val tt (set_tasks (tasks w4 ++ [TaskStart]) w4)) /\
  (forall prog n w skipped entry rest,
     shift_requests w (_requests w) = (skipped, Some entry, rest) ->
     match start_of prog n w with
     | Val _ w' | Exc _ w' =>
         exists t, trace w' = trace w ++ map OSkip skipped ++ OExec entry :: t /\
                   complete_fired ∉ t
     | OutOfFuel => True
     end) /\
  (forall prog n k w0,
     match run_of prog n k w0 with
     | Val _ w | Exc _ w =>
         exists t, trace w = trace w0 ++ t /\
           forall t1 t2, t = t1 ++ complete_fired :: t2 ->
             _requests w0 `prefix_of` dequeued t1 /\
             Forall (fun e => OExec e ∈ t1 \/ OSkip e ∈ t1) (_requests w0)
     | OutOfFuel => True
     end).
Proof.
  split; [|split; [|split; [|split; [|split]]]].
  - intros w H. unfold commit, bind, get, throw. destruct (decide _); [reflexivity|contradiction].
  - intros w H. unfold commit, bind, get, modify. destruct (decide _); [contradiction|reflexivity].
  - intros w skipped found rest H. eapply shift_requests_skipped, H.
  - intros call invoke_listeners loop_fuel w skipped operation request rest s v w2 c w4
           Hshift Hs Hop w3 Hl.
    assert (Hs1 : source (request_at
                     (shifted skipped (Some (operation, request)) rest (set_started true w))
                     request) = Some s) by exact Hs.
    split.
    + unfold w3, observed, settle_success, reactivate, request_at.
      destruct (decide _); simpl; rewrite lookup_total_insert_eq; reflexivity.
    + rewrite (_start_eq call invoke_listeners loop_fuel _ _ _ _ Hshift).
      exact (run_request_success call invoke_listeners loop_fuel
               _ _ _ _ _ _ _ _ Hs1 Hop Hl).
  - intros prog n w skipped entry rest Hshift. unfold start_of.
    rewrite (_start_eq _ _ _ _ _ _ _ Hshift).
    pose proof (sat_run_request calm calm_respected (run_closure prog n) (listeners_of prog n) n
                  (sat_run_closure calm calm_respected prog n)
                  (sat_listeners_of calm calm_respected prog n)
                  entry (shifted skipped (Some entry) rest (set_started true w))) as H.
    unfold sat in H.
    destruct (run_request _ _ _ _ _) as [[] w'|e w'|]; [| |exact I];
      destruct H as (t & Ht & Hn); exists t; (split; [|exact Hn]);
      rewrite Ht; simpl; rewrite <- !app_assoc; reflexivity.
  - intros prog n k w0. pose proof (run_of_evolves prog n k w0) as H. unfold sat in H.
    destruct (run_of prog n k w0) as [[] w|e w|]; [| |exact I];
      destruct H as [t [Ht _ Hc _ _ _ _]]; exists t; (split; [exact Ht|]);
      intros t1 t2 E; destruct (Hc _ _ E) as [Hd _]; rewrite Hd;
      (split; [apply prefix_app_r; reflexivity|]);
      apply Forall_forall; intros entry He; apply elem_of_dequeued;
      rewrite Hd; apply elem_of_app; left; exact He.
Qed.

(** C8: on an active transaction whose handle cache lies within its scope,
    objectStore(name) for a name outside the scope throws NotFoundError
    whatever the database holds.  A new transaction has an empty cache and the
    scope it was given, and any user script and any run of the scheduler keep
    the scope as it is and the cache within it. *)
Theorem objectStore_outside_scope_not_found :
  (forall w name_ db,
     cache_within_scope w -> _state w = active -> name_ ∉ _scope w ->
     objectStore name_ (set_rawObjectStores db w) = Exc NotFoundError (set_rawObjectStores db w)) /\
  (forall storeNames db,
     cache_within_scope (new_FDBTransaction storeNames db) /\
     _scope (new_FDBTransaction storeNames db) = list_to_set storeNames) /\
  (forall prog n s k w0,
     match (script_of prog n s ;; run_of prog n k) w0 with
     | Val _ w | Exc _ w =>
         _scope w = _scope w0 /\ (cache_within_scope w0 -> cache_within_scope w)
     | OutOfFuel => True
     end).
Proof.
  split; [|split].
  - intros w name_ db Hc Ha Hn. unfold objectStore, bind, get, throw. simpl.
    destruct (decide _); [congruence|].
    destruct (_objectStoresCache w !! name_) eqn:E.
    + exfalso. apply Hn, Hc. rewrite E. eauto.
    + destruct (db !! name_); [|reflexivity].
      destruct (decide _); [contradiction|reflexivity].
  - intros storeNames db. split; [|reflexivity].
    intros m [x Hx]. simpl in Hx. rewrite lookup_empty in Hx. discriminate.
  - intros prog n s k w0.
    assert (H : sat evolves (script_of prog n s ;; run_of prog n k) w0).
    { apply (sat_bind evolves evolves_respected).
      - apply sat_script_of, evolves_respected.
      - intros. apply run_of_evolves. }
    unfold sat in H.
    destruct ((script_of prog n s ;; run_of prog n k) w0) as [[] w|e w|]; [| |exact I];
      destruct H as [t [_ _ _ _ _ Hs Hc]]; split; assumption.
Qed.

(** C9: when objectStore(name) returns a handle, calling it again returns the
    very same handle (the same object, not a copy), whatever the database
    holds by then, and changes nothing; and on an active transaction it does
    return one for every name of the scope that the database has a store for. *)
Theorem objectStore_returns_cached_handle (w : World) (name_ : string) :
  (forall h w1,
     objectStore name_ w = Val h w1 ->
     _objectStoresCache w1 !! name_ = Some h /\
     forall db, objectStore name_ (set_rawObjectStores db w1)
                = Val h (set_rawObjectStores db w1)) /\
  (_state w = active -> name_ ∈ _scope w -> is_Some (rawObjectStores w !! name_) ->
   exists h w1, objectStore name_ w = Val h w1).
Proof.
  split.
  - intros h w1. unfold objectStore at 1. unfold bind, get, throw, modify, ret.
    destruct (decide _) as [|Ha]; [discriminate|].
    assert (Hcached : forall w2 h2 db, _state w2 = _state w ->
              _objectStoresCache w2 !! name_ = Some h2 ->
              objectStore name_ (set_rawObjectStores db w2) = Val h2 (set_rawObjectStores db w2)).
    { intros w2 h2 db Hst Hc. unfold objectStore, bind, get, throw, ret. simpl.
      rewrite Hst. destruct (decide _); [contradiction|]. rewrite Hc. reflexivity. }
    destruct (_objectStoresCache w !! name_) as [h0|] eqn:E.
    + intros [= <- <-]. split; [exact E|]. intros db. apply Hcached; auto.
    + destruct (rawObjectStores w !! name_); [|discriminate].
      destruct (decide _); [|discriminate].
      intros [= <- <-]. split.
      * simpl. apply lookup_insert_eq.
      * intros db. apply Hcached; [reflexivity|]. simpl. apply lookup_insert_eq.
  - intros Ha Hin [raw Hraw]. unfold objectStore, bind, get, throw, modify, ret.
    destruct (decide _); [congruence|].
    destruct (_objectStoresCache w !! name_); [eauto|].
    rewrite Hraw. destruct (decide _); [eauto|contradiction].
Qed.

(* ====================================================================== *)
(** * Concrete transactions *)

Lemma nobody_listens_only_watch : listeners_only_watch nobody_listens.
Proof. intros t e w. exists false, (canceled w). destruct w; reflexivity. Qed.

Lemma scenario_undoes f :
  f = 10 \/ f = 11 \/ f = 13 -> undoes (run_closure scenario enough) scenario_undo f.
Proof. intros [->|[->| ->]] w; eexists; reflexivity. Qed.

(** C1, as stated, fails: with r1, r2, r3 queued and r2's operation
    enqueuing r2a, the operations run in the order r1, r2, r3, r2a; r2a does
    not run right after r2 and before r3. *)
Lemma r2a_runs_after_r3 :
  executed (trace (end_of (run_of scenario enough 6) three_requests)) = [r1; r2; r3; r2a] /\
  ~ right_after_then r2 r2a r3
      (executed (trace (end_of (run_of scenario enough 6) three_requests))).
Proof.
  assert (E : executed (trace (end_of (run_of scenario enough 6) three_requests))
              = [r1; r2; r3; r2a]) by (vm_compute; reflexivity).
  split; [exact E|]. rewrite E. intros (pre & post & Hsplit & Hin).
  unfold r1, r2, r3, r2a in Hsplit.
  destruct pre as [|a [|b [|c [|d [|d' pre]]]]]; simpl in Hsplit; discriminate.
Qed.

(** C2, as stated, fails: with the rollback log [11; 12; 13] whose entry 12
    throws, the abort procedure calls 13 and 12 and then stops with the
    failure: 11 is never called, and the transaction is not finished. *)
Lemma rollback_stops_at_a_throw :
  exists w', abort_with_of scenario enough None three_rollbacks
             = Exc (mkError "UndoFailed") w' /\
    rollbacks (trace w') = [13; 12] /\
    rollbacks (trace w') <> reverse (_rollbackLog three_rollbacks) /\
    _state w' = active /\ tasks w' = tasks three_rollbacks.
Proof.
  eexists. split; [vm_compute; reflexivity|].
  repeat split; try (vm_compute; reflexivity).
  vm_compute. discriminate.
Qed.

(** C3, as stated, fails: after abort() the error is still null; the driver
    then drains the queue, and no "complete" event is dispatched. *)
Lemma no_complete_after_user_abort :
  error (end_of (run_of scenario enough 5) aborted_by_user) = None /\
  _requests (end_of (run_of scenario enough 5) aborted_by_user) = [] /\
  tasks (end_of (run_of scenario enough 5) aborted_by_user) = [] /\
  complete_fired ∉ trace (end_of (run_of scenario enough 5) aborted_by_user).
Proof.
  repeat split; try (vm_compute; reflexivity).
  apply (bool_decide_unpack _). vm_compute. reflexivity.
Qed.

(** C4, as stated, fails: the rollback log holds an entry that throws and a
    put fails; no listener cancels its "error" event (there is none), yet the
    transaction is not aborted: the driver throws the entry's exception, the
    state is still active, no error is recorded, no "abort" event is queued,
    and the driver is not rescheduled. *)
Lemma failure_with_bad_undo_is_not_aborted :
  exists w', run_of scenario enough 1 (bad_undo_queued false)
             = Exc (mkError "UndoFailed") w' /\
    listeners w' = [] /\
    req_error (request_at w' 0) = Some (mkError "ConstraintError") /\
    trace w' = [OEnqueue (6, 0); OExec (6, 0); ODispatch (TRequest 0) error_event;
                ORollback 12] /\
    _state w' = active /\ error w' = None /\ tasks w' = [].
Proof.
  eexists. split; [vm_compute; reflexivity|].
  repeat split; vm_compute; reflexivity.
Qed.

(** C5, as stated, fails: abort() on an active (or inactive) transaction
    whose rollback log [11; 12; 13] has an entry that throws does not
    succeed: it throws the entry's exception and leaves the state active,
    not finished. *)
Lemma abort_throws_when_a_rollback_throws :
  (_state three_rollbacks = active /\
   exists w', abort_of scenario enough three_rollbacks = Exc (mkError "UndoFailed") w' /\
              _state w' = active /\ _state w' <> finished) /\
  (_state (set_state inactive three_rollbacks) = inactive /\
   exists w', abort_of scenario enough (set_state inactive three_rollbacks)
              = Exc (mkError "UndoFailed") w' /\
              _state w' = active /\ _state w' <> finished).
Proof.
  split; (split; [vm_compute; reflexivity|]); eexists;
    (split; [vm_compute; reflexivity|]);
    (split; [vm_compute; reflexivity|vm_compute; discriminate]).
Qed.

(** C7, as stated, fails: the same request object is queued twice, with
    operations 1 and 3, before commit().  The first entry is executed and
    makes the request done; the driver then drops the second entry, and
    "complete" fires although operation 3 has never been executed. *)
Lemma queued_twice_runs_once :
  _state same_request_twice = committing /\
  _requests same_request_twice = [(1, 0); (3, 0)] /\
  trace (end_of (run_of scenario enough 3) same_request_twice)
  = trace same_request_twice ++
    [OExec (1, 0); ODispatch (TRequest 0) success_event; OSkip (3, 0); complete_fired] /\
  executed (trace (end_of (run_of scenario enough 3) same_request_twice)) = [(1, 0)] /\
  ((3, 0) ∉ executed (trace (end_of (run_of scenario enough 3) same_request_twice))).
Proof.
  repeat split; try (vm_compute; reflexivity).
  apply (bool_decide_unpack _). vm_compute. reflexivity.
Qed.

(** C10, as stated, fails: after commit(), with a rollback entry that throws
    in the log, a put fails and no listener cancels its "error" event, yet
    the full abort procedure does not run: the driver throws the entry's
    exception, the state is still committing, no error is recorded and no
    "abort" event is scheduled. *)
Lemma failure_after_commit_with_bad_undo :
  _state (bad_undo_queued true) = committing /\
  exists w', run_of scenario enough 1 (bad_undo_queued true)
             = Exc (mkError "UndoFailed") w' /\
    listeners w' = [] /\
    req_error (request_at w' 0) = Some (mkError "ConstraintError") /\
    rollbacks (trace w') = [12] /\
    _state w' = committing /\ error w' = None /\ tasks w' = [].
Proof.
  split; [vm_compute; reflexivity|].
  eexists. split; [vm_compute; reflexivity|].
  repeat split; vm_compute; reflexivity.
Qed.

(** A fourth request enqueued behind r1, r2, r3 is the last of the queue. *)
Lemma enqueue_goes_to_the_tail :
  _execRequestAsync (mkRequestObj (Some store_A) 4 None) three_requests
  = Val 3 (end_of (_execRequestAsync (mkRequestObj (Some store_A) 4 None)) three_requests) /\
  _requests (end_of (_execRequestAsync (mkRequestObj (Some store_A) 4 None)) three_requests)
  = _requests three_requests ++ [r2a].
Proof.
  assert (H : _execRequestAsync (mkRequestObj (Some store_A) 4 None) three_requests
              = Val 3 (end_of (_execRequestAsync (mkRequestObj (Some store_A) 4 None))
                         three_requests)) by (vm_compute; reflexivity).
  split; [exact H|].
  exact (proj1 requests_run_first_in_first_out _ _ _ _ H).
Defined.

(** The rollback log [11; 13]: 13 is called, then 11, and the stores end
    with their two changes in that order. *)
Lemma two_rollbacks_run_in_reverse :
  (forall f, f ∈ _rollbackLog two_rollbacks ->
     leaves_log_alone (run_closure scenario enough) f) /\
  length (_rollbackLog two_rollbacks) < enough /\
  (exists w', run_rollbackLog (run_closure scenario enough) enough two_rollbacks = Val tt w' /\
              trace w' = trace two_rollbacks ++ map ORollback [13; 11]) /\
  exists w', run_rollbackLog (run_closure scenario enough) enough two_rollbacks = Val tt w' /\
             rawObjectStores w' !! "undone" = Some [13; 11].
Proof.
  assert (H1 : forall f, f ∈ _rollbackLog two_rollbacks ->
                 leaves_log_alone (run_closure scenario enough) f).
  { intros f Hf w.
    apply elem_of_cons in Hf as [->|Hf]; [vm_compute; split; reflexivity|].
    apply elem_of_cons in Hf as [->|Hf]; [vm_compute; split; reflexivity|].
    inversion Hf. }
  assert (H2 : length (_rollbackLog two_rollbacks) < enough) by (vm_compute; lia).
  assert (H3 : forall f, f ∈ _rollbackLog two_rollbacks ->
                 undoes (run_closure scenario enough) scenario_undo f).
  { intros f Hf. apply scenario_undoes.
    apply elem_of_cons in Hf as [->|Hf]; [tauto|].
    apply elem_of_cons in Hf as [->|Hf]; [tauto|]. inversion Hf. }
  split; [exact H1|]. split; [exact H2|].
  destruct (rollback_runs_in_reverse_until_a_throw
              (run_closure scenario enough) (listeners_of scenario enough) enough
              scenario_undo two_rollbacks None H1 H2) as (H & _ & Hundo).
  assert (E : run_rollbackLog (run_closure scenario enough) enough two_rollbacks
              = Val tt (end_of (run_rollbackLog (run_closure scenario enough) enough)
                          two_rollbacks)) by (vm_compute; reflexivity).
  split.
  - exists (end_of (run_rollbackLog (run_closure scenario enough) enough) two_rollbacks).
    split; [exact E|]. rewrite E in H. exact H.
  - eexists. split; [exact (Hundo H3)|]. vm_compute. reflexivity.
Defined.

(** A new transaction with nothing queued: the driver fires "complete". *)
Lemma drained_queue_fires_complete :
  shift_requests tx_A (_requests tx_A) = ([], None, []) /\
  _state tx_A <> finished /\ error tx_A = None /\
  start_of scenario enough tx_A
  = (dispatchEvent (listeners_of scenario enough) TTransaction complete_event ;; ret tt)
      (set_state finished (shifted [] None [] (set_started true tx_A))).
Proof.
  assert (H1 : shift_requests tx_A (_requests tx_A) = ([], None, [])) by reflexivity.
  assert (H2 : _state tx_A <> finished) by discriminate.
  assert (H3 : error tx_A = None) by reflexivity.
  split; [exact H1|]. split; [exact H2|]. split; [exact H3|].
  exact (proj1 (proj1 (complete_fires_once_unless_aborted
                         (run_closure scenario enough) (listeners_of scenario enough) enough)
                  tx_A [] [] H1) H2 H3).
Defined.

(** The failing put on the active transaction, when nobody listens: the
    driver aborts the transaction with ConstraintError, undoing the first
    put.  With a listener that calls preventDefault (closure 20), it only
    reschedules itself. *)
Lemma uncaught_failure_aborts :
  (exists w5,
     _start (run_closure scenario enough) nobody_listens enough failing_put_active
     = Val tt (set_tasks (tasks w5 ++ [TaskStart]) w5) /\
     _state w5 = finished /\
     error w5 = Some (mkError "ConstraintError") /\
     rawObjectStores failing_put_active !! "A" = Some [7] /\
     rawObjectStores w5 !! "A" = Some [] /\
     tasks w5 = tasks failing_put_active ++ [TaskAbortEvent]) /\
  start_of scenario enough (failing_put [("error", 20)])
  = Val tt (set_tasks (tasks (failing_put_heard [("error", 20)]) ++ [TaskStart])
              (failing_put_heard [("error", 20)])).
Proof.
  split.
  - destruct (failed_request_aborts_unless_canceled
                (run_closure scenario enough) nobody_listens enough scenario_undo
                failing_put_active [] 6 1 [] store_A (mkError "ConstraintError")
                (shifted [] (Some (6, 1)) [] (set_started true failing_put_active))
                false (failing_put_unheard failing_put_active))
      as (_ & _ & _ & T); try (vm_compute; reflexivity).
    destruct (T eq_refl) as (_ & Habort & _).
    destruct Habort as (w5 & E & Hout).
    + intros f Hf. apply scenario_undoes. vm_compute in Hf.
      apply elem_of_cons in Hf as [->|Hf]; [tauto|inversion Hf].
    + exact nobody_listens_only_watch.
    + vm_compute. lia.
    + vm_compute. lia.
    + exists w5. split; [exact E|].
      destruct Hout as [Hst Herr Htasks _ Hstores _ _ _].
      split; [exact Hst|]. split; [exact Herr|].
      split; [vm_compute; reflexivity|].
      split; [rewrite Hstores; vm_compute; reflexivity|].
      rewrite Htasks. vm_compute. reflexivity.
  - refine (proj1 (proj2 (proj2
      (failed_request_aborts_unless_canceled
         (run_closure scenario enough) (listeners_of scenario enough) enough scenario_undo
         (failing_put [("error", 20)]) [] 6 1 [] store_A (mkError "ConstraintError")
         (failing_put_thrown [("error", 20)]) true (failing_put_heard [("error", 20)])
         _ _ _ _))) eq_refl);
      vm_compute; reflexivity.
Defined.

(** abort() on a finished transaction throws; on an active one with three
    pending requests and two rollback entries, when nobody listens, it
    succeeds: the entries are applied, 13 then 11, the three requests are
    failed, and the state is finished. *)
Lemma abort_on_two_transactions :
  (_state aborted_by_user = finished /\
   abort_of scenario enough aborted_by_user = Exc InvalidStateError aborted_by_user) /\
  (_state three_requests_two_rollbacks = active /\
   exists w',
     abort (run_closure scenario enough) nobody_listens enough three_requests_two_rollbacks
     = Val tt w' /\
     _state w' = finished /\
     error w' = None /\
     rawObjectStores w' !! "undone" = Some [13; 11] /\
     req_error (request_at w' 0) = Some AbortError /\
     tasks w' = tasks three_requests_two_rollbacks ++ [TaskAbortEvent]).
Proof.
  split.
  - assert (H : _state aborted_by_user = finished) by (vm_compute; reflexivity).
    split; [exact H|].
    apply (proj1 (abort_state_machine
                    (run_closure scenario enough) (listeners_of scenario enough) enough
                    scenario_undo aborted_by_user)).
    right. exact H.
  - assert (H : _state three_requests_two_rollbacks = active) by (vm_compute; reflexivity).
    split; [exact H|].
    destruct (proj2 (abort_state_machine
                       (run_closure scenario enough) nobody_listens enough
                       scenario_undo three_requests_two_rollbacks) (or_introl H))
      as (_ & T & _ & _).
    destruct T as (w' & E & Hout).
    + intros f Hf. apply scenario_undoes. vm_compute in Hf.
      apply elem_of_cons in Hf as [->|Hf]; [tauto|].
      apply elem_of_cons in Hf as [->|Hf]; [tauto|inversion Hf].
    + exact nobody_listens_only_watch.
    + vm_compute. lia.
    + vm_compute. lia.
    + exists w'. split; [exact E|].
      destruct Hout as [Hst Herr Htasks _ Hstores _ Hreq _].
      split; [exact Hst|]. split; [exact Herr|].
      split; [rewrite Hstores; vm_compute; reflexivity|].
      split; [rewrite Hreq; vm_compute; reflexivity|].
      rewrite Htasks. vm_compute. reflexivity.
Defined.

(** _abort("X") on the transaction with three pending requests. *)
Lemma abort_event_waits_for_its_tick :
  abort_with_of scenario enough (Some "X") three_requests
  = Val tt (end_of (abort_with_of scenario enough (Some "X")) three_requests) /\
  _state (end_of (abort_with_of scenario enough (Some "X")) three_requests) = finished.
Proof.
  assert (H : abort_with_of scenario enough (Some "X") three_requests
              = Val tt (end_of (abort_with_of scenario enough (Some "X")) three_requests))
    by (vm_compute; reflexivity).
  split; [exact H|].
  exact (proj1 (abort_event_is_deferred scenario enough (Some "X") three_requests _ H)).
Defined.

(** commit() on an active transaction, and the driver's next call on a
    committed transaction with one request queued: the request is run, its
    result recorded, and no "complete" fires in that call. *)
Lemma commit_with_one_queued :
  (_state three_requests = active /\
   commit three_requests = Val tt (set_state committing three_requests)) /\
  (_state committed_with_one_queued = committing /\
   shift_requests committed_with_one_queued (_requests committed_with_one_queued)
   = ([], Some r1, []) /\
   request_at committed_dispatched 0 = mkRequest done (data 1) None (Some store_A) /\
   start_of scenario enough committed_with_one_queued
   = Val tt (set_tasks (tasks committed_heard ++ [TaskStart]) committed_heard) /\
   exists t, trace (end_of (start_of scenario enough) committed_with_one_queued)
             = trace committed_with_one_queued ++ map OSkip [] ++ OExec r1 :: t /\
             complete_fired ∉ t).
Proof.
  split.
  - assert (H : _state three_requests = active) by (vm_compute; reflexivity).
    split; [exact H|].
    exact (proj1 (proj2 commit_defers_completion) three_requests H).
  - assert (H : shift_requests committed_with_one_queued (_requests committed_with_one_queued)
                = ([], Some r1, [])) by (vm_compute; reflexivity).
    split; [vm_compute; reflexivity|]. split; [exact H|].
    destruct (proj1 (proj2 (proj2 (proj2 commit_defers_completion)))
                (run_closure scenario enough) (listeners_of scenario enough) enough
                committed_with_one_queued [] 1 0 [] store_A (data 1) committed_returned
                false committed_heard H)
      as [Hreq Hstart]; try (vm_compute; reflexivity).
    split; [etransitivity; [exact Hreq|vm_compute; reflexivity]|].
    split; [exact Hstart|].
    pose proof (proj1 (proj2 (proj2 (proj2 (proj2 commit_defers_completion))))
                  scenario enough committed_with_one_queued [] r1 [] H) as T.
    assert (E : start_of scenario enough committed_with_one_queued
                = Val tt (end_of (start_of scenario enough) committed_with_one_queued))
      by (vm_compute; reflexivity).
    rewrite E in T. exact T.
Defined.

(** The scenario of C7 run to its end: the queued request is executed, and
    "complete" is the last event. *)
Example commit_scenario_runs :
  _state committed_with_one_queued = committing /\
  trace (end_of (run_of scenario enough 3) committed_with_one_queued)
  = [OEnqueue r1; OExec r1; ODispatch (TRequest 0) success_event; complete_fired].
Proof. split; vm_compute; reflexivity. Qed.

(** Store "B" is outside the scope of the transaction over "A", even when
    the database has it. *)
Lemma store_B_is_not_found :
  cache_within_scope tx_A /\ _state tx_A = active /\ ("B" ∉ _scope tx_A) /\
  objectStore "B" (set_rawObjectStores {["B" := [1; 2]]} tx_A)
  = Exc NotFoundError (set_rawObjectStores {["B" := [1; 2]]} tx_A).
Proof.
  assert (H1 : cache_within_scope tx_A).
  { intros m [x Hx]. vm_compute in Hx. discriminate. }
  assert (H2 : _state tx_A = active) by reflexivity.
  assert (H3 : "B" ∉ _scope tx_A).
  { apply (bool_decide_unpack _). vm_compute. reflexivity. }
  split; [exact H1|]. split; [exact H2|]. split; [exact H3|].
  exact (proj1 objectStore_outside_scope_not_found tx_A "B" _ H1 H2 H3).
Defined.

(** objectStore("A") twice on the transaction over "A". *)
Lemma store_A_handle_is_cached :
  _state tx_A = active /\ "A" ∈ _scope tx_A /\ is_Some (rawObjectStores tx_A !! "A") /\
  exists h w1, objectStore "A" tx_A = Val h w1 /\ objectStore "A" w1 = Val h w1.
Proof.
  assert (H1 : _state tx_A = active) by reflexivity.
  assert (H2 : "A" ∈ _scope tx_A).
  { apply (bool_decide_unpack _). vm_compute. reflexivity. }
  assert (H3 : is_Some (rawObjectStores tx_A !! "A")).
  { exists []. vm_compute. reflexivity. }
  split; [exact H1|]. split; [exact H2|]. split; [exact H3|].
  destruct (proj2 (objectStore_returns_cached_handle tx_A "A") H1 H2 H3) as (h & w1 & E).
  exists h, w1. split; [exact E|].
  destruct (proj1 (objectStore_returns_cached_handle tx_A "A") h w1 E) as [_ Hagain].
  specialize (Hagain (rawObjectStores w1)).
  destruct w1. exact Hagain.
Defined.

(** The failing put after commit(), when nobody listens: abort() would
    throw, but the driver aborts the transaction with ConstraintError,
    undoing the first put. *)
Lemma failure_after_commit_aborts :
  _state (failing_put []) = committing /\
  abort (run_closure scenario enough) nobody_listens enough (failing_put [])
  = Exc InvalidStateError (failing_put []) /\
  exists w5,
    _start (run_closure scenario enough) nobody_listens enough (failing_put [])
    = Val tt (set_tasks (tasks w5 ++ [TaskStart]) w5) /\
    _state w5 = finished /\
    error w5 = Some (mkError "ConstraintError") /\
    rawObjectStores (failing_put []) !! "A" = Some [7] /\
    rawObjectStores w5 !! "A" = Some [] /\
    tasks w5 = tasks (failing_put []) ++ [TaskAbortEvent].
Proof.
  assert (H : _state (failing_put []) = committing) by (vm_compute; reflexivity).
  split; [exact H|].
  destruct (failure_while_committing_aborts
              (run_closure scenario enough) nobody_listens enough scenario_undo
              (failing_put []) [] 6 1 [] store_A (mkError "ConstraintError")
              (shifted [] (Some (6, 1)) [] (set_started true (failing_put [])))
              (failing_put_unheard (failing_put [])) H)
    as (T1 & _ & Habort & _); try (vm_compute; reflexivity).
  split; [exact T1|].
  destruct Habort as (w5 & E & Hout).
  - intros f Hf. apply scenario_undoes. vm_compute in Hf.
    apply elem_of_cons in Hf as [->|Hf]; [tauto|inversion Hf].
  - exact nobody_listens_only_watch.
  - vm_compute. lia.
  - vm_compute. lia.
  - exists w5. split; [exact E|].
    destruct Hout as [Hst Herr Htasks _ Hstores _ _ _].
    split; [exact Hst|]. split; [exact Herr|].
    split; [vm_compute; reflexivity|].
    split; [rewrite Hstores; vm_compute; reflexivity|].
    rewrite Htasks. vm_compute. reflexivity.
Defined.

(* ====================================================================== *)
(** * Further properties of the methods *)

(** ** Methods that call no closure *)

(** X1: [objectStore(name)] either fails and changes nothing, or returns a
    handle and changes at most the cache entry of that name (and the
    allocation counter): a failure is InvalidStateError exactly when the
    transaction is not active, whatever the cache holds, and NotFoundError
    otherwise, when the name is not cached and is outside the scope or
    unknown to the database; a success leaves the state, the queue, the
    requests, the rollback log, the error and the other cache entries as they
    were, and a handle made by this call wraps the raw store the database
    holds under that name. *)
Theorem objectStore_fails_without_effect (name_ : string) (w : World) :
  match objectStore name_ w with
  | Exc e w' =>
      w' = w /\
      if decide (_state w = active)
      then e = NotFoundError /\ _objectStoresCache w !! name_ = None /\
           (name_ ∉ _scope w \/ rawObjectStores w !! name_ = None)
      else e = InvalidStateError
  | Val h w' =>
      _state w = active /\
      w' = set_next_ref (next_ref w') (set_objectStoresCache (_objectStoresCache w') w) /\
      _objectStoresCache w' = <[name_ := h]> (_objectStoresCache w) /\
      match _objectStoresCache w !! name_ with
      | Some h0 => h = h0 /\ w' = w
      | None => name_ ∈ _scope w /\ rawObjectStores w !! name_ = Some (os_raw h) /\
                os_ref h = next_ref w /\ next_ref w' = S (next_ref w)
      end
  | OutOfFuel => False
  end.
Proof.
  unfold objectStore, bind, get, throw, ret, modify.
  destruct (decide (_state w <> active)) as [Hn|Hn].
  - split; [reflexivity|]. destruct (decide (_state w = active)); [contradiction|reflexivity].
  - assert (Ha : _state w = active) by (destruct (decide (_state w = active)); tauto).
    destruct (_objectStoresCache w !! name_) as [h0|] eqn:Hc.
    + split; [exact Ha|]. split; [destruct w; reflexivity|].
      split; [symmetry; apply insert_id; exact Hc|]. split; reflexivity.
    + destruct (rawObjectStores w !! name_) as [raw|] eqn:Hr.
      * destruct (decide (name_ ∈ _scope w)) as [Hs|Hs].
        -- split; [exact Ha|]. repeat split; try reflexivity. exact Hs.
        -- split; [reflexivity|]. destruct (decide (_state w = active)); [|contradiction].
           split; [reflexivity|]. split; [reflexivity|]. left. exact Hs.
      * split; [reflexivity|]. destruct (decide (_state w = active)); [|contradiction].
        split; [reflexivity|]. split; [reflexivity|]. right. reflexivity.
Qed.

(** ** The driver, request by request *)

Section Driver.

Variable call : Closure -> M Value.
Variable invoke_listeners : Target -> FakeEvent -> M bool.
Variable loop_fuel : nat.

Local Abbreviation dispatchEvent := (dispatchEvent invoke_listeners).
Local Abbreviation run_rollbackLog := (run_rollbackLog call loop_fuel).
Local Abbreviation abort_requests := (abort_requests invoke_listeners loop_fuel).
Local Abbreviation _abort := (_abort call invoke_listeners loop_fuel).
Local Abbreviation abort := (abort call invoke_listeners loop_fuel).
Local Abbreviation _start := (_start call invoke_listeners loop_fuel).
Local Abbreviation run_request := (run_request call invoke_listeners loop_fuel).
Local Abbreviation finalize := (finalize invoke_listeners).

(** The request has a source and a listener of its event throws [err]. *)
Lemma run_request_listener_throws operation request w s event w3 err w4 :
  source (request_at w request) = Some s ->
  match call operation w with
  | Val v w2 => event = success_event /\
                w3 = observed (ODispatch (TRequest request) event)
                       (settle_success request v w2)
  | Exc e w2 => event = error_event /\
                w3 = observed (ODispatch (TRequest request) event)
                       (settle_failure request e w2)
  | OutOfFuel => False
  end ->
  invoke_listeners (TRequest request) event w3 = Exc err w4 ->
  run_request (operation, request) w =
  ((if decide (_state w4 <> committing) then _abort (Some "AbortError") else ret tt) ;;
   throw err) w4.
Proof.
  intros Hs Hop Hl.
  cbv beta iota zeta delta [run_request bind get try_catch].
  rewrite Hs.
  destruct (call operation w) as [v w2|e w2|]; [| |contradiction];
    destruct Hop as [-> ->];
    cbv beta iota zeta delta [update_request restore_active modify get bind ret
                              dispatchEvent observe try_catch];
    match goal with
    | |- context [invoke_listeners ?t ?ev ?W] =>
        replace (invoke_listeners t ev W) with (Exc (A:=bool) err w4)
          by (symmetry; exact Hl)
    end;
    cbv beta iota zeta delta [throw];
    destruct (decide (_state w4 <> committing)); try reflexivity;
    destruct (_abort _ w4) as [[] w5|e5 w5|]; reflexivity.
Qed.

(** The request has no source. *)
Lemma run_request_no_source operation request w :
  source (request_at w request) = None ->
  run_request (operation, request) w =
  match call operation w with
  | Val _ w2 => Val tt (set_tasks (tasks w2 ++ [TaskStart]) w2)
  | Exc e w2 => Exc e w2
  | OutOfFuel => OutOfFuel
  end.
Proof.
  intros Hs.
  cbv beta iota zeta delta [run_request bind get].
  rewrite Hs. destruct (call operation w); reflexivity.
Qed.

(** X2: when the operation of a request with a source returns [v], the driver
    sets the request's readyState to done, its result to [v] and its error to
    null, makes an inactive transaction active again, and dispatches on the
    request a "success" event that neither bubbles nor can be canceled.
    Whatever the listeners answer, no abort is run: once they return the
    driver only reschedules itself. *)
Theorem successful_request_never_aborts
    (w : World) skipped operation request rest s v w2 c w4 :
  shift_requests w (_requests w) = (skipped, Some (operation, request), rest) ->
  source (request_at w request) = Some s ->
  call operation (shifted skipped (Some (operation, request)) rest (set_started true w))
    = Val v w2 ->
  let w3 := observed (ODispatch (TRequest request) success_event)
              (settle_success request v w2) in
  invoke_listeners (TRequest request) success_event w3 = Val c w4 ->
  request_at w3 request = mkRequest done v None (source (request_at w2 request)) /\
  (forall r, r <> request -> request_at w3 r = request_at w2 r) /\
  _state w3 = (if decide (_state w2 = inactive) then active else _state w2) /\
  (exists t, trace w3 = t ++ [ODispatch (TRequest request)
                                (mkEvent "success" false false [TDatabase; TTransaction])]) /\
  _start w = Val tt (set_tasks (tasks w4 ++ [TaskStart]) w4).
Proof.
  intros Hshift Hs Hop w3 Hl.
  assert (Hs1 : source (request_at
                   (shifted skipped (Some (operation, request)) rest (set_started true w))
                   request) = Some s) by exact Hs.
  pose proof (run_request_success call invoke_listeners loop_fuel
                _ _ _ _ _ _ _ _ Hs1 Hop Hl) as Hrun.
  rewrite (_start_eq call invoke_listeners loop_fuel _ _ _ _ Hshift).
  split; [|split; [|split; [|split]]].
  - unfold w3, observed, settle_success, reactivate, request_at.
    destruct (decide _); simpl; rewrite lookup_total_insert_eq; reflexivity.
  - intros r Hr. unfold w3, observed, settle_success, reactivate, request_at.
    destruct (decide _); simpl; rewrite lookup_total_insert_ne by congruence; reflexivity.
  - unfold w3, observed, settle_success, reactivate. simpl.
    destruct (decide (_state w2 = inactive)); reflexivity.
  - eexists. reflexivity.
  - exact Hrun.
Qed.

(** X3: when a listener of the event of a request (with a source) throws
    [err], the exception leaves the driver, which is not rescheduled.  While
    the transaction is committing nothing else is done: its state stays
    committing.  In any other state the abort procedure is run first with
    AbortError, and once its two phases have returned the transaction is
    finished, AbortError has been recorded as its error, and its "abort"
    event is queued. *)
Theorem listener_exception_aborts_unless_committing
    (w : World) skipped operation request rest s event w3 err w4 :
  shift_requests w (_requests w) = (skipped, Some (operation, request), rest) ->
  source (request_at w request) = Some s ->
  match call operation
          (shifted skipped (Some (operation, request)) rest (set_started true w)) with
  | Val v w2 => event = success_event /\
                w3 = observed (ODispatch (TRequest request) event)
                       (settle_success request v w2)
  | Exc e w2 => event = error_event /\
                w3 = observed (ODispatch (TRequest request) event)
                       (settle_failure request e w2)
  | OutOfFuel => False
  end ->
  invoke_listeners (TRequest request) event w3 = Exc err w4 ->
  (_state w4 = committing -> _start w = Exc err w4) /\
  (_state w4 <> committing ->
     _start w = (_abort (Some "AbortError") ;; throw err) w4 /\
     forall w5 w6,
       run_rollbackLog w4 = Val tt w5 ->
       abort_requests (record_error (Some "AbortError") w5) = Val tt w6 ->
       _start w = Exc err (finish_abort w6) /\
       error (record_error (Some "AbortError") w5) = Some AbortError /\
       _state (finish_abort w6) = finished /\
       tasks (finish_abort w6) = tasks w6 ++ [TaskAbortEvent]).
Proof.
  intros Hshift Hs Hop Hl.
  assert (Hs1 : source (request_at
                   (shifted skipped (Some (operation, request)) rest (set_started true w))
                   request) = Some s) by exact Hs.
  pose proof (run_request_listener_throws _ _ _ _ _ _ _ _ Hs1 Hop Hl) as Hrun.
  rewrite (_start_eq call invoke_listeners loop_fuel _ _ _ _ Hshift).
  split.
  - intros Hc. rewrite Hrun. destruct (decide _) as [Hn|_]; [contradiction|reflexivity].
  - intros Hn. rewrite Hrun. destruct (decide _) as [_|Hn']; [|contradiction].
    split; [reflexivity|]. intros w5 w6 Hrb Hrq.
    unfold bind. rewrite (_abort_unfold call invoke_listeners loop_fuel), Hrb.
    cbv beta iota. rewrite Hrq. repeat split.
Qed.

(** X4: the operation of a request without a source is run bare: when it
    returns, the driver reschedules itself and does nothing else (the request
    is not updated and no event is dispatched); when it throws, the exception
    leaves the driver as it is: nothing is recorded, no abort is run and the
    driver is not rescheduled. *)
Theorem operation_without_source_runs_bare
    (w : World) skipped operation request rest :
  shift_requests w (_requests w) = (skipped, Some (operation, request), rest) ->
  source (request_at w request) = None ->
  match call operation
          (shifted skipped (Some (operation, request)) rest (set_started true w)) with
  | Val _ w2 => _start w = Val tt (set_tasks (tasks w2 ++ [TaskStart]) w2)
  | Exc e w2 => _start w = Exc e w2
  | OutOfFuel => _start w = OutOfFuel
  end.
Proof.
  intros Hshift Hs.
  assert (Hs1 : source (request_at
                   (shifted skipped (Some (operation, request)) rest (set_started true w))
                   request) = None) by exact Hs.
  rewrite (_start_eq call invoke_listeners loop_fuel _ _ _ _ Hshift).
  rewrite (run_request_no_source _ _ _ Hs1).
  destruct (call operation _); reflexivity.
Qed.

(** A queue of requests that are all done is dropped whole. *)
Lemma shift_requests_all_done w q :
  Forall (fun entry : QueueEntry => readyState (request_at w entry.2) = done) q ->
  shift_requests w q = (q, None, []).
Proof.
  induction 1 as [|entry q Hd _ IH]; simpl; [reflexivity|].
  destruct (decide _) as [Hn|_]; [contradiction|]. rewrite IH. reflexivity.
Qed.

(** X5: a request object that is already done can be enqueued again with a
    new operation, but that operation is never run: when every request queued
    before it is done as well, the next run of the driver drops the whole
    queue, the new entry included, calls no operation and goes on to the end
    of the transaction. *)
Theorem done_request_is_dropped_unrun (obj : RequestObj) (request : Ref) (w : World) :
  _state w = active ->
  obj_request obj = Some request ->
  readyState (request_at w request) = done ->
  Forall (fun entry : QueueEntry => readyState (request_at w entry.2) = done)
    (_requests w) ->
  exists w1,
    _execRequestAsync obj w = Val request w1 /\
    _requests w1 = _requests w ++ [(obj_operation obj, request)] /\
    shift_requests w1 (_requests w1) = (_requests w1, None, []) /\
    _start w1 = finalize (shifted (_requests w1) None [] (set_started true w1)).
Proof.
  intros Ha Hr Hd Hq.
  exists (push_request (obj_operation obj, request) w).
  assert (Hshift : shift_requests (push_request (obj_operation obj, request) w)
                     (_requests (push_request (obj_operation obj, request) w))
                   = (_requests (push_request (obj_operation obj, request) w), None, [])).
  { apply shift_requests_all_done. simpl. apply Forall_app. split; [exact Hq|].
    constructor; [exact Hd|constructor]. }
  split; [|split; [reflexivity|split; [exact Hshift|]]].
  - unfold _execRequestAsync, bind, get, modify, ret. rewrite Hr.
    destruct (decide _) as [Hn|_]; [congruence|reflexivity].
  - rewrite (_start_eq call invoke_listeners loop_fuel _ _ _ _ Hshift). reflexivity.
Qed.

End Driver.

(** ** The abort procedure on the queue *)

Section AbortProcedure.

Variable call : Closure -> M Value.
Variable invoke_listeners : Target -> FakeEvent -> M bool.
Variable loop_fuel : nat.

Local Abbreviation dispatchEvent := (dispatchEvent invoke_listeners).
Local Abbreviation run_rollbackLog := (run_rollbackLog call loop_fuel).
Local Abbreviation abort_request := (abort_request invoke_listeners).
Local Abbreviation abort_requests := (abort_requests invoke_listeners loop_fuel).
Local Abbreviation _abort := (_abort call invoke_listeners loop_fuel).
Local Abbreviation abort_requests_benign := (abort_requests_benign invoke_listeners loop_fuel).
Local Abbreviation _abort_benign := (_abort_benign call invoke_listeners loop_fuel).

(** X6: the loop of the abort procedure over the queue, when the listeners
    only watch (and the queue is within the fuel): it returns, leaving the
    queue in place and every queued request done.  A queued request that was
    pending becomes done; if it has a source it also gets result undefined
    and error AbortError, and one "error" event is dispatched on it (one
    only, also when it is queued twice).  Requests that were done, and
    requests that are not in the queue, are left as they were, and no other
    event is dispatched. *)
Theorem abort_fails_every_pending_request (w : World) :
  listeners_only_watch invoke_listeners ->
  length (_requests w) < loop_fuel ->
  exists w' rs,
    abort_requests w = Val tt w' /\
    _requests w' = _requests w /\
    Forall (fun entry : QueueEntry => readyState (request_at w' entry.2) = done)
      (_requests w') /\
    (forall r, request_at w' r =
               if decide (r ∈ (_requests w).*2) then aborted (request_at w r)
               else request_at w r) /\
    trace w' = trace w ++ map (fun r => ODispatch (TRequest r) error_event) rs /\
    NoDup rs /\
    (forall r, r ∈ rs <-> r ∈ (_requests w).*2 /\ to_fail w r).
Proof using Type.
  clear call.
  intros Hil Hfuel.
  destruct (abort_requests_benign w Hil Hfuel) as (w' & rs & E & Hsame & Hh & Ht & Hnd & Hrs).
  exists w', rs. split; [exact E|].
  assert (Hq : _requests w' = _requests w) by apply Hsame.
  split; [exact Hq|]. split; [|auto].
  rewrite Hq. apply Forall_forall. intros entry Hin. rewrite Hh.
  destruct (decide _) as [_|Hn]; [apply aborted_done|].
  destruct Hn. apply list_elem_of_fmap. exists entry. split; [reflexivity|exact Hin].
Qed.


End AbortProcedure.

(* ====================================================================== *)
(** * Whole runs, with every step in its context *)

Section CarefulRuns.

Variable R : World -> World -> Prop.
Hypothesis HK : Careful R.

Lemma careful_ret {A} (a : A) w : sat R (ret a) w.
Proof. apply (k_refl R HK). Qed.

Lemma careful_throw {A} e w : sat R (@throw A e) w.
Proof. apply (k_refl R HK). Qed.

Lemma careful_get w : sat R get w.
Proof. apply (k_refl R HK). Qed.

Lemma careful_gets {A} (f : World -> A) w : sat R (gets f) w.
Proof. apply (k_refl R HK). Qed.

Lemma careful_bind {A B} (m : M A) (k : A -> M B) w :
  sat R m w ->
  (forall a w', m w = Val a w' -> sat R (k a) w') ->
  sat R (bind m k) w.
Proof.
  unfold sat, bind. intros Hm Hk.
  destruct (m w) as [a w'|e w'|]; [|exact Hm|exact I].
  specialize (Hk a w' eq_refl).
  destruct (k a w') as [b w''|e w''|]; [| |exact I];
    eapply (k_trans R HK); eauto.
Qed.

Lemma careful_try_catch {A} (m : M A) (h : JsError -> M A) w :
  sat R m w ->
  (forall e w', m w = Exc e w' -> sat R (h e) w') ->
  sat R (try_catch m h) w.
Proof.
  unfold sat, try_catch. intros Hm Hh.
  destruct (m w) as [a w'|e w'|]; [exact Hm| |exact I].
  specialize (Hh e w' eq_refl).
  destruct (h e w') as [b w''|e' w''|]; [| |exact I];
    eapply (k_trans R HK); eauto.
Qed.

Lemma careful_for_of {A} (arr : World -> list A) (body : A -> M unit) :
  (forall x w, sat R (body x) w) ->
  forall fuel i w, sat R (for_of arr body fuel i) w.
Proof.
  intros Hbody. induction fuel as [|fuel IH]; intros i w; [exact I|].
  unfold sat. simpl. destruct (arr w !! i) as [x|] eqn:E.
  - apply careful_bind; [apply Hbody|]. intros _ w' _. apply IH.
  - apply (k_refl R HK).
Qed.

Lemma careful_queueTask t w : sat R (queueTask t) w.
Proof. apply (k_tasks R HK). Qed.

Lemma careful_commit w : sat R commit w.
Proof.
  unfold commit. apply careful_bind; [apply careful_get|]. intros a w' [= <- <-].
  destruct (decide _) as [|Hn]; [apply careful_throw|].
  apply (k_commit R HK). stable_eq.
Qed.

Lemma careful_objectStore n w : sat R (objectStore n) w.
Proof.
  unfold objectStore. apply careful_bind; [apply careful_get|]. intros a w' [= <- <-].
  destruct (decide _) as [|Ha]; [apply careful_throw|].
  assert (Hact : _state w = active) by stable_eq.
  destruct (_objectStoresCache w !! n) eqn:Hc; [apply careful_ret|].
  destruct (rawObjectStores w !! n); [|apply careful_throw].
  destruct (decide _) as [Hin|]; [|apply careful_throw].
  apply careful_bind; [apply (k_handle R HK), Hact|]. intros [] w' [= <-].
  apply careful_bind; [|intros; apply careful_ret].
  apply (k_cache R HK); [exact Hact|exact Hin|exact Hc].
Qed.

Lemma careful__execRequestAsync obj w : sat R (_execRequestAsync obj) w.
Proof.
  unfold _execRequestAsync. apply careful_bind; [apply careful_get|]. intros a w' [= <- <-].
  destruct (decide _) as [|Ha]; [apply careful_throw|].
  assert (Hact : _state w = active) by stable_eq.
  apply careful_bind.
  - destruct (obj_request obj); [apply careful_ret|].
    apply careful_bind; [|intros; apply careful_ret].
    apply (k_alloc R HK); [exact Hact|reflexivity].
  - intros r w' Hw'. apply careful_bind; [|intros; apply careful_ret].
    apply (k_push R HK).
    destruct (obj_request obj); [injection Hw' as <- <-; exact Hact|].
    unfold bind, modify, ret in Hw'. injection Hw' as <- <-. exact Hact.
Qed.

(** The methods that call closures, for closures that respect [R]. *)
Section CarefulClosures.

Variable call : Closure -> M Value.
Variable invoke_listeners : Target -> FakeEvent -> M bool.
Variable loop_fuel : nat.
Hypothesis call_sat : forall f w, sat R (call f) w.
Hypothesis listeners_sat : forall t e w, sat R (invoke_listeners t e) w.

Lemma careful_dispatch_request r e w :
  sat R (dispatchEvent invoke_listeners (TRequest r) e) w.
Proof.
  unfold dispatchEvent, observe. apply careful_bind; [|intros; apply listeners_sat].
  apply (k_dispatch R HK).
Qed.

Lemma careful_run_rollbackLog w : sat R (run_rollbackLog call loop_fuel) w.
Proof.
  unfold run_rollbackLog. apply careful_bind; [apply (k_rollbackLog R HK)|].
  intros _ w' _. apply careful_for_of. intros f w1.
  apply careful_bind; [apply (k_rollback R HK)|].
  intros _ w2 _. apply careful_bind; [apply call_sat|]. intros; apply careful_ret.
Qed.

Lemma careful_abort_request entry w : sat R (abort_request invoke_listeners entry) w.
Proof.
  unfold abort_request. apply careful_bind; [apply careful_get|]. intros a w' [= <- <-].
  destruct (decide _); [|apply careful_ret].
  apply careful_bind; [apply (k_settle R HK); reflexivity|]. intros [] w1 [= <-].
  destruct (source _); [|apply careful_ret].
  apply careful_bind.
  { apply (k_settle R HK). unfold request_at. simpl.
    rewrite lookup_total_insert_eq. reflexivity. }
  intros _ w2 _.
  apply careful_bind; [apply careful_dispatch_request|]. intros; apply careful_ret.
Qed.

Lemma careful_abort_requests w : sat R (abort_requests invoke_listeners loop_fuel) w.
Proof. apply careful_for_of, careful_abort_request. Qed.

Lemma careful__abort errName w : sat R (_abort call invoke_listeners loop_fuel errName) w.
Proof.
  unfold _abort. apply careful_bind; [apply careful_run_rollbackLog|]. intros _ w1 _.
  apply careful_bind.
  { destruct errName; [apply (k_error R HK)|apply careful_ret]. }
  intros _ w2 _. apply careful_bind; [apply careful_abort_requests|]. intros _ w3 _.
  apply careful_bind; [apply careful_queueTask|]. intros _ w4 _.
  apply (k_finish R HK).
Qed.

Lemma careful_abort w : sat R (abort call invoke_listeners loop_fuel) w.
Proof.
  unfold abort. apply careful_bind; [apply careful_get|]. intros a w' [= <- <-].
  destruct (decide _) as [|Hn]; [apply careful_throw|].
  apply careful_bind; [|intros; apply careful__abort].
  apply (k_reactivate R HK); tauto.
Qed.

Lemma careful_restore_active w : sat R restore_active w.
Proof.
  unfold restore_active, sat, modify, reactivate.
  destruct (decide _) as [Hi|]; [|apply (k_refl R HK)].
  apply (k_reactivate R HK); congruence.
Qed.

Lemma careful_run_request entry w :
  sat R (run_request call invoke_listeners loop_fuel entry) w.
Proof.
  destruct entry as [operation request]. unfold run_request.
  apply careful_bind; [apply careful_get|]. intros a w' [= <- <-].
  apply careful_bind; [|intros; apply careful_queueTask].
  destruct (source _).
  - apply careful_bind.
    { apply careful_try_catch.
      - apply careful_bind; [apply call_sat|]. intros v w2 _.
        apply careful_bind; [apply (k_settle R HK); reflexivity|]. intros _ w3 _.
        apply careful_bind; [apply careful_restore_active|]. intros; apply careful_ret.
      - intros e w2 _.
        apply careful_bind; [apply (k_settle R HK); reflexivity|]. intros _ w3 _.
        apply careful_bind; [apply careful_restore_active|]. intros; apply careful_ret. }
    intros [event defaultAction] w2 _.
    apply careful_bind.
    { apply careful_try_catch; [apply careful_dispatch_request|].
      intros e w3 _. apply careful_bind; [apply careful_get|]. intros a w' [= <- <-].
      apply careful_bind; [|intros; apply careful_throw].
      destruct (decide _); [apply careful__abort|apply careful_ret]. }
    intros canceled w3 _.
    destruct (negb canceled); [|apply careful_ret].
    destruct defaultAction; [apply careful__abort|apply careful_ret].
  - apply careful_bind; [apply call_sat|]. intros; apply careful_ret.
Qed.

Lemma careful_shifted w skipped found rest :
  shift_requests w (_requests w) = (skipped, found, rest) ->
  R w (shifted skipped found rest (set_started true w)).
Proof.
  intros H. eapply (k_trans R HK); [apply (k_started R HK)|].
  apply (k_shifted R HK). change (_requests (set_started true w)) with (_requests w).
  rewrite shift_requests_started. exact H.
Qed.

Lemma careful_finalize w : _requests w = [] -> sat R (finalize invoke_listeners) w.
Proof.
  intros Hq. unfold finalize. apply careful_bind; [apply careful_get|]. intros a w' [= <- <-].
  destruct (decide _) as [Hnf|]; [|apply careful_ret].
  destruct (error _) eqn:Herr.
  - apply careful_bind; [|intros; apply careful_ret]. apply (k_finish R HK).
  - pose proof (k_complete R HK w Hnf Hq Herr) as Hc.
    pose proof (listeners_sat TTransaction complete_event
                  (set_trace (trace w ++ [complete_fired]) (set_state finished w))) as Hl.
    unfold sat in *.
    cbv beta iota zeta delta [bind modify dispatchEvent observe ret].
    change (set_trace (trace (set_state finished w) ++ [ODispatch TTransaction complete_event])
              (set_state finished w))
      with (set_trace (trace w ++ [complete_fired]) (set_state finished w)).
    destruct (invoke_listeners _ _ _) as [c w2|e w2|]; [| |exact I];
      eapply (k_trans R HK); eauto.
Qed.

Lemma careful__start w : sat R (_start call invoke_listeners loop_fuel) w.
Proof.
  destruct (shift_requests w (_requests w)) as [[skipped [entry|]] rest] eqn:H.
  - unfold sat. rewrite _start_unfold, H.
    pose proof (careful_run_request entry
                  (shifted skipped (Some entry) rest (set_started true w))) as Hr.
    unfold sat in Hr. cbv zeta.
    destruct (run_request _ _ _ _ _) as [a w'|e w'|]; [| |exact I];
      (eapply (k_trans R HK); [apply careful_shifted, H|exact Hr]).
  - unfold sat. rewrite _start_unfold, H. cbv zeta.
    assert (Hrest : rest = []) by (eapply shift_requests_drained; eauto). subst rest.
    pose proof (careful_finalize (shifted skipped None [] (set_started true w)) eq_refl) as Hf.
    unfold sat in Hf.
    destruct (finalize _ _) as [a w'|e w'|]; [| |exact I];
      (eapply (k_trans R HK); [apply careful_shifted, H|exact Hf]).
Qed.

End CarefulClosures.

(** The scripts: listeners and closure bodies. *)
Section CarefulScripts.

Variable call : Closure -> M Value.
Variable fuel : nat.
Hypothesis call_sat : forall f w, sat R (call f) w.

Lemma careful_call_each cbs w : sat R (call_each call cbs) w.
Proof.
  revert w. induction cbs as [|cb cbs IH]; intros w; simpl; [apply careful_ret|].
  apply careful_bind; [apply call_sat|]. intros; apply IH.
Qed.

Lemma careful_dispatch_to_listeners t e w : sat R (dispatch_to_listeners call t e) w.
Proof.
  unfold dispatch_to_listeners. apply careful_bind; [apply careful_get|].
  intros a w' [= <- <-].
  apply careful_bind; [apply (k_canceled R HK)|]. intros _ w1 _.
  apply careful_bind.
  { apply careful_try_catch; [apply careful_call_each|]. intros err w2 _.
    apply careful_bind; [apply (k_canceled R HK)|]. intros; apply careful_throw. }
  intros _ w2 _. apply careful_bind; [apply careful_gets|]. intros c w3 _.
  apply careful_bind; [apply (k_canceled R HK)|]. intros; apply careful_ret.
Qed.

Lemma careful_run_action a w : sat R (run_action call fuel a) w.
Proof.
  destruct a; simpl.
  - apply careful_bind; [apply careful__execRequestAsync|]. intros r w1 _.
    apply careful_bind; [apply (k_listeners R HK)|]. intros; apply careful_ret.
  - apply careful_bind; [|intros; apply careful_ret].
    apply careful_abort; [exact call_sat|exact careful_dispatch_to_listeners].
  - apply careful_bind; [|intros; apply careful_ret].
    apply careful__abort; [exact call_sat|exact careful_dispatch_to_listeners].
  - apply careful_bind; [apply careful_commit|]. intros; apply careful_ret.
  - apply careful_bind; [apply careful_objectStore|]. intros; apply careful_ret.
  - apply careful_bind; [apply (k_rollbackLog R HK)|]. intros; apply careful_ret.
  - apply careful_bind; [apply (k_listeners R HK)|]. intros; apply careful_ret.
  - apply careful_bind; [apply (k_canceled R HK)|]. intros; apply careful_ret.
  - apply careful_bind; [apply (k_rawObjectStores R HK)|]. intros; apply careful_ret.
  - apply careful_bind; [apply (k_rawObjectStores R HK)|]. intros; apply careful_ret.
  - apply careful_try_catch; [|intros; apply careful_ret].
    apply careful_bind; [apply call_sat|]. intros; apply careful_ret.
  - apply careful_throw.
  - apply careful_ret.
Qed.

Lemma careful_run_script s w : sat R (run_script call fuel s) w.
Proof.
  revert w. induction s as [|a s IH]; intros w; simpl; [apply careful_ret|].
  apply careful_bind; [apply careful_run_action|].
  intros [v|] w' _; [apply careful_ret|apply IH].
Qed.

End CarefulScripts.

Lemma careful_run_closure prog n f w : sat R (run_closure prog n f) w.
Proof.
  revert f w. induction n as [|n IH]; intros f w; [exact I|].
  simpl. apply careful_run_script. exact IH.
Qed.

Lemma careful_listeners_of prog n t e w : sat R (listeners_of prog n t e) w.
Proof. apply careful_dispatch_to_listeners, careful_run_closure. Qed.

Lemma careful_script_of prog n s w : sat R (script_of prog n s) w.
Proof. apply careful_run_script, careful_run_closure. Qed.

Lemma careful_tick_of prog n w : sat R (tick_of prog n) w.
Proof.
  unfold tick_of, tick. apply careful_bind; [apply careful_get|]. intros a w' [= <- <-].
  destruct (tasks w) as [|t rest]; [apply careful_ret|].
  apply careful_bind; [apply (k_tasks R HK)|]. intros _ w1 _.
  apply careful_bind; [|intros; apply careful_ret].
  destruct t; simpl.
  - apply careful__start; [apply careful_run_closure|apply careful_listeners_of].
  - apply careful_bind; [|intros; apply careful_ret].
    unfold dispatchEvent, observe.
    apply careful_bind; [|intros; apply careful_listeners_of].
    apply (k_abort_fired R HK).
Qed.

Lemma careful_run_of prog n k w : sat R (run_of prog n k) w.
Proof.
  revert w. induction k as [|k IH]; intros w; [apply careful_ret|].
  unfold run_of. simpl. apply careful_bind; [apply careful_tick_of|].
  intros [] w' _; [apply IH|apply careful_ret].
Qed.

(** A piece of user code, then any number of ticks of the scheduler. *)
Lemma careful_session prog n s k w :
  sat R (script_of prog n s ;; run_of prog n k) w.
Proof. apply careful_bind; [apply careful_script_of|]. intros. apply careful_run_of. Qed.

End CarefulRuns.

(** ** The error, once set *)

Lemma error_stays_step w w' t :
  (is_Some (error w) -> is_Some (error w')) ->
  trace w' = trace w ++ t ->
  complete_fired ∉ t ->
  error_stays w w'.
Proof. intros He Ht Hn Hs. split; [exact (He Hs)|]. exists t. split; assumption. Qed.

Lemma error_stays_careful : Careful error_stays.
Proof.
  constructor;
    try (intros; apply (error_stays_step _ _ []);
         [exact id || (intros; simpl; eauto)
         |simpl; rewrite app_nil_r; reflexivity|apply not_elem_of_nil]);
    try (intros; eapply (error_stays_step _ _ [_]);
         [exact id|reflexivity|];
         intros Hin; apply list_elem_of_singleton in Hin; discriminate).
  - intros w1 w2 w3 H12 H23 Hs. destruct (H12 Hs) as (Hs2 & ta & Ha & Hna).
    destruct (H23 Hs2) as (Hs3 & tb & Hb & Hnb). split; [exact Hs3|].
    exists (ta ++ tb). split.
    + rewrite Hb, Ha, app_assoc. reflexivity.
    + intros Hin. apply elem_of_app in Hin as [|]; contradiction.
  - intros w skipped found rest _. eapply error_stays_step; [exact id|reflexivity|].
    intros Hin. apply elem_of_app in Hin as [Hin|Hin].
    + eapply complete_not_skip, Hin.
    + destruct found; [|inversion Hin].
      apply list_elem_of_singleton in Hin. discriminate.
  - intros w _ _ He [x Hx]. congruence.
Qed.

(** X8: the error of a transaction is never cleared.  When the abort
    procedure, run with an error name, returns, the transaction has an error;
    and from any transaction that has one, whatever user code and whatever
    tasks run afterwards, it still has one (a later abort may replace it) and
    no "complete" event is ever dispatched. *)
Theorem error_is_never_cleared (prog : Closure -> Script) (n : nat) :
  (forall errName w w',
     abort_with_of prog n (Some errName) w = Val tt w' -> is_Some (error w')) /\
  (forall s k w0,
     is_Some (error w0) ->
     match (script_of prog n s ;; run_of prog n k) w0 with
     | Val _ w | Exc _ w =>
         is_Some (error w) /\
         exists t, trace w = trace w0 ++ t /\ complete_fired ∉ t
     | OutOfFuel => True
     end).
Proof.
  split.
  - intros errName w w'. unfold abort_with_of. rewrite _abort_unfold.
    destruct (run_rollbackLog _ _ _) as [[] w1|e w1|]; try discriminate.
    pose proof (careful_abort_requests error_stays error_stays_careful
                  (listeners_of prog n) n
                  (careful_listeners_of error_stays error_stays_careful prog n)
                  (record_error (Some errName) w1)) as H.
    unfold sat in H.
    destruct (abort_requests _ _ _) as [[] w2|e w2|]; try discriminate.
    intros [= <-]. apply H. simpl. eauto.
  - intros s k w0 Hs.
    pose proof (careful_session error_stays error_stays_careful prog n s k w0) as H.
    unfold sat in H.
    destruct ((script_of prog n s ;; run_of prog n k) w0) as [[] w|e w|]; [| |exact I];
      exact (H Hs).
Qed.

(** ** The handle cache *)

Lemma cache_grows_same w w' :
  _objectStoresCache w' = _objectStoresCache w -> cache_grows w w'.
Proof. intros E m h H. rewrite E. exact H. Qed.

Lemma cache_grows_careful : Careful cache_grows.
Proof.
  constructor; try (intros; apply cache_grows_same; reflexivity).
  - intros w1 w2 w3 H12 H23 m h H. apply H23, H12, H.
  - intros w m o _ _ Hnone m' h H. simpl.
    destruct (decide (m' = m)) as [->|Hne]; [congruence|].
    rewrite lookup_insert_ne by congruence. exact H.
Qed.

(** A handle that [objectStore] returns is in the cache. *)
Lemma objectStore_caches name_ w h w1 :
  objectStore name_ w = Val h w1 -> _objectStoresCache w1 !! name_ = Some h.
Proof.
  unfold objectStore, bind, get, throw, modify, ret.
  destruct (decide _); [discriminate|].
  destruct (_objectStoresCache w !! name_) as [h0|] eqn:E.
  - intros [= <- <-]. exact E.
  - destruct (rawObjectStores w !! name_); [|discriminate].
    destruct (decide _); [|discriminate].
    intros [= <- <-]. simpl. apply lookup_insert_eq.
Qed.

(** X9: a store name has one handle for the life of the transaction: once
    objectStore(name) has returned a handle, that handle stays in the cache
    under that name whatever user code and whatever tasks run afterwards, so
    that objectStore(name), whenever it is called on the transaction while it
    is active, returns that very handle and changes nothing. *)
Theorem handle_is_for_life (prog : Closure -> Script) (n : nat) (s : Script) (k : nat)
    (name_ : string) (h : FDBObjectStore) (w w1 : World) :
  objectStore name_ w = Val h w1 ->
  match (script_of prog n s ;; run_of prog n k) w1 with
  | Val _ w2 | Exc _ w2 =>
      _objectStoresCache w2 !! name_ = Some h /\
      (_state w2 = active -> objectStore name_ w2 = Val h w2)
  | OutOfFuel => True
  end.
Proof.
  intros Hget. apply objectStore_caches in Hget.
  pose proof (careful_session cache_grows cache_grows_careful prog n s k w1) as H.
  unfold sat in H.
  assert (Hcall : forall w2, _objectStoresCache w2 !! name_ = Some h ->
            _state w2 = active -> objectStore name_ w2 = Val h w2).
  { intros w2 Hc Ha. unfold objectStore, bind, get, throw, ret.
    destruct (decide _); [congruence|]. rewrite Hc. reflexivity. }
  destruct ((script_of prog n s ;; run_of prog n k) w1) as [[] w2|e w2|]; [| |exact I];
    (split; [apply H, Hget|apply Hcall, H, Hget]).
Qed.

(** ** After commit() *)

Lemma sealed_step w w' t :
  (_state w = committing \/ _state w = finished ->
   _state w' = committing \/ _state w' = finished) ->
  _objectStoresCache w' = _objectStoresCache w ->
  next_ref w' = next_ref w ->
  trace w' = trace w ++ t ->
  enqueued t = [] ->
  dequeued t ++ _requests w' = _requests w ->
  sealed w w'.
Proof. intros Hs Hc Hn Ht He Hd H. split; [exact (Hs H)|]. eauto 10. Qed.

Lemma sealed_careful : Careful sealed.
Proof.
  constructor;
    try (intros; apply (sealed_step _ _ []);
         [exact id || (intros; simpl; tauto)
         |reflexivity|reflexivity|simpl; rewrite app_nil_r; reflexivity
         |reflexivity|reflexivity]);
    try (intros; eapply (sealed_step _ _ [_]);
         [exact id || (intros; simpl; tauto)
         |reflexivity|reflexivity|reflexivity|reflexivity|reflexivity]);
    try (intros; intros [Hc|Hc]; congruence).
  - intros w1 w2 w3 H12 H23 Hs.
    destruct (H12 Hs) as (Hs2 & Hc2 & Hn2 & ta & Ha & Hea & Hda).
    destruct (H23 Hs2) as (Hs3 & Hc3 & Hn3 & tb & Hb & Heb & Hdb).
    split; [exact Hs3|]. split; [congruence|]. split; [congruence|].
    exists (ta ++ tb). split; [rewrite Hb, Ha, app_assoc; reflexivity|].
    split; [rewrite enqueued_app, Hea, Heb; reflexivity|].
    rewrite dequeued_app, <- app_assoc, Hdb. exact Hda.
  - intros w skipped found rest H. apply shift_requests_split in H.
    eapply sealed_step; [exact id|reflexivity|reflexivity|reflexivity| |].
    + rewrite enqueued_app, enqueued_skips. destruct found; reflexivity.
    + rewrite dequeued_app, dequeued_skips.
      change (_requests (shifted skipped found rest w)) with rest.
      rewrite H. destruct found; cbn; rewrite <- ?app_assoc; reflexivity.
Qed.

(** X10: commit() and abort are final.  On a transaction that is committing
    or finished, _execRequestAsync throws TransactionInactiveError, and
    objectStore and commit throw InvalidStateError, each leaving everything
    as it is; and whatever user code and whatever tasks run, the transaction
    stays committing or finished, no request is enqueued or allocated, no
    handle is cached, and the queue only loses entries, from its head. *)
Theorem nothing_is_added_after_commit :
  (forall w, _state w = committing \/ _state w = finished ->
     (forall obj, _execRequestAsync obj w = Exc TransactionInactiveError w) /\
     (forall name_, objectStore name_ w = Exc InvalidStateError w) /\
     commit w = Exc InvalidStateError w) /\
  (forall prog n s k w0,
     _state w0 = committing \/ _state w0 = finished ->
     match (script_of prog n s ;; run_of prog n k) w0 with
     | Val _ w | Exc _ w =>
         (_state w = committing \/ _state w = finished) /\
         _objectStoresCache w = _objectStoresCache w0 /\
         next_ref w = next_ref w0 /\
         exists t, trace w = trace w0 ++ t /\ enqueued t = [] /\
                   dequeued t ++ _requests w = _requests w0
     | OutOfFuel => True
     end).
Proof.
  split.
  - intros w Hs.
    assert (Hn : _state w <> active) by (destruct Hs; congruence).
    split; [|split].
    + intros obj. unfold _execRequestAsync, bind, get, throw.
      destruct (decide _); [reflexivity|contradiction].
    + intros name_. unfold objectStore, bind, get, throw.
      destruct (decide _); [reflexivity|contradiction].
    + unfold commit, bind, get, throw. destruct (decide _); [reflexivity|contradiction].
  - intros prog n s k w0 Hs.
    pose proof (careful_session sealed sealed_careful prog n s k w0) as H.
    unfold sat in H.
    destruct ((script_of prog n s ;; run_of prog n k) w0) as [[] w|e w|]; [| |exact I];
      exact (H Hs).
Qed.

(** ** After the abort procedure *)

Lemma executed_app t1 t2 : executed (t1 ++ t2) = executed t1 ++ executed t2.
Proof. apply omap_app. Qed.

Lemma executed_skips l : executed (map OSkip l) = [].
Proof. induction l as [|e l IH]; simpl; [reflexivity|]. exact IH. Qed.

Lemma spent_step w w' t :
  (_state w = finished -> _state w' = finished) ->
  (all_done w -> all_done w') ->
  trace w' = trace w ++ t ->
  executed t = [] ->
  spent w w'.
Proof. intros Hs Hd Ht He Hf Ha. split; [exact (Hs Hf)|]. split; [exact (Hd Ha)|]. eauto. Qed.

Lemma all_done_settle w r rq :
  readyState rq = done -> all_done w -> all_done (set_heap (<[r := rq]> (heap w)) w).
Proof.
  intros Hrq Ha. unfold all_done in *. simpl. eapply Forall_impl; [exact Ha|].
  intros entry Hd. unfold request_at in *. simpl.
  destruct (decide (entry.2 = r)) as [->|Hne].
  - rewrite lookup_total_insert_eq. exact Hrq.
  - rewrite lookup_total_insert_ne by congruence. exact Hd.
Qed.

Lemma spent_careful : Careful spent.
Proof.
  constructor;
    try (intros; apply (spent_step _ _ []);
         [exact id || (intros; simpl; tauto)
         |exact id|simpl; rewrite app_nil_r; reflexivity|reflexivity]);
    try (intros; eapply (spent_step _ _ [_]);
         [exact id|exact id|reflexivity|reflexivity]);
    try (intros; intros Hf; congruence).
  - intros w1 w2 w3 H12 H23 Hf Ha.
    destruct (H12 Hf Ha) as (Hf2 & Ha2 & ta & Hta & Hea).
    destruct (H23 Hf2 Ha2) as (Hf3 & Ha3 & tb & Htb & Heb).
    split; [exact Hf3|]. split; [exact Ha3|].
    exists (ta ++ tb). split; [rewrite Htb, Hta, app_assoc; reflexivity|].
    rewrite executed_app, Hea, Heb. reflexivity.
  - intros w skipped found rest H Hf Ha.
    rewrite (shift_requests_all_done w (_requests w) Ha) in H. injection H as <- <- <-.
    split; [exact Hf|]. split; [constructor|].
    eexists. split; [reflexivity|]. rewrite app_nil_r. apply executed_skips.
  - intros w r rq Hrq. apply (spent_step _ _ []);
      [exact id|apply all_done_settle, Hrq|simpl; rewrite app_nil_r; reflexivity|reflexivity].
Qed.

(** X11: once the transaction is finished and every request still queued is
    done (which is how the abort procedure leaves it when the listeners only
    watch), nothing is run any more.  The driver, whatever the closures are, returns having only dropped
    the whole queue: it calls no operation, dispatches no event and does not
    reschedule itself.  And whatever user code and whatever tasks run, the
    transaction stays finished and no operation is executed. *)
Theorem nothing_runs_after_abort :
  (forall call invoke_listeners loop_fuel w,
     _state w = finished -> all_done w ->
     _start call invoke_listeners loop_fuel w
     = Val tt (set_trace (trace w ++ map OSkip (_requests w))
                 (set_requests [] (set_started true w)))) /\
  (forall prog n s k w0,
     _state w0 = finished -> all_done w0 ->
     match (script_of prog n s ;; run_of prog n k) w0 with
     | Val _ w | Exc _ w =>
         _state w = finished /\ all_done w /\
         exists t, trace w = trace w0 ++ t /\ executed t = []
     | OutOfFuel => True
     end).
Proof.
  split.
  - intros call invoke_listeners loop_fuel w Hf Ha.
    rewrite (_start_eq call invoke_listeners loop_fuel _ _ _ _
               (shift_requests_all_done w (_requests w) Ha)).
    rewrite finalize_eq. destruct (decide _) as [_|Hn]; [|contradiction].
    unfold shifted. rewrite app_nil_r. reflexivity.
  - intros prog n s k w0 Hf Ha.
    pose proof (careful_session spent spent_careful prog n s k w0) as H.
    unfold sat in H.
    destruct ((script_of prog n s ;; run_of prog n k) w0) as [[] w|e w|]; [| |exact I];
      exact (H Hf Ha).
Qed.

(** ** Requests that are done *)

Lemma done_for_good_same w w' :
  heap w' = heap w -> next_ref w' = next_ref w -> done_for_good w w'.
Proof.
  intros Hh Hn. split; [lia|]. intros r _ Hd. unfold request_at in *. rewrite Hh. exact Hd.
Qed.

Lemma done_for_good_careful : Careful done_for_good.
Proof.
  constructor; try (intros; apply done_for_good_same; reflexivity).
  - intros w1 w2 w3 [Hn12 H12] [Hn23 H23]. split; [lia|].
    intros r Hr Hd. apply H23; [lia|]. apply H12; assumption.
  - intros w r rq Hrq. split; [reflexivity|]. intros r' _ Hd.
    unfold request_at in *. simpl.
    destruct (decide (r' = r)) as [->|Hne].
    + rewrite lookup_total_insert_eq. exact Hrq.
    + rewrite lookup_total_insert_ne by congruence. exact Hd.
  - intros w rq _ _. split; [simpl; lia|]. intros r' Hlt Hd.
    unfold request_at in *. simpl.
    rewrite lookup_total_insert_ne by lia. exact Hd.
  - intros w _. split; [simpl; lia|]. intros r' _ Hd. exact Hd.
Qed.

(** X12: no method of the transaction makes a done request pending again:
    whatever user code calls the methods and whatever tasks run, every
    request allocated so far whose readyState is done keeps that readyState
    (its result and error may still be overwritten). *)
Theorem done_request_stays_done (prog : Closure -> Script) (n : nat) (s : Script) (k : nat)
    (w0 : World) (r : Ref) :
  r < next_ref w0 ->
  readyState (request_at w0 r) = done ->
  match (script_of prog n s ;; run_of prog n k) w0 with
  | Val _ w | Exc _ w => readyState (request_at w r) = done
  | OutOfFuel => True
  end.
Proof.
  intros Hr Hd.
  pose proof (careful_session done_for_good done_for_good_careful prog n s k w0) as H.
  unfold sat in H.
  destruct ((script_of prog n s ;; run_of prog n k) w0) as [[] w|e w|]; [| |exact I];
    destruct H as [_ H]; apply H; assumption.
Qed.

(* ====================================================================== *)
(** * More concrete transactions *)

(** The first of three queued requests is run: it is done with the value its
    operation returned, and the driver reschedules itself. *)
Lemma first_request_succeeds :
  request_at first_dispatched 0 = mkRequest done (data 1) None (Some store_A) /\
  start_of scenario enough three_requests
  = Val tt (set_tasks (tasks first_heard ++ [TaskStart]) first_heard).
Proof.
  destruct (successful_request_never_aborts
              (run_closure scenario enough) (listeners_of scenario enough) enough
              three_requests [] 1 0 [r2; r3] store_A (data 1) first_returned false first_heard)
    as (Hreq & _ & _ & _ & Hstart); try (vm_compute; reflexivity).
  split; [|exact Hstart].
  etransitivity; [exact Hreq|]. vm_compute. reflexivity.
Defined.

(** A "success" listener throws UndoFailed: on the committed transaction the
    exception just leaves the driver; on the active one the transaction is
    aborted first. *)
Lemma throwing_listener_aborts :
  (_state (listener_threw true) = committing /\
   start_of scenario enough (listener_will_throw true)
   = Exc (mkError "UndoFailed") (listener_threw true)) /\
  (_state (listener_threw false) <> committing /\
   start_of scenario enough (listener_will_throw false)
   = Exc (mkError "UndoFailed")
       (finish_abort
          (end_of (abort_requests (listeners_of scenario enough) enough)
             (record_error (Some "AbortError")
                (end_of (run_rollbackLog (run_closure scenario enough) enough)
                   (listener_threw false)))))).
Proof.
  split.
  - assert (Hc : _state (listener_threw true) = committing) by (vm_compute; reflexivity).
    split; [exact Hc|].
    refine (proj1 (listener_exception_aborts_unless_committing
              (run_closure scenario enough) (listeners_of scenario enough) enough
              (listener_will_throw true) [] 1 0 [] store_A success_event
              (listener_dispatched true) (mkError "UndoFailed") (listener_threw true)
              _ _ _ _) Hc); vm_compute; try reflexivity.
    split; reflexivity.
  - assert (Hc : _state (listener_threw false) <> committing) by (vm_compute; discriminate).
    split; [exact Hc|].
    destruct (proj2 (listener_exception_aborts_unless_committing
              (run_closure scenario enough) (listeners_of scenario enough) enough
              (listener_will_throw false) [] 1 0 [] store_A success_event
              (listener_dispatched false) (mkError "UndoFailed") (listener_threw false)
              ltac:(vm_compute; reflexivity) ltac:(vm_compute; reflexivity)
              ltac:(vm_compute; split; reflexivity) ltac:(vm_compute; reflexivity)) Hc)
      as [_ T].
    apply (T (end_of (run_rollbackLog (run_closure scenario enough) enough)
                (listener_threw false))
             (end_of (abort_requests (listeners_of scenario enough) enough)
                (record_error (Some "AbortError")
                   (end_of (run_rollbackLog (run_closure scenario enough) enough)
                      (listener_threw false)))));
      vm_compute; reflexivity.
Defined.

(** A request without a source whose operation throws ConstraintError: the
    exception leaves the driver, and nothing else has happened. *)
Lemma bare_operation_throws :
  start_of scenario enough (no_source_queued 6)
  = Exc (mkError "ConstraintError")
      (shifted [] (Some (6, 0)) [] (set_started true (no_source_queued 6))).
Proof.
  pose proof (operation_without_source_runs_bare
                (run_closure scenario enough) (listeners_of scenario enough) enough
                (no_source_queued 6) [] 6 0 []
                ltac:(vm_compute; reflexivity) ltac:(vm_compute; reflexivity)) as T.
  match type of T with
  | match ?c with _ => _ end =>
      assert (E : c = Exc (mkError "ConstraintError")
                        (shifted [] (Some (6, 0)) [] (set_started true (no_source_queued 6))))
        by (vm_compute; reflexivity);
      rewrite E in T
  end.
  exact T.
Defined.

(** The request of [one_request_run] is enqueued again with operation 3:
    the driver drops the entry and goes to the end of the transaction. *)
Lemma done_request_enqueued_again :
  exists w1,
    _execRequestAsync (mkRequestObj (Some store_A) 3 (Some 0)) one_request_run = Val 0 w1 /\
    _requests w1 = [(3, 0)] /\
    start_of scenario enough w1
    = finalize (listeners_of scenario enough)
        (shifted (_requests w1) None [] (set_started true w1)).
Proof.
  destruct (done_request_is_dropped_unrun
              (run_closure scenario enough) (listeners_of scenario enough) enough
              (mkRequestObj (Some store_A) 3 (Some 0)) 0 one_request_run)
    as (w1 & E & Hq & _ & Hstart).
  - vm_compute. reflexivity.
  - reflexivity.
  - vm_compute. reflexivity.
  - apply (bool_decide_unpack _). vm_compute. reflexivity.
  - exists w1. split; [exact E|]. split; [exact Hq|exact Hstart].
Defined.

Lemma scenario_undo_only_undoes f :
  f ∈ [11; 13] -> only_undoes (run_closure scenario enough) f.
Proof.
  intros Hf w.
  apply elem_of_cons in Hf as [->|Hf]; [eexists; eexists; reflexivity|].
  apply elem_of_cons in Hf as [->|Hf]; [eexists; eexists; reflexivity|].
  inversion Hf.
Qed.

(** The three pending requests of [three_requests], when nobody listens:
    each is failed and gets its "error" event. *)
Lemma three_requests_are_failed :
  exists w' rs,
    abort_requests nobody_listens enough three_requests = Val tt w' /\
    _requests w' = [r1; r2; r3] /\
    Forall (fun entry : QueueEntry => readyState (request_at w' entry.2) = done)
      (_requests w') /\
    trace w' = trace three_requests ++ map (fun r => ODispatch (TRequest r) error_event) rs /\
    (forall r, r ∈ rs <-> r ∈ [0; 1; 2]).
Proof.
  destruct (abort_fails_every_pending_request nobody_listens enough three_requests
              nobody_listens_only_watch ltac:(vm_compute; lia))
    as (w' & rs & E & Hq & Hd & _ & Ht & _ & Hrs).
  exists w', rs. split; [exact E|]. split; [exact Hq|]. split; [exact Hd|].
  split; [exact Ht|].
  intros r. rewrite Hrs. change ((_requests three_requests).*2) with [0; 1; 2].
  split; [tauto|]. intros Hin. split; [exact Hin|].
  repeat (apply elem_of_cons in Hin as [->|Hin];
          [split; vm_compute; discriminate|]).
  inversion Hin.
Defined.


(** After _abort("X") the transaction has an error, and running it to its
    end leaves the error in place and fires no "complete". *)
Lemma error_X_stays :
  is_Some (error aborted_with_X) /\
  (is_Some (error (end_of (script_of scenario enough [] ;; run_of scenario enough 4)
                     aborted_with_X)) /\
   exists t, trace (end_of (script_of scenario enough [] ;; run_of scenario enough 4)
                      aborted_with_X)
             = trace aborted_with_X ++ t /\ complete_fired ∉ t).
Proof.
  assert (H : is_Some (error aborted_with_X)).
  { apply (proj1 (error_is_never_cleared scenario enough) "X" three_requests).
    vm_compute. reflexivity. }
  split; [exact H|].
  pose proof (proj2 (error_is_never_cleared scenario enough) [] 4 aborted_with_X H) as T.
  assert (E : (script_of scenario enough [] ;; run_of scenario enough 4) aborted_with_X
              = Val tt (end_of (script_of scenario enough [] ;; run_of scenario enough 4)
                          aborted_with_X)) by (vm_compute; reflexivity).
  rewrite E in T. exact T.
Defined.

(** The handle of store "A" is still the one first returned after a request
    has been enqueued and run. *)
Lemma store_A_keeps_its_handle :
  objectStore "A" tx_A = Val (mkObjectStore 0 []) (end_of (objectStore "A") tx_A) /\
  _objectStoresCache
    (end_of (script_of scenario enough [Enqueue (mkRequestObj (Some store_A) 1 None) []] ;;
             run_of scenario enough 1)
       (end_of (objectStore "A") tx_A)) !! "A" = Some (mkObjectStore 0 []).
Proof.
  assert (H : objectStore "A" tx_A = Val (mkObjectStore 0 []) (end_of (objectStore "A") tx_A))
    by (vm_compute; reflexivity).
  split; [exact H|].
  pose proof (handle_is_for_life scenario enough
                [Enqueue (mkRequestObj (Some store_A) 1 None) []] 1 "A" _ _ _ H) as T.
  match type of T with
  | match ?c with _ => _ end =>
      assert (E : c = Val tt (end_of (script_of scenario enough
                                        [Enqueue (mkRequestObj (Some store_A) 1 None) []] ;;
                                      run_of scenario enough 1)
                                (end_of (objectStore "A") tx_A)))
        by (vm_compute; reflexivity);
      rewrite E in T
  end.
  exact (proj1 T).
Defined.

(** After commit() with one request queued: the request is run and the
    transaction completes; nothing has been enqueued meanwhile. *)
Lemma committed_transaction_is_sealed :
  _execRequestAsync (mkRequestObj (Some store_A) 3 None) committed_with_one_queued
  = Exc TransactionInactiveError committed_with_one_queued /\
  (_state (end_of (script_of scenario enough [] ;; run_of scenario enough 3)
             committed_with_one_queued) = committing \/
   _state (end_of (script_of scenario enough [] ;; run_of scenario enough 3)
             committed_with_one_queued) = finished).
Proof.
  assert (H : _state committed_with_one_queued = committing \/
              _state committed_with_one_queued = finished)
    by (left; vm_compute; reflexivity).
  split.
  - apply (proj1 nothing_is_added_after_commit committed_with_one_queued H).
  - pose proof (proj2 nothing_is_added_after_commit scenario enough [] 3
                  committed_with_one_queued H) as T.
    assert (E : (script_of scenario enough [] ;; run_of scenario enough 3)
                  committed_with_one_queued
                = Val tt (end_of (script_of scenario enough [] ;; run_of scenario enough 3)
                            committed_with_one_queued)) by (vm_compute; reflexivity).
    rewrite E in T. exact (proj1 T).
Defined.

(** After abort() with one request queued: the driver drops the request,
    and no operation is executed in the rest of the run. *)
Lemma aborted_transaction_is_spent :
  (_state aborted_by_user = finished /\ all_done aborted_by_user) /\
  start_of scenario enough aborted_by_user
  = Val tt (set_trace (trace aborted_by_user ++ map OSkip (_requests aborted_by_user))
              (set_requests [] (set_started true aborted_by_user))) /\
  exists t, trace (end_of (script_of scenario enough [] ;; run_of scenario enough 3)
                     aborted_by_user)
            = trace aborted_by_user ++ t /\ executed t = [].
Proof.
  assert (H1 : _state aborted_by_user = finished) by (vm_compute; reflexivity).
  assert (H2 : all_done aborted_by_user).
  { unfold all_done. apply (bool_decide_unpack _). vm_compute. reflexivity. }
  split; [split; assumption|]. split.
  - exact (proj1 nothing_runs_after_abort (run_closure scenario enough)
             (listeners_of scenario enough) enough aborted_by_user H1 H2).
  - pose proof (proj2 nothing_runs_after_abort scenario enough [] 3 aborted_by_user H1 H2) as T.
    assert (E : (script_of scenario enough [] ;; run_of scenario enough 3) aborted_by_user
                = Val tt (end_of (script_of scenario enough [] ;; run_of scenario enough 3)
                            aborted_by_user)) by (vm_compute; reflexivity).
    rewrite E in T. exact (proj2 (proj2 T)).
Defined.

(** The request that has been run is still done after another request has
    been enqueued and run. *)
Lemma run_request_stays_done :
  readyState (request_at one_request_run 0) = done /\
  readyState
    (request_at
       (end_of (script_of scenario enough [Enqueue (mkRequestObj (Some store_A) 3 None) []] ;;
                run_of scenario enough 2) one_request_run) 0) = done.
Proof.
  assert (H : readyState (request_at one_request_run 0) = done) by (vm_compute; reflexivity).
  split; [exact H|].
  pose proof (done_request_stays_done scenario enough
                [Enqueue (mkRequestObj (Some store_A) 3 None) []] 2 one_request_run 0
                ltac:(vm_compute; lia) H) as T.
  match type of T with
  | match ?c with _ => _ end =>
      assert (E : c = Val tt (end_of (script_of scenario enough
                                        [Enqueue (mkRequestObj (Some store_A) 3 None) []] ;;
                                      run_of scenario enough 2) one_request_run))
        by (vm_compute; reflexivity);
      rewrite E in T
  end.
  exact T.
Defined.
